(** * scanic: contour filter, preprocessing kernels and multi-strategy driver

    A shallow embedding of the JavaScript reference implementations of
    [preprocessing.js] (adaptive threshold, CLAHE histogram clipping),
    [contourFilter.js] (geometric filter and composite score) and of the
    driver in [index.js] ([prepareScaleAndGrayscale],
    [detectDocumentInternal], [scanDocument]).

    Number model.  Pixel values, image dimensions and histogram counts are
    integers ([Z], [nat]).  Tunables that only enter integer kernels
    ([offset], [clipLimit]) are rationals ([Q]).  The geometry of the
    contour filter is carried out over the reals ([R]): a JavaScript double
    is read as the real number it denotes and every arithmetic operation as
    the exact one.  The one non-finite value the filter produces on purpose,
    the [Infinity] returned by [quadAspectRatio], is kept as a constructor
    of [jsnum]. *)

From Stdlib Require Import Reals Lra ZArith QArith Qround Qreals Lia List Bool.
From Stdlib Require Import Sorting.Sorted Sorting.Permutation.
From Stdlib Require String.
From Stdlib Require Lqa.
From Stdlib Require Import Qpower.
Import ListNotations.

(* ================================================================== *)
(** * Part I: definitions *)
(* ================================================================== *)

(** ** Typed-array reads

    [a[i]] on a [Uint8ClampedArray] yields [undefined] when [i] is out of
    range; we keep that as [None]. *)

Definition byteAt (a : list Z) (i : nat) : option Z := nth_error a i.

Module Preprocessing.

(** *** adaptiveThresholdJS *)

(** [input[i] > blurred[i] - offset].  A comparison in which one side is
    [undefined] (hence [NaN] after the subtraction) is [false]. *)
Definition above (input blurred : list Z) (offset : Q) (i : nat) : bool :=
  match byteAt input i, byteAt blurred i with
  | Some e, Some b =>
      let threshold := (inject_Z b - offset)%Q in
      negb (Qle_bool (inject_Z e) threshold)
  | _, _ => false
  end.

(** [above !== invert] on two booleans. *)
Definition strictNeq (a b : bool) : bool := xorb a b.

Definition thresholdPixel (input blurred : list Z) (offset : Q)
           (invert : bool) (i : nat) : Z :=
  if strictNeq (above input blurred offset i) invert then 255%Z else 0%Z.

Definition adaptiveThresholdJS (input blurred : list Z) (width height : nat)
           (offset : Q) (invert : bool) : list Z :=
  let pixelCount := (width * height)%nat in
  map (thresholdPixel input blurred offset invert) (seq 0 pixelCount).

(** The rule as the specification words it:
    [O[i] = (above XOR invert) ? 0 : 255]. *)
Definition specThresholdPixel (abv invert : bool) : Z :=
  if xorb abv invert then 0%Z else 255%Z.

(** *** claheJS: tiling, histogram, clipping *)

(** The clip count is either a number or [Infinity] ([None]). *)
Definition clipCount := option Z.

(** [Math.max(1, Math.floor((clipLimit * tilePixels) / 256))]. *)
Definition clipFormula (clipLimit : Q) (pixels : Z) : Z :=
  Z.max 1 (Qfloor (clipLimit * inject_Z pixels / 256)%Q).

(** [Math.floor(width / tileGridX)]; the grid has at least one tile in
    each direction. *)
Definition tileWidth (width tileGridX : nat) : nat := (width / tileGridX)%nat.
Definition tileHeight (height tileGridY : nat) : nat := (height / tileGridY)%nat.

Definition tilePixels (width height tileGridX tileGridY : nat) : nat :=
  (tileWidth width tileGridX * tileHeight height tileGridY)%nat.

(** [const actualClip = clipLimit > 0 ? Math.max(1, ...) : Infinity],
    computed once, before the loop over the tiles. *)
Definition actualClip (width height tileGridX tileGridY : nat)
           (clipLimit : Q) : clipCount :=
  if Qlt_le_dec 0 clipLimit
  then Some (clipFormula clipLimit
               (Z.of_nat (tilePixels width height tileGridX tileGridY)))
  else None.

Definition xStart (width tileGridX tx : nat) : nat :=
  (tx * tileWidth width tileGridX)%nat.
Definition yStart (height tileGridY ty : nat) : nat :=
  (ty * tileHeight height tileGridY)%nat.

(** [tx === tileGridX - 1 ? width : xStart + tileWidth]. *)
Definition xEnd (width tileGridX tx : nat) : nat :=
  if (tx =? tileGridX - 1)%nat then width
  else (xStart width tileGridX tx + tileWidth width tileGridX)%nat.
Definition yEnd (height tileGridY ty : nat) : nat :=
  if (ty =? tileGridY - 1)%nat then height
  else (yStart height tileGridY ty + tileHeight height tileGridY)%nat.

(** [(yEnd - yStart) * (xEnd - xStart)] *)
Definition actualTilePixels (width height tileGridX tileGridY tx ty : nat)
  : nat :=
  ((yEnd height tileGridY ty - yStart height tileGridY ty)
   * (xEnd width tileGridX tx - xStart width tileGridX tx))%nat.

(** [hist[v]++] on a 256-bin [Uint32Array]; an index outside the array is
    a no-op. *)
Fixpoint bump (hist : list Z) (v : nat) : list Z :=
  match hist, v with
  | [], _ => []
  | h :: t, O => (h + 1)%Z :: t
  | h :: t, S v' => h :: bump t v'
  end.

Definition bumpPixel (input : list Z) (hist : list Z) (idx : nat) : list Z :=
  match byteAt input idx with
  | Some v => if (v <? 0)%Z then hist else bump hist (Z.to_nat v)
  | None => hist
  end.

(** The pixel indices [y * width + x] of a tile in loop order. *)
Definition tileIndices (width height tileGridX tileGridY tx ty : nat)
  : list nat :=
  let ys := yStart height tileGridY ty in
  let xs := xStart width tileGridX tx in
  flat_map
    (fun y => map (fun x => (y * width + x)%nat)
                  (seq xs (xEnd width tileGridX tx - xs)))
    (seq ys (yEnd height tileGridY ty - ys)).

Definition tileHistogram (input : list Z)
           (width height tileGridX tileGridY tx ty : nat) : list Z :=
  fold_left (bumpPixel input)
            (tileIndices width height tileGridX tileGridY tx ty)
            (repeat 0%Z 256).

(** First loop of "clip and redistribute": cap every bin and sum the
    excess. *)
Fixpoint capBins (clip : Z) (hist : list Z) : list Z * Z :=
  match hist with
  | [] => ([], 0%Z)
  | h :: t =>
      let '(t', excess) := capBins clip t in
      if (clip <? h)%Z then (clip :: t', (h - clip) + excess)%Z
      else (h :: t', excess)
  end.

(** Second loop: [hist[i] += perBin; if (i < remainder) hist[i]++]. *)
Fixpoint spread (perBin remainder : Z) (i : Z) (hist : list Z) : list Z :=
  match hist with
  | [] => []
  | h :: t =>
      ((h + perBin) + (if (i <? remainder)%Z then 1 else 0))%Z
        :: spread perBin remainder (i + 1)%Z t
  end.

Definition clipHistogram (clip : clipCount) (hist : list Z) : list Z :=
  match clip with
  | None => hist
  | Some c =>
      let '(capped, excess) := capBins c hist in
      let perBin := (excess / 256)%Z in
      let remainder := (excess mod 256)%Z in
      spread perBin remainder 0%Z capped
  end.

(** The histogram of tile [(tx, ty)] after the clip step of [claheJS]. *)
Definition claheTileHist (input : list Z)
           (width height tileGridX tileGridY : nat) (clipLimit : Q)
           (tx ty : nat) : list Z :=
  clipHistogram (actualClip width height tileGridX tileGridY clipLimit)
                (tileHistogram input width height tileGridX tileGridY tx ty).

(** The clip count as the specification words it:
    [clipCount = max(1, floor(L * n / 256))] with [n] the tile's actual
    pixel count. *)
Definition specClipCount (clipLimit : Q) (n : nat) : Z :=
  Z.max 1 (Qfloor (clipLimit * inject_Z (Z.of_nat n) / 256)%Q).

Definition specTileHist (input : list Z)
           (width height tileGridX tileGridY : nat) (clipLimit : Q)
           (tx ty : nat) : list Z :=
  clipHistogram
    (Some (specClipCount clipLimit
             (actualTilePixels width height tileGridX tileGridY tx ty)))
    (tileHistogram input width height tileGridX tileGridY tx ty).

End Preprocessing.

(** ** Numbers of the contour filter *)

Open Scope R_scope.

Definition Rltb (x y : R) : bool := if Rlt_dec x y then true else false.
Definition Reqb (x y : R) : bool := if Req_dec_T x y then true else false.

(** A JavaScript number that is either finite or [+Infinity]. *)
Inductive jsnum : Type :=
| Fin (r : R)
| Infinity.

(** [a < b] and [a > b] on [jsnum]. *)
Definition jslt (a b : jsnum) : bool :=
  match a, b with
  | Fin x, Fin y => Rltb x y
  | Fin _, Infinity => true
  | Infinity, _ => false
  end.
Definition jsgt (a b : jsnum) : bool := jslt b a.

Record point : Type := mkPoint { px : R; py : R }.

Module ContourFilter.

(** [points[i]]; only ever called with [i] reduced modulo the length. *)
Definition at_ (points : list point) (i : nat) : point :=
  nth i points (mkPoint 0 0).

(** *** contourArea: shoelace formula *)
Definition contourArea (points : list point) : R :=
  let n := length points in
  if (n <? 3)%nat then 0
  else
    let area :=
      fold_left
        (fun area i =>
           let j := ((i + 1) mod n)%nat in
           area + px (at_ points i) * py (at_ points j)
                - px (at_ points j) * py (at_ points i))
        (seq 0 n) 0 in
    Rabs area / 2.

(** *** isConvex *)
Definition crossAt (points : list point) (n i : nat) : R :=
  let p0 := at_ points i in
  let p1 := at_ points ((i + 1) mod n) in
  let p2 := at_ points ((i + 2) mod n) in
  let dx1 := px p1 - px p0 in
  let dy1 := py p1 - py p0 in
  let dx2 := px p2 - px p1 in
  let dy2 := py p2 - py p1 in
  dx1 * dy2 - dy1 * dx2.

(** [cross > 0 ? 1 : -1] *)
Definition signOf (cross : R) : Z := if Rltb 0 cross then 1%Z else (-1)%Z.

Fixpoint isConvexLoop (points : list point) (n : nat) (idxs : list nat)
         (sign : Z) : bool :=
  match idxs with
  | [] => true
  | i :: rest =>
      let cross := crossAt points n i in
      if negb (Reqb cross 0) then
        if (sign =? 0)%Z then isConvexLoop points n rest (signOf cross)
        else if negb (signOf cross =? sign)%Z then false
             else isConvexLoop points n rest sign
      else isConvexLoop points n rest sign
  end.

Definition isConvex (points : list point) : bool :=
  let n := length points in
  if (n <? 3)%nat then false
  else isConvexLoop points n (seq 0 n) 0%Z.

(** *** angleBetween *)
Definition angleBetween (p0 p1 p2 : point) : R :=
  let v1x := px p0 - px p1 in
  let v1y := py p0 - py p1 in
  let v2x := px p2 - px p1 in
  let v2y := py p2 - py p1 in
  let dot := v1x * v2x + v1y * v2y in
  let mag1 := sqrt (v1x * v1x + v1y * v1y) in
  let mag2 := sqrt (v2x * v2x + v2y * v2y) in
  if Reqb mag1 0 || Reqb mag2 0 then 0
  else
    let cosAngle := Rmax (-1) (Rmin 1 (dot / (mag1 * mag2))) in
    acos cosAngle * (180 / PI).

(** The angle at vertex [i] as both loops compute it:
    [angleBetween(points[(i+n-1) % n], points[i], points[(i+1) % n])]. *)
Definition angleAt (points : list point) (n i : nat) : R :=
  angleBetween (at_ points ((i + n - 1) mod n))
               (at_ points i)
               (at_ points ((i + 1) mod n)).

(** *** hasReasonableAngles *)
Definition hasReasonableAngles (points : list point) (minAngle maxAngle : R)
  : bool :=
  let n := length points in
  if (n <? 3)%nat then false
  else
    forallb
      (fun i =>
         let angle := angleAt points n i in
         negb (Rltb angle minAngle || Rltb maxAngle angle))
      (seq 0 n).

(** *** computeAngleScore *)
Definition computeAngleScore (points : list point) : R :=
  let n := length points in
  if (n <? 3)%nat then 0
  else
    let totalDeviation :=
      fold_left
        (fun total i => total + Rabs (angleAt points n i - 90))
        (seq 0 n) 0 in
    let avgDeviation := totalDeviation / INR n in
    Rmax 0 (Rmin 1 (1 - avgDeviation / 30)).

(** *** quadAspectRatio *)
Definition edgeLength (points : list point) (i : nat) : R :=
  let j := ((i + 1) mod 4)%nat in
  let dx := px (at_ points j) - px (at_ points i) in
  let dy := py (at_ points j) - py (at_ points i) in
  sqrt (dx * dx + dy * dy).

Definition quadWidth (points : list point) : R :=
  (edgeLength points 0 + edgeLength points 2) / 2.
Definition quadHeight (points : list point) : R :=
  (edgeLength points 1 + edgeLength points 3) / 2.

Definition quadAspectRatio (points : list point) : jsnum :=
  if negb (length points =? 4)%nat then Fin 1
  else
    let width := quadWidth points in
    let height := quadHeight points in
    if Reqb height 0 then Infinity
    else Fin (width / height).

(** *** Instrumented angle computations

    The same two functions with every division made explicit: a division
    whose divisor is zero yields [None].  Used only to state that the
    guards of the source keep every divisor away from zero. *)
Definition checkedDiv (x y : R) : option R :=
  if Reqb y 0 then None else Some (x / y).

Definition angleBetweenChecked (p0 p1 p2 : point) : option R :=
  let v1x := px p0 - px p1 in
  let v1y := py p0 - py p1 in
  let v2x := px p2 - px p1 in
  let v2y := py p2 - py p1 in
  let dot := v1x * v2x + v1y * v2y in
  let mag1 := sqrt (v1x * v1x + v1y * v1y) in
  let mag2 := sqrt (v2x * v2x + v2y * v2y) in
  if Reqb mag1 0 || Reqb mag2 0 then Some 0
  else
    match checkedDiv dot (mag1 * mag2), checkedDiv 180 PI with
    | Some q, Some k => Some (acos (Rmax (-1) (Rmin 1 q)) * k)
    | _, _ => None
    end.

Definition angleAtChecked (points : list point) (n i : nat) : option R :=
  angleBetweenChecked (at_ points ((i + n - 1) mod n))
                      (at_ points i)
                      (at_ points ((i + 1) mod n)).

Fixpoint totalDeviationChecked (points : list point) (n : nat)
         (idxs : list nat) (total : R) : option R :=
  match idxs with
  | [] => Some total
  | i :: rest =>
      match angleAtChecked points n i with
      | Some angle =>
          totalDeviationChecked points n rest (total + Rabs (angle - 90))
      | None => None
      end
  end.

Definition computeAngleScoreChecked (points : list point) : option R :=
  let n := length points in
  if (n <? 3)%nat then Some 0
  else
    match totalDeviationChecked points n (seq 0 n) 0 with
    | Some totalDeviation =>
        match checkedDiv totalDeviation (INR n) with
        | Some avgDeviation =>
            match checkedDiv avgDeviation 30 with
            | Some q => Some (Rmax 0 (Rmin 1 (1 - q)))
            | None => None
            end
        | None => None
        end
    | None => None
    end.

Fixpoint hasReasonableAnglesChecked (points : list point) (n : nat)
         (idxs : list nat) (minAngle maxAngle : R) : option bool :=
  match idxs with
  | [] => Some true
  | i :: rest =>
      match angleAtChecked points n i with
      | Some angle =>
          if Rltb angle minAngle || Rltb maxAngle angle then Some false
          else hasReasonableAnglesChecked points n rest minAngle maxAngle
      | None => None
      end
  end.

(** *** findDocumentContour *)

(** The [options] object; a field that is [undefined] is [None] and takes
    the default of the destructuring pattern. *)
Record options : Type := mkOptions {
  minAreaRatio : option R;
  maxAreaRatio : option R;
  minAngle : option R;
  maxAngle : option R;
  epsilon : option R;
  areaWeight : option R;
  angleWeight : option R;
  minAspectRatio : option jsnum;
  maxAspectRatio : option jsnum;
  epsilonValues : option (list R)
}.

Definition orDefault {A : Type} (x : option A) (d : A) : A :=
  match x with Some v => v | None => d end.

Definition noOptions : options :=
  mkOptions None None None None None None None None None None.

(** A raw contour object with its [.points] and [.area]. *)
Record contour : Type := mkContour {
  points : list point;
  area : R
}.

Record candidate : Type := mkCandidate {
  cand_contour : contour;
  cand_approx : list point;
  cand_area : R;
  cand_points : list point;
  cand_epsilon : R;
  cand_angleScore : R;
  cand_score : R
}.

(** [epsilonValues || [epsilon * 0.5, epsilon * 0.75, epsilon,
    epsilon * 1.5, epsilon * 2.0]] *)
Definition epsilonsOf (o : options) : list R :=
  let eps := orDefault (epsilon o) 0.02 in
  match epsilonValues o with
  | Some l => l
  | None => [eps * 0.5; eps * 0.75; eps; eps * 1.5; eps * 2.0]
  end.

(** Stable sort, highest key first: [l.sort((a, b) => key(b) - key(a))]. *)
Fixpoint insertByScore {A : Type} (key : A -> R) (x : A) (l : list A)
  : list A :=
  match l with
  | [] => [x]
  | y :: l' =>
      if Rltb (key x) (key y) then y :: insertByScore key x l'
      else x :: l
  end.

Definition sortByScore {A : Type} (key : A -> R) (l : list A) : list A :=
  fold_right (insertByScore key) [] l.

(** The order of a list sorted highest key first: a later element never
    has the larger key. *)
Definition notBelow {A : Type} (key : A -> R) (a b : A) : Prop :=
  key b <= key a.

Section Filter.

(** The external polygon approximation; [None] is a [null] result. *)
Variable approximatePolygon : list point -> R -> option (list point).

(** One turn of the epsilon loop up to [candidates.push]; [None] is a
    [continue]. *)
Definition evalEpsilon (o : options) (imageArea : R) (c : contour)
           (eps : R) : option candidate :=
  let minArea := imageArea * orDefault (minAreaRatio o) 0.15 in
  let maxArea := imageArea * orDefault (maxAreaRatio o) 0.98 in
  match approximatePolygon (points c) eps with
  | None => None
  | Some approx =>
      if negb (length approx =? 4)%nat then None else
      let area := contourArea approx in
      if Rltb area minArea || Rltb maxArea area then None else
      if negb (isConvex approx) then None else
      if negb (hasReasonableAngles approx (orDefault (minAngle o) 60)
                                   (orDefault (maxAngle o) 120))
      then None else
      let aspect := quadAspectRatio approx in
      if jslt aspect (orDefault (minAspectRatio o) (Fin 0.3))
         || jsgt aspect (orDefault (maxAspectRatio o) (Fin 3.0))
      then None else
      let angleScore := computeAngleScore approx in
      let normalizedArea := area / imageArea in
      let score := orDefault (areaWeight o) 0.4 * normalizedArea
                   + orDefault (angleWeight o) 0.6 * angleScore in
      Some (mkCandidate c approx area (points c) eps angleScore score)
  end.

(** What a pushed candidate went through: every check of the loop body
    and the values stored in the candidate. *)
Record admitted (o : options) (imageArea : R) (c : contour) (eps : R)
       (cand : candidate) : Prop := mkAdmitted {
  adm_approx : approximatePolygon (points c) eps = Some (cand_approx cand);
  adm_corners : length (cand_approx cand) = 4%nat;
  adm_contour : cand_contour cand = c;
  adm_points : cand_points cand = points c;
  adm_epsilon : cand_epsilon cand = eps;
  adm_area : cand_area cand = contourArea (cand_approx cand);
  adm_area_bounds :
    imageArea * orDefault (minAreaRatio o) 0.15 <= cand_area cand
    <= imageArea * orDefault (maxAreaRatio o) 0.98;
  adm_convex : isConvex (cand_approx cand) = true;
  adm_angles :
    hasReasonableAngles (cand_approx cand) (orDefault (minAngle o) 60)
                        (orDefault (maxAngle o) 120) = true;
  adm_aspect_min :
    jslt (quadAspectRatio (cand_approx cand))
         (orDefault (minAspectRatio o) (Fin 0.3)) = false;
  adm_aspect_max :
    jsgt (quadAspectRatio (cand_approx cand))
         (orDefault (maxAspectRatio o) (Fin 3.0)) = false;
  adm_angleScore :
    cand_angleScore cand = computeAngleScore (cand_approx cand);
  adm_score :
    cand_score cand
    = orDefault (areaWeight o) 0.4 * (cand_area cand / imageArea)
      + orDefault (angleWeight o) 0.6 * cand_angleScore cand
}.

(** The epsilon loop of one contour.  Returns the candidates pushed and
    the epsilons handed to [approximatePolygon], both in order. *)
Fixpoint tryEpsilons (o : options) (imageArea : R) (c : contour)
         (epsilons : list R) : list candidate * list R :=
  match epsilons with
  | [] => ([], [])
  | eps :: rest =>
      match evalEpsilon o imageArea c eps with
      | Some cand =>
          if Rltb 0.5 (cand_score cand) then ([cand], [eps])
          else
            let '(cs, tried) := tryEpsilons o imageArea c rest in
            (cand :: cs, eps :: tried)
      | None =>
          let '(cs, tried) := tryEpsilons o imageArea c rest in
          (cs, eps :: tried)
      end
  end.

(** The candidates of one contour ([points.length < 4] skips it). *)
Definition contourCandidates (o : options) (imageArea : R) (c : contour)
  : list candidate :=
  if (length (points c) <? 4)%nat then []
  else fst (tryEpsilons o imageArea c (epsilonsOf o)).

Definition collectCandidates (o : options) (imageWidth imageHeight : R)
           (contours : list contour) : list candidate :=
  let imageArea := imageWidth * imageHeight in
  flat_map (contourCandidates o imageArea) contours.

Definition findDocumentContour (contours : list contour)
           (imageWidth imageHeight : R) (o : options) : option candidate :=
  hd_error (sortByScore cand_score
              (collectCandidates o imageWidth imageHeight contours)).

End Filter.

End ContourFilter.

(** ** IEEE doubles

    The numbers of the scan are doubles.  Where a result depends on how
    a quotient or a product is rounded, the operation is followed by
    [roundDouble]: the rational nearest to it that a double holds, a tie
    going to the even mantissa.  Overflow and subnormal numbers are left
    out: every value rounded below lies far inside the normal range. *)

Module Doubles.

(** [2^e] for any integer [e]. *)
Definition pow2 (e : Z) : Q := Qpower 2 e.

(** The integer nearest to [r]; a tie goes to the even one. *)
Definition roundHalfEven (r : Q) : Z :=
  let f := Qfloor r in
  match Qcompare (r - inject_Z f)%Q (1 # 2)%Q with
  | Lt => f
  | Gt => (f + 1)%Z
  | Eq => if Z.even f then f else (f + 1)%Z
  end.

(** For [q > 0]: the exponent [e] with [2^52 <= q / 2^e < 2^53]. *)
Definition exponentOf (q : Q) : Z :=
  let e0 := (Z.log2 (Qnum q) - Z.log2 (Zpos (Qden q)) - 52)%Z in
  match Qcompare (q / pow2 e0)%Q (pow2 52) with
  | Lt => (e0 - 1)%Z
  | _ => e0
  end.

(** A positive rational rounded to 53 significant bits. *)
Definition roundPositive (q : Q) : Q :=
  let e := exponentOf q in
  Qred (inject_Z (roundHalfEven (q / pow2 e)%Q) * pow2 e)%Q.

Definition roundDouble (q : Q) : Q :=
  match Qcompare q 0%Q with
  | Eq => 0%Q
  | Gt => roundPositive q
  | Lt => (- roundPositive (- q))%Q
  end.

(** Half an ulp as a fraction of the value: [2^-53]. *)
Definition unitRoundoff : Q := (1 # (2 ^ 53))%Q.

(** The score line of [findDocumentContour] in doubles:
    [normalizedArea = area / imageArea] and
    [score = areaWeight * normalizedArea + angleWeight * angleScore]. *)
Definition scoreDouble (areaWeight angleWeight area imageArea angleScore : Q)
  : Q :=
  let normalizedArea := roundDouble (area / imageArea)%Q in
  roundDouble (roundDouble (areaWeight * normalizedArea)%Q
               + roundDouble (angleWeight * angleScore)%Q)%Q.

End Doubles.

(** ** The driver ([index.js]) *)

Module Driver.

Import ContourFilter.
Import Stdlib.Strings.String.

Definition binary : Type := list Z.

(** A call either returns or throws. *)
Inductive completion (A : Type) : Type :=
| Returned (a : A)
| Threw (msg : String.string).
Arguments Returned {A} a.
Arguments Threw {A} msg.

Inductive strategy : Type := Enhanced | CannyFallback | CannyDefault.

(** A strategy started on an image of the given dimensions. *)
Inductive event : Type := Ran (s : strategy) (width height : Z).

Inductive preEnhanceMode : Type := Unsharp | Clahe | NoEnhance.

Record contourFilterConfig : Type := mkContourFilterConfig {
  cf_minAreaRatio : option R;
  cf_maxAreaRatio : option R;
  cf_angleRange : option (list R);
  cf_areaWeight : option R;
  cf_angleWeight : option R;
  cf_minAspectRatio : option jsnum;
  cf_maxAspectRatio : option jsnum;
  cf_epsilonValues : option (list R)
}.

Record cannyConfig : Type := mkCannyConfig {
  cc_lowThreshold : option R;
  cc_highThreshold : option R
}.

Record scanOptions : Type := mkScanOptions {
  useFallback : option bool;
  contourFilter : option contourFilterConfig;
  opt_epsilon : option R;
  opt_minArea : option R;
  fallbackCanny : option cannyConfig;
  lowThreshold : option R;
  highThreshold : option R;
  maxProcessingDimension : option Z;
  preEnhance : option preEnhanceMode
}.

Definition defaultScanOptions : scanOptions :=
  mkScanOptions None None None None None None None None None.

(** [x || d] on numbers: [undefined] and [0] are falsy. *)
Definition orNum (x : option R) (d : R) : R :=
  match x with
  | Some v => if Reqb v 0 then d else v
  | None => d
  end.

Definition orJsnum (x : option jsnum) (d : jsnum) : jsnum :=
  match x with
  | Some (Fin v) => if Reqb v 0 then d else Fin v
  | Some Infinity => Infinity
  | None => d
  end.

Definition orZ (x : option Z) (d : Z) : Z :=
  match x with
  | Some v => if (v =? 0)%Z then d else v
  | None => d
  end.

(** [options.contourFilter?.f] *)
Definition cfField {A : Type} (o : scanOptions)
           (f : contourFilterConfig -> option A) : option A :=
  match contourFilter o with
  | Some cf => f cf
  | None => None
  end.

(** [options.contourFilter?.angleRange?.[k]] *)
Definition angleRangeAt (o : scanOptions) (k : nat) : option R :=
  match cfField o cf_angleRange with
  | Some range => nth_error range k
  | None => None
  end.

(** The shared [filterOptions] object. *)
Definition filterOptions (o : scanOptions) : options :=
  {| minAreaRatio := Some (orNum (cfField o cf_minAreaRatio) 0.15);
     maxAreaRatio := Some (orNum (cfField o cf_maxAreaRatio) 0.98);
     minAngle := Some (orNum (angleRangeAt o 0) 70);
     maxAngle := Some (orNum (angleRangeAt o 1) 110);
     epsilon := Some (orNum (opt_epsilon o) 0.02);
     areaWeight := Some (orNum (cfField o cf_areaWeight) 0.4);
     angleWeight := Some (orNum (cfField o cf_angleWeight) 0.6);
     minAspectRatio := Some (orJsnum (cfField o cf_minAspectRatio) (Fin 0.3));
     maxAspectRatio := Some (orJsnum (cfField o cf_maxAspectRatio) (Fin 3.0));
     epsilonValues := cfField o cf_epsilonValues |}.

(** A pooled candidate: [{ ...filtered, strategy }]. *)
Record pooled : Type := mkPooled {
  filtered : candidate;
  strategyOf : strategy
}.

Definition pooledScore (p : pooled) : R := cand_score (filtered p).

Record corners : Type := mkCorners {
  topLeft : point;
  topRight : point;
  bottomRight : point;
  bottomLeft : point
}.

Record detection : Type := mkDetection {
  success : bool;
  message : option String.string;
  det_contour : option contour;
  det_corners : option corners
}.

(** The mutable variables of [detectDocumentInternal]. *)
Record state : Type := mkState {
  allCandidates : list pooled;
  fallbackContour : option contour
}.

Definition scalePoint (k : R) (p : point) : point :=
  mkPoint (px p * k) (py p * k).

Section Scan.

(** External collaborators.  [preprocessForDocumentDetection] and the
    contour tracer of strategy 1 run inside a [try]; [None] stands for a
    throw there. *)
Variable approximatePolygon : list point -> R -> option (list point).
Variable preprocessForDocumentDetection :
  binary -> Z -> Z -> scanOptions -> option binary.
Variable detectDocumentContour : binary -> R -> Z -> Z -> list contour.
Variable cannyEdgeDetector : binary -> Z -> Z -> R -> R -> completion binary.
Variable findCornerPoints : contour -> option R -> option corners.

Definition useFallbackOf (o : scanOptions) : bool :=
  match useFallback o with Some b => b | None => true end.

(** [(options.minArea || 1000) / (scaleFactor * scaleFactor)] *)
Definition minAreaOf (o : scanOptions) (scaleFactor : R) : R :=
  orNum (opt_minArea o) 1000 / (scaleFactor * scaleFactor).

(** [if (contours && contours.length > 0) { filter; push }] *)
Definition filterInto (s : strategy) (contours : list contour)
           (width height : Z) (o : scanOptions) : list pooled :=
  match contours with
  | [] => []
  | _ =>
      match findDocumentContour approximatePolygon contours
                                (IZR width) (IZR height) (filterOptions o) with
      | Some f => [mkPooled f s]
      | None => []
      end
  end.

(** [if (!fallbackContour) fallbackContour = contours[0]], inside the
    non-empty branch. *)
Definition keepFallback (fb : option contour) (contours : list contour)
  : option contour :=
  match fb with
  | Some c => Some c
  | None => hd_error contours
  end.

(** Strategy 1; a throw is caught and contributes nothing. *)
Definition strategyEnhanced (gray : binary) (width height : Z)
           (scaleFactor : R) (o : scanOptions) (st : state) : state :=
  match preprocessForDocumentDetection gray width height o with
  | Some preprocessed =>
      let enhancedContours :=
        detectDocumentContour preprocessed (minAreaOf o scaleFactor)
                              width height in
      mkState (allCandidates st
                 ++ filterInto Enhanced enhancedContours width height o)
              (fallbackContour st)
  | None => st
  end.

(** The body of strategies 2 and 3, which share their shape; a throw of
    the edge detector is not caught. *)
Definition strategyCanny (s : strategy) (low high : R) (gray : binary)
           (width height : Z) (scaleFactor : R) (o : scanOptions)
           (st : state) : completion state :=
  match cannyEdgeDetector gray width height low high with
  | Threw msg => Threw msg
  | Returned edges =>
      let contours :=
        detectDocumentContour edges (minAreaOf o scaleFactor)
                              width height in
      Returned
        (mkState (allCandidates st ++ filterInto s contours width height o)
                 (match contours with
                  | [] => fallbackContour st
                  | _ => keepFallback (fallbackContour st) contours
                  end))
  end.

Definition fallbackLow (o : scanOptions) : R :=
  orNum (match fallbackCanny o with
         | Some c => cc_lowThreshold c | None => None end) 30.
Definition fallbackHigh (o : scanOptions) : R :=
  orNum (match fallbackCanny o with
         | Some c => cc_highThreshold c | None => None end) 90.

(** "Pick the best candidate across all strategies". *)
Definition pickDocumentContour (st : state) : option contour :=
  match allCandidates st with
  | _ :: _ =>
      match sortByScore pooledScore (allCandidates st) with
      | best :: _ => Some (cand_contour (filtered best))
      | [] => None
      end
  | [] => fallbackContour st
  end.

Definition noDocumentMessage : string := "No document detected"%string.
Definition noImageMessage : string := "No image provided"%string.

Definition noDocument : detection :=
  mkDetection false (Some noDocumentMessage) None None.

Definition noCorners : detection :=
  mkDetection false (Some "Could not find corner points"%string) None None.

(** From "No document found" to the final [return]. *)
Definition finish (documentContour : option contour) (scaleFactor : R)
           (o : scanOptions) : detection :=
  match documentContour with
  | None => noDocument
  | Some c =>
      match findCornerPoints c (opt_epsilon o) with
      | None => noCorners
      | Some cp =>
          let finalCorners :=
            if negb (Reqb scaleFactor 1) then
              mkCorners (scalePoint scaleFactor (topLeft cp))
                        (scalePoint scaleFactor (topRight cp))
                        (scalePoint scaleFactor (bottomRight cp))
                        (scalePoint scaleFactor (bottomLeft cp))
            else cp in
          mkDetection true None (Some c) (Some finalCorners)
      end
  end.

Definition initialState : state := mkState [] None.

(** The three strategies in order.  Returns the strategies that were
    started and either the final variables or the uncaught throw. *)
Definition runStrategies (gray : binary) (width height : Z)
           (scaleFactor : R) (o : scanOptions)
  : list event * completion state :=
  let st1 := strategyEnhanced gray width height scaleFactor o initialState in
  let ev1 := [Ran Enhanced width height] in
  if useFallbackOf o then
    let ev2 := ev1 ++ [Ran CannyFallback width height] in
    match strategyCanny CannyFallback (fallbackLow o) (fallbackHigh o)
                        gray width height scaleFactor o st1 with
    | Threw msg => (ev2, Threw msg)
    | Returned st2 =>
        (ev2 ++ [Ran CannyDefault width height],
         strategyCanny CannyDefault (orNum (lowThreshold o) 75)
                       (orNum (highThreshold o) 200)
                       gray width height scaleFactor o st2)
    end
  else (ev1, Returned st1).

Definition detectDocumentInternal (gray : binary) (width height : Z)
           (scaleFactor : R) (o : scanOptions)
  : list event * completion detection :=
  match runStrategies gray width height scaleFactor o with
  | (ev, Threw msg) => (ev, Threw msg)
  | (ev, Returned st) =>
      (ev, Returned (finish (pickDocumentContour st) scaleFactor o))
  end.

(** *** prepareScaleAndGrayscale and scanDocument *)

(** The image handed to the scan: an [ImageData]-like object (numeric
    [width] and [height], a [data] buffer) or a DOM element. *)
Inductive imageSource : Type :=
| ImageData (width height : Z) (data : list Z)
| Element (width height naturalWidth naturalHeight : Z).

(** [image.width || image.naturalWidth] for an element. *)
Definition originalWidth (image : imageSource) : Z :=
  match image with
  | ImageData w _ _ => w
  | Element w _ nw _ => if (w =? 0)%Z then nw else w
  end.
Definition originalHeight (image : imageSource) : Z :=
  match image with
  | ImageData _ h _ => h
  | Element _ h _ nh => if (h =? 0)%Z then nh else h
  end.

(** [Math.round] *)
Definition jsRound (q : Q) : Z := Qfloor (q + (1 # 2))%Q.

Record dimensions : Type := mkDimensions {
  targetWidth : Z;
  targetHeight : Z;
  scaleFactor : Q
}.

(** "Calculate target dimensions".  The division is only reached with
    [maxCurrentDimension > maxDimension]; the processing limit is
    positive.  The quotient [maxDimension / maxCurrentDimension], the two
    products and [1 / scale] are doubles: each is rounded before it is
    used. *)
Definition targetDimensions (image : imageSource) (maxDimension : Z)
  : dimensions :=
  let maxCurrentDimension :=
    Z.max (originalWidth image) (originalHeight image) in
  if (maxCurrentDimension <=? maxDimension)%Z then
    mkDimensions (originalWidth image) (originalHeight image) 1%Q
  else
    let scale :=
      Doubles.roundDouble
        (inject_Z maxDimension / inject_Z maxCurrentDimension)%Q in
    mkDimensions
      (jsRound (Doubles.roundDouble
                  (inject_Z (originalWidth image) * scale)%Q))
      (jsRound (Doubles.roundDouble
                  (inject_Z (originalHeight image) * scale)%Q))
      (Doubles.roundDouble (1 / scale)%Q).

Record prepared : Type := mkPrepared {
  grayscaleData : binary;
  dims : dimensions
}.

(** The host canvas and the enhancement kernels that turn the image into
    the grayscale buffer of the target size; may throw. *)
Variable rasterize :
  imageSource -> dimensions -> preEnhanceMode -> completion binary.

Definition prepareScaleAndGrayscale (image : option imageSource)
           (maxDimension : Z) (mode : preEnhanceMode) : completion prepared :=
  match image with
  | None => Threw noImageMessage
  | Some img =>
      let d := targetDimensions img maxDimension in
      match rasterize img d mode with
      | Threw msg => Threw msg
      | Returned gray => Returned (mkPrepared gray d)
      end
  end.

(** [scanDocument] in mode ['detect']. *)
Definition scanDocument (image : option imageSource) (o : scanOptions)
  : list event * completion detection :=
  let maxDimension := orZ (maxProcessingDimension o) 2000 in
  let mode := match preEnhance o with Some m => m | None => Unsharp end in
  match prepareScaleAndGrayscale image maxDimension mode with
  | Threw msg => ([], Threw msg)
  | Returned p =>
      match detectDocumentInternal (grayscaleData p)
              (targetWidth (dims p)) (targetHeight (dims p))
              (Q2R (scaleFactor (dims p))) o with
      | (ev, Threw msg) => (ev, Threw msg)
      | (ev, Returned detection) =>
          if success detection then
            (ev, Returned (mkDetection true (Some "Document detected"%string)
                             (det_contour detection) (det_corners detection)))
          else
            (ev, Returned
                   (mkDetection false
                      (Some (match message detection with
                             | Some m => m
                             | None => noDocumentMessage
                             end))
                      None None))
      end
  end.

End Scan.

End Driver.

(** ** Concrete inputs used by the examples below *)

Module Examples.

Import ContourFilter.

(** The axis-aligned [w] by [h] rectangle with a corner at the origin. *)
Definition rectangle (w h : R) : list point :=
  [mkPoint 0 0; mkPoint w 0; mkPoint w h; mkPoint 0 h].

(** A quadrilateral folded onto a segment: its second and fourth edges
    have length zero. *)
Definition flatQuad : list point :=
  [mkPoint 0 0; mkPoint 1 0; mkPoint 1 0; mkPoint 0 0].

(** A traced contour of a 10x10 image. *)
Definition sheet : contour := mkContour (rectangle 9 9) 81.

(** An approximation that yields a 5x5 square for small epsilons and a
    9x9 square for larger ones. *)
Definition coarseThenFine (pts : list point) (eps : R)
  : option (list point) :=
  if Rltb eps 0.015 then Some (rectangle 5 5) else Some (rectangle 9 9).

(** An approximation that yields an 8x8 square for small epsilons and a
    9x9 square for larger ones. *)
Definition goodThenBetter (pts : list point) (eps : R)
  : option (list point) :=
  if Rltb eps 0.015 then Some (rectangle 8 8) else Some (rectangle 9 9).

Definition alwaysSquare (pts : list point) (eps : R) : option (list point) :=
  Some (rectangle 5 5).

Definition alwaysFlat (pts : list point) (eps : R) : option (list point) :=
  Some flatQuad.

(** Area-heavy weights and two epsilons. *)
Definition areaHeavy : options :=
  mkOptions None None None None None (Some 0.9) (Some 0.1) None None
            (Some [0.01; 0.02]).

Definition twoEpsilons : options :=
  mkOptions None None None None None None None None None
            (Some [0.01; 0.02]).

(** No lower bound on area or angle, no upper bound on the aspect
    ratio. *)
Definition permissive : options :=
  mkOptions (Some 0) None (Some 0) None None None None None (Some Infinity)
            None.

Definition squareCandidate (side eps areaWeight angleWeight : R)
  : candidate :=
  mkCandidate sheet (rectangle side side) (side * side) (points sheet) eps 1
              (areaWeight * (side * side / (10 * 10)) + angleWeight * 1).

(** External collaborators of the driver that find nothing. *)
Definition blankPreprocess (gray : Driver.binary) (width height : Z)
           (o : Driver.scanOptions) : option Driver.binary := Some [].
Definition noContours (b : Driver.binary) (minArea : R) (width height : Z)
  : list contour := [].
Definition blankCanny (gray : Driver.binary) (width height : Z)
           (low high : R) : Driver.completion Driver.binary :=
  Driver.Returned [].
Definition noCornerPoints (c : contour) (eps : option R)
  : option Driver.corners := None.

(** A host that hands back an empty buffer. *)
Definition emptyRaster (img : Driver.imageSource) (d : Driver.dimensions)
           (m : Driver.preEnhanceMode) : Driver.completion Driver.binary :=
  Driver.Returned [].

End Examples.

(** ** Pixel kernels of [preprocessing.js] *)

Module Kernels.

(** A value written into a [Uint8ClampedArray]: [NaN] ([None]) becomes 0
    and an integer is clamped to 0..255. *)
Definition storeClamped (v : option Z) : Z :=
  match v with
  | None => 0%Z
  | Some z => Z.max 0 (Z.min 255 z)
  end.

(** [Math.max(0, Math.min(limit - 1, v))] *)
Definition clampCoord (limit : nat) (v : Z) : nat :=
  Z.to_nat (Z.max 0 (Z.min (Z.of_nat limit - 1) v)).

(** [Math.floor(kernelSize / 2)] *)
Definition halfOf (kernelSize : nat) : nat := (kernelSize / 2)%nat.

(** The values of [k] in [for (let k = -halfK; k <= halfK; k++)]. *)
Definition offsets (halfK : nat) : list Z :=
  map (fun j => (Z.of_nat j - Z.of_nat halfK)%Z) (seq 0 (2 * halfK + 1)).

(** The array filled by two nested loops over all [(y, x)] of the image,
    each writing index [y * width + x]. *)
Definition buildImage (width height : nat) (f : nat -> nat -> Z) : list Z :=
  map (fun idx => f (idx / width)%nat (idx mod width)%nat)
      (seq 0 (width * height)).

(** Index of the sample [k] columns beside [(y, x)], clamped to the row. *)
Definition besideIdx (width : nat) (y x : nat) (k : Z) : nat :=
  (y * width + clampCoord width (Z.of_nat x + k))%nat.

(** Index of the sample [k] rows below [(y, x)], clamped to the column. *)
Definition belowIdx (width height : nat) (y x : nat) (k : Z) : nat :=
  (clampCoord height (Z.of_nat y + k) * width + x)%nat.

(** *** boxBlurJS *)

(** [sum += src[idx]]; adding [undefined] gives [NaN] ([None]). *)
Definition addSample (src : list Z) (sum : option Z) (idx : nat)
  : option Z :=
  match sum, byteAt src idx with
  | Some s, Some v => Some (s + v)%Z
  | _, _ => None
  end.

(** [Math.round(sum / count)] for an integer [sum] and a positive integer
    [count]: the quotient rounded to the nearest integer, halves up. *)
Definition roundedMean (sum : option Z) (count : Z) : option Z :=
  match sum with
  | Some s => Some ((2 * s + count) / (2 * count))%Z
  | None => None
  end.

(** [count] after the loop over [k]. *)
Definition windowCount (halfK : nat) : Z := Z.of_nat (2 * halfK + 1).

Definition blurAt (src : list Z) (halfK : nat) (idxOf : Z -> nat) : Z :=
  storeClamped
    (roundedMean (fold_left (fun sum k => addSample src sum (idxOf k))
                            (offsets halfK) (Some 0%Z))
                 (windowCount halfK)).

Definition boxBlurJS (input : list Z) (width height kernelSize : nat)
  : list Z :=
  let halfK := halfOf kernelSize in
  let temp :=
    buildImage width height
      (fun y x => blurAt input halfK (besideIdx width y x)) in
  buildImage width height
    (fun y x => blurAt temp halfK (belowIdx width height y x)).

(** *** dilateJS and erodeJS *)

(** [if (src[idx] > maxVal) maxVal = src[idx]] *)
Definition maxSample (src : list Z) (maxVal : Z) (idx : nat) : Z :=
  match byteAt src idx with
  | Some v => if (maxVal <? v)%Z then v else maxVal
  | None => maxVal
  end.

(** [if (src[idx] < minVal) minVal = src[idx]] *)
Definition minSample (src : list Z) (minVal : Z) (idx : nat) : Z :=
  match byteAt src idx with
  | Some v => if (v <? minVal)%Z then v else minVal
  | None => minVal
  end.

Definition maxAt (src : list Z) (halfK : nat) (idxOf : Z -> nat) : Z :=
  storeClamped
    (Some (fold_left (fun m k => maxSample src m (idxOf k))
                     (offsets halfK) 0%Z)).

Definition minAt (src : list Z) (halfK : nat) (idxOf : Z -> nat) : Z :=
  storeClamped
    (Some (fold_left (fun m k => minSample src m (idxOf k))
                     (offsets halfK) 255%Z)).

Definition dilateJS (input : list Z) (width height kernelSize : nat)
  : list Z :=
  let halfK := halfOf kernelSize in
  let temp :=
    buildImage width height
      (fun y x => maxAt input halfK (besideIdx width y x)) in
  buildImage width height
    (fun y x => maxAt temp halfK (belowIdx width height y x)).

Definition erodeJS (input : list Z) (width height kernelSize : nat)
  : list Z :=
  let halfK := halfOf kernelSize in
  let temp :=
    buildImage width height
      (fun y x => minAt input halfK (besideIdx width y x)) in
  buildImage width height
    (fun y x => minAt temp halfK (belowIdx width height y x)).

(** *** morphologicalCloseJS *)
Fixpoint morphologicalCloseJS (input : list Z) (width height kernelSize : nat)
         (iterations : nat) : list Z :=
  match iterations with
  | O => input
  | S n =>
      morphologicalCloseJS
        (erodeJS (dilateJS input width height kernelSize)
                 width height kernelSize)
        width height kernelSize n
  end.

(** *** unsharpMaskJS *)

(** [val < 0 ? 0 : val > 255 ? 255 : Math.round(val)] *)
Definition clampRound (val : Q) : Z :=
  if Qlt_le_dec val 0 then 0%Z
  else if Qlt_le_dec 255 val then 255%Z
       else Qfloor (val + (1 # 2))%Q.

Definition sharpenPixel (input blurred : list Z) (amount : Q) (i : nat)
  : Z :=
  match byteAt input i, byteAt blurred i with
  | Some v, Some b =>
      storeClamped
        (Some (clampRound
                 (inject_Z v + amount * (inject_Z v - inject_Z b))%Q))
  | _, _ => 0%Z
  end.

Definition unsharpMaskJS (input : list Z) (width height : nat) (amount : Q)
           (radius : nat) : list Z :=
  let kernelSize := (2 * radius + 1)%nat in
  let blurred := boxBlurJS input width height kernelSize in
  map (sharpenPixel input blurred amount) (seq 0 (width * height)).

(** *** claheJS: cumulative histogram *)

(** [cdf[0] = hist[0]; cdf[i] = cdf[i - 1] + hist[i]] *)
Fixpoint cdfFrom (acc : Z) (hist : list Z) : list Z :=
  match hist with
  | [] => []
  | h :: t => (acc + h)%Z :: cdfFrom (acc + h)%Z t
  end.

Definition cdfOf (hist : list Z) : list Z := cdfFrom 0%Z hist.

(** [cdfMin]: the first positive entry of the CDF, 0 if there is none. *)
Fixpoint cdfMinOf (cdf : list Z) : Z :=
  match cdf with
  | [] => 0%Z
  | c :: t => if (0 <? c)%Z then c else cdfMinOf t
  end.

(** The CDF of tile [(tx, ty)] and the denominator
    [actualTilePixels - cdfMin] of its mapping. *)
Definition claheTileCdf (input : list Z)
           (width height tileGridX tileGridY : nat) (clipLimit : Q)
           (tx ty : nat) : list Z :=
  cdfOf (Preprocessing.claheTileHist input width height tileGridX tileGridY
                                     clipLimit tx ty).

Definition claheTileDenom (input : list Z)
           (width height tileGridX tileGridY : nat) (clipLimit : Q)
           (tx ty : nat) : Z :=
  (Z.of_nat (Preprocessing.actualTilePixels width height tileGridX tileGridY
                                            tx ty)
   - cdfMinOf (claheTileCdf input width height tileGridX tileGridY
                            clipLimit tx ty))%Z.

(** The tiles [(tx, ty)] in loop order. *)
Definition allTiles (tileGridX tileGridY : nat) : list (nat * nat) :=
  flat_map (fun ty => map (fun tx => (tx, ty)) (seq 0 tileGridX))
           (seq 0 tileGridY).

Definition sumZ (l : list Z) : Z := fold_right Z.add 0%Z l.

(** An image buffer of the stated size whose samples are bytes. *)
Definition validImage (img : list Z) (width height : nat) : Prop :=
  length img = (width * height)%nat
  /\ Forall (fun v => (0 <= v <= 255)%Z) img.

(** The sample at row [y], column [x]. *)
Definition pixel (img : list Z) (width : nat) (y x : nat) : Z :=
  nth (y * width + x) img 0%Z.

(** The photographic negative of a buffer. *)
Definition negative (img : list Z) : list Z :=
  map (fun v => (255 - v)%Z) img.

(** A buffer that holds only 0 and 255. *)
Definition isBinary (img : list Z) : Prop :=
  Forall (fun v => v = 0%Z \/ v = 255%Z) img.

End Kernels.

(** ** The enhanced pipeline and the grayscale downscale *)

Module Pipeline.

Import Kernels.

(** The options object of [preprocessForDocumentDetection]; [None] is a
    property left [undefined], which the destructuring pattern replaces
    by its default. *)
Record preprocessOptions : Type := mkPreprocessOptions {
  tileGridX : option nat;
  tileGridY : option nat;
  clipLimit : option Q;
  blurKernelSize : option nat;
  thresholdOffset : option Q;
  morphKernelSize : option nat;
  morphIterations : option nat;
  skipClahe : option bool
}.

Definition withDefault {A : Type} (x : option A) (d : A) : A :=
  match x with
  | Some v => v
  | None => d
  end.

Section Fallbacks.

(** [claheJS] as a whole; only its histogram stage is modelled above. *)
Variable claheJS : list Z -> nat -> nat -> nat -> nat -> Q -> list Z.

(** [preprocessForDocumentDetection] without a WASM module: every stage
    takes its JavaScript fallback. *)
Definition preprocessForDocumentDetection (grayscale : list Z)
           (width height : nat) (options : preprocessOptions) : list Z :=
  let enhanced :=
    if withDefault (skipClahe options) false then grayscale
    else claheJS grayscale width height
                 (withDefault (tileGridX options) 8%nat)
                 (withDefault (tileGridY options) 8%nat)
                 (withDefault (clipLimit options) 3%Q) in
  let blurred :=
    boxBlurJS enhanced width height
              (withDefault (blurKernelSize options) 21%nat) in
  let binary :=
    Preprocessing.adaptiveThresholdJS
      enhanced blurred width height
      (withDefault (thresholdOffset options) 12%Q) true in
  let closed :=
    morphologicalCloseJS binary width height
                         (withDefault (morphKernelSize options) 5%nat)
                         (withDefault (morphIterations options) 2%nat) in
  map (fun v => storeClamped (Some v)) closed.

End Fallbacks.

(** *** bilinearDownscaleGray *)

(** [input[idx]] for an index computed as a number. *)
Definition sampleAt (input : list Z) (idx : Z) : option Z :=
  if (idx <? 0)%Z then None else byteAt input (Z.to_nat idx).

(** [(d + 0.5) * scale - 0.5] *)
Definition sourceCoord (d : nat) (scale : Q) : Q :=
  ((inject_Z (Z.of_nat d) + (1 # 2)) * scale - (1 # 2))%Q.

(** [Math.max(0, Math.min(limit - 1, Math.floor(s)))] *)
Definition lowCoord (limit : nat) (s : Q) : Z :=
  Z.max 0 (Z.min (Z.of_nat limit - 1) (Qfloor s)).

(** [Math.min(limit - 1, c0 + 1)] *)
Definition highCoord (limit : nat) (c0 : Z) : Z :=
  Z.min (Z.of_nat limit - 1) (c0 + 1).

(** The weighted sum of the four neighbours; a missing sample makes it
    [NaN] ([None]). *)
Definition interpolate (input : list Z) (srcWidth : nat)
           (x0 x1 y0 y1 : Z) (fx fy : Q) : option Q :=
  match sampleAt input (y0 * Z.of_nat srcWidth + x0),
        sampleAt input (y0 * Z.of_nat srcWidth + x1),
        sampleAt input (y1 * Z.of_nat srcWidth + x0),
        sampleAt input (y1 * Z.of_nat srcWidth + x1) with
  | Some a, Some b, Some c, Some d =>
      Some (inject_Z a * (1 - fx) * (1 - fy)
            + inject_Z b * fx * (1 - fy)
            + inject_Z c * (1 - fx) * fy
            + inject_Z d * fx * fy)%Q
  | _, _, _, _ => None
  end.

Definition downscalePixel (input : list Z) (srcWidth srcHeight : nat)
           (scaleX scaleY : Q) (dy dx : nat) : Z :=
  let sx := sourceCoord dx scaleX in
  let sy := sourceCoord dy scaleY in
  let x0 := lowCoord srcWidth sx in
  let y0 := lowCoord srcHeight sy in
  let x1 := highCoord srcWidth x0 in
  let y1 := highCoord srcHeight y0 in
  let fx := (sx - inject_Z x0)%Q in
  let fy := (sy - inject_Z y0)%Q in
  storeClamped
    (option_map (fun q => Qfloor (q + (1 # 2))%Q)
                (interpolate input srcWidth x0 x1 y0 y1 fx fy)).

Definition bilinearDownscaleGray (input : list Z)
           (srcWidth srcHeight dstWidth dstHeight : nat) : list Z :=
  let scaleX :=
    (inject_Z (Z.of_nat srcWidth) / inject_Z (Z.of_nat dstWidth))%Q in
  let scaleY :=
    (inject_Z (Z.of_nat srcHeight) / inject_Z (Z.of_nat dstHeight))%Q in
  buildImage dstWidth dstHeight
             (downscalePixel input srcWidth srcHeight scaleX scaleY).

(** A pipeline configured to skip CLAHE, and a stand-in for [claheJS]. *)
Definition skipClaheOptions : preprocessOptions :=
  mkPreprocessOptions None None None None None None None (Some true).
Definition noClahe (input : list Z) (width height gx gy : nat) (clip : Q)
  : list Z := input.

End Pipeline.

(** ** Shapes used to exercise the filter *)

Module Shapes.

(** The axis-aligned [w] by [h] rectangle whose first corner is
    [(x0, y0)], listed around its boundary. *)
Definition rectangleAt (x0 y0 w h : R) : list point :=
  [mkPoint x0 y0; mkPoint (x0 + w) y0; mkPoint (x0 + w) (y0 + h);
   mkPoint x0 (y0 + h)].

(** The same four corners listed so that the outline crosses itself. *)
Definition bowtieAt (x0 y0 w h : R) : list point :=
  [mkPoint x0 y0; mkPoint (x0 + w) y0; mkPoint x0 (y0 + h);
   mkPoint (x0 + w) (y0 + h)].

(** The vertex list started at the second vertex. *)
Definition rotateQuad (quad : list point) : list point :=
  match quad with
  | [a; b; c; d] => [b; c; d; a]
  | _ => quad
  end.

End Shapes.

Module DriverShapes.

Import ContourFilter Driver.
Import Stdlib.Strings.String.

(** The messages of a successful scan and of a scan that found a contour
    without corners. *)
Definition detectedMessage : string := "Document detected"%string.
Definition noCornersMessage : string :=
  "Could not find corner points"%string.

(** The four corner points multiplied by the scale factor. *)
Definition scaleCorners (k : R) (cp : corners) : corners :=
  mkCorners (scalePoint k (topLeft cp)) (scalePoint k (topRight cp))
            (scalePoint k (bottomRight cp)) (scalePoint k (bottomLeft cp)).

(** The contours a run of the strategies can have traced: those of the
    tracer on some binary image. *)
Definition tracedBy (detectDocumentContour :
                       binary -> R -> Z -> Z -> list contour)
           (minArea : R) (width height : Z) (c : contour) : Prop :=
  exists b, In c (detectDocumentContour b minArea width height).

(** Every contour the variables of a run hold was traced. *)
Definition tracedState (detectDocumentContour :
                          binary -> R -> Z -> Z -> list contour)
           (o : scanOptions) (scaleFactor : R) (width height : Z)
           (st : state) : Prop :=
  (forall p, In p (allCandidates st) ->
             tracedBy detectDocumentContour (minAreaOf o scaleFactor)
                      width height (cand_contour (filtered p)))
  /\ (forall c, fallbackContour st = Some c ->
                tracedBy detectDocumentContour (minAreaOf o scaleFactor)
                         width height c).

End DriverShapes.

Module ScanExamples.

Import ContourFilter Driver Examples.
Import Stdlib.Strings.String.

(** A scan that runs strategy 1 only. *)
Definition enhancedOnly : scanOptions :=
  mkScanOptions (Some false) None None None None None None None None.

(** A scan configured with a zero lower area bound and a zero area
    weight. *)
Definition zeroConfigured : scanOptions :=
  mkScanOptions None
    (Some (mkContourFilterConfig (Some 0) None None (Some 0) None None None
                                 None))
    None None None None None None None.

(** A tracer that finds the sheet whatever it is given, and the corner
    finder that reads the sheet's corners. *)
Definition sheetTracer (b : binary) (minArea : R) (width height : Z)
  : list contour := [sheet].
Definition sheetCorners (c : contour) (eps : option R) : option corners :=
  Some (mkCorners (mkPoint 0 0) (mkPoint 9 0) (mkPoint 9 9) (mkPoint 0 9)).

(** An edge detector that throws. *)
Definition failureMessage : string := "edge detection failed"%string.
Definition failingCanny (gray : binary) (width height : Z) (low high : R)
  : completion binary := Threw failureMessage.

(** A 10x10 and a 4000x3000 [ImageData]; the host hands back an empty
    buffer for both. *)
Definition tenByTen : imageSource := ImageData 10 10 [].
Definition largePhoto : imageSource := ImageData 4000 3000 [].

End ScanExamples.

(** ** The host canvas of the examples *)

Module HostExamples.

Import ContourFilter Driver Examples.
Import Stdlib.Strings.String.

(** A host as browsers' canvases are: reading back a canvas with a side
    below 1 throws, otherwise a (black) buffer of the target size comes
    back.  With an enhancement and a downscale the canvas is read at the
    original size and the enhancement kernel shrinks the buffer to
    [targetWidth * targetHeight] samples; otherwise the canvas is read at
    the target size. *)
Definition indexSizeMessage : string := "IndexSizeError"%string.
Definition canvasRaster (img : imageSource) (d : dimensions)
           (mode : preEnhanceMode) : completion binary :=
  let enhanceActive :=
    match mode with NoEnhance => false | _ => true end in
  let needsDownscale := negb (Qeq_bool (scaleFactor d) 1) in
  let grabWidth :=
    if enhanceActive && needsDownscale then originalWidth img
    else targetWidth d in
  let grabHeight :=
    if enhanceActive && needsDownscale then originalHeight img
    else targetHeight d in
  if (grabWidth <? 1)%Z || (grabHeight <? 1)%Z then Threw indexSizeMessage
  else Returned (repeat 0%Z (Z.to_nat (targetWidth d * targetHeight d))).

(** A 1x3000 [ImageData] and a scan limited to 800 pixels. *)
Definition thinImage : imageSource :=
  ImageData 1 3000 (repeat 0%Z (Z.to_nat 12000)).
Definition limit800 : scanOptions :=
  mkScanOptions None None None None None None None (Some 800%Z) None.

(** A 1140x2432 [ImageData]. *)
Definition portraitPhoto : imageSource := ImageData 1140 2432 [].

End HostExamples.

(** ** The perspective warp ([index.js]) *)

Module Perspective.

Import ContourFilter Driver.
Import Stdlib.Strings.String.

(** A 3x3 matrix [[[m00, m01, m02], [m10, m11, m12], [m20, m21, m22]]]. *)
Record matrix3 : Type := mkMatrix3 {
  m00 : R; m01 : R; m02 : R;
  m10 : R; m11 : R; m12 : R;
  m20 : R; m21 : R; m22 : R
}.

Definition singularMessage : string := "Singular matrix"%string.

(** *** invert3x3 *)
Definition invert3x3 (m : matrix3) : completion matrix3 :=
  let a := m00 m in let b := m01 m in let c := m02 m in
  let d := m10 m in let e := m11 m in let f := m12 m in
  let g := m20 m in let h := m21 m in let i := m22 m in
  let A := e * i - f * h in
  let B := - (d * i - f * g) in
  let C := d * h - e * g in
  let D := - (b * i - c * h) in
  let E := a * i - c * g in
  let F := - (a * h - b * g) in
  let G := b * f - c * e in
  let H := - (a * f - c * d) in
  let I := a * e - b * d in
  let det := a * A + b * B + c * C in
  if Reqb det 0 then Threw singularMessage
  else Returned (mkMatrix3 (A / det) (D / det) (G / det)
                           (B / det) (E / det) (H / det)
                           (C / det) (F / det) (I / det)).

(** The determinant and the matrix product, to state what [invert3x3]
    returns. *)
Definition det3 (m : matrix3) : R :=
  m00 m * (m11 m * m22 m - m12 m * m21 m)
  - m01 m * (m10 m * m22 m - m12 m * m20 m)
  + m02 m * (m10 m * m21 m - m11 m * m20 m).

Definition mmul (p q : matrix3) : matrix3 :=
  mkMatrix3
    (m00 p * m00 q + m01 p * m10 q + m02 p * m20 q)
    (m00 p * m01 q + m01 p * m11 q + m02 p * m21 q)
    (m00 p * m02 q + m01 p * m12 q + m02 p * m22 q)
    (m10 p * m00 q + m11 p * m10 q + m12 p * m20 q)
    (m10 p * m01 q + m11 p * m11 q + m12 p * m21 q)
    (m10 p * m02 q + m11 p * m12 q + m12 p * m22 q)
    (m20 p * m00 q + m21 p * m10 q + m22 p * m20 q)
    (m20 p * m01 q + m21 p * m11 q + m22 p * m21 q)
    (m20 p * m02 q + m21 p * m12 q + m22 p * m22 q).

Definition identity3 : matrix3 := mkMatrix3 1 0 0 0 1 0 0 0 1.

(** *** mapPoint, the closure of [warpTransform], with the matrix it
    closes over as an argument. *)
Definition mapPoint (inv : matrix3) (x y : R) : point :=
  let denom := m20 inv * x + m21 inv * y + m22 inv in
  mkPoint ((m00 inv * x + m01 inv * y + m02 inv) / denom)
          ((m10 inv * x + m11 inv * y + m12 inv) / denom).

(** *** drawTexturedTriangle *)

(** The arguments [a, b, c, d, e, f] the function computes; it hands them
    to the canvas as [setTransform(a, d, b, e, c, f)]. *)
Record affine : Type := mkAffine {
  af_a : R; af_b : R; af_c : R;
  af_d : R; af_e : R; af_f : R
}.

(** What the canvas does with [setTransform(a, d, b, e, c, f)]: the point
    [(x, y)] of the image is drawn at [(a x + b y + c, d x + e y + f)]. *)
Definition drawnAt (t : affine) (p : point) : point :=
  mkPoint (af_a t * px p + af_b t * py p + af_c t)
          (af_d t * px p + af_e t * py p + af_f t).

(** [grow], with the centroid it closes over as an argument. *)
Definition grow (centerX centerY x y : R) : point :=
  let expand := 1.0 in
  let vx := x - centerX in
  let vy := y - centerY in
  let len := sqrt (vx * vx + vy * vy) in
  if Rltb len 1e-6 then mkPoint x y
  else mkPoint (x + vx / len * expand) (y + vy / len * expand).

(** One textured triangle: the clip path and the transform. *)
Record triangleDraw : Type := mkTriangleDraw {
  clipPath : list point;
  transform : affine
}.

(** [None] is the early [return] that draws nothing. *)
Definition drawTexturedTriangle (sx0 sy0 sx1 sy1 sx2 sy2 : R)
           (dx0 dy0 dx1 dy1 dx2 dy2 : R) : option triangleDraw :=
  let denom := (sx0 - sx2) * (sy1 - sy2) - (sx1 - sx2) * (sy0 - sy2) in
  if Rltb (Rabs denom) 1e-10 then None
  else
    let invDenom := 1 / denom in
    let a := ((dx0 - dx2) * (sy1 - sy2) - (dx1 - dx2) * (sy0 - sy2))
             * invDenom in
    let b := ((dx1 - dx2) * (sx0 - sx2) - (dx0 - dx2) * (sx1 - sx2))
             * invDenom in
    let c := dx0 - a * sx0 - b * sy0 in
    let d := ((dy0 - dy2) * (sy1 - sy2) - (dy1 - dy2) * (sy0 - sy2))
             * invDenom in
    let e := ((dy1 - dy2) * (sx0 - sx2) - (dy0 - dy2) * (sx1 - sx2))
             * invDenom in
    let f := dy0 - d * sx0 - e * sy0 in
    let centerX := (dx0 + dx1 + dx2) / 3 in
    let centerY := (dy0 + dy1 + dy2) / 3 in
    let p0 := grow centerX centerY dx0 dy0 in
    let p1 := grow centerX centerY dx1 dy1 in
    let p2 := grow centerX centerY dx2 dy2 in
    Some (mkTriangleDraw [p0; p1; p2] (mkAffine a b c d e f)).

(** The Euclidean distance of two points. *)
Definition distance (p q : point) : R :=
  sqrt ((px p - px q) * (px p - px q) + (py p - py q) * (py p - py q)).

(** A transform that doubles and shifts by one. *)
Definition shiftScale : matrix3 := mkMatrix3 2 0 1 0 2 1 0 0 1.

End Perspective.

(* ================================================================== *)
(** * Part II: properties *)
(* ================================================================== *)

(** ** Adaptive threshold *)

Module PreprocessingFacts.

Import Preprocessing.

Lemma above_iff (input blurred : list Z) (offset : Q) (i : nat) (e b : Z) :
  byteAt input i = Some e ->
  byteAt blurred i = Some b ->
  above input blurred offset i = true
  <-> (inject_Z b - offset < inject_Z e)%Q.
Proof.
  intros He Hb. unfold above. rewrite He, Hb. cbv zeta.
  rewrite negb_true_iff.
  destruct (Qle_bool (inject_Z e) (inject_Z b - offset)) eqn:Hle.
  - apply Qle_bool_iff in Hle. split; [discriminate|].
    intro Hlt. exfalso. apply (Qlt_not_le _ _ Hlt Hle).
  - split; [intros _|reflexivity].
    apply Qnot_le_lt. intro Hle'. apply Qle_bool_iff in Hle'. congruence.
Qed.

Lemma adaptiveThresholdJS_length input blurred width height offset invert :
  length (adaptiveThresholdJS input blurred width height offset invert)
  = (width * height)%nat.
Proof. unfold adaptiveThresholdJS. now rewrite length_map, length_seq. Qed.

Lemma adaptiveThresholdJS_nth input blurred width height offset invert i :
  (i < width * height)%nat ->
  nth_error (adaptiveThresholdJS input blurred width height offset invert) i
  = Some (thresholdPixel input blurred offset invert i).
Proof.
  intro Hi. unfold adaptiveThresholdJS. cbv zeta.
  rewrite nth_error_map, nth_error_seq.
  apply Nat.ltb_lt in Hi. now rewrite Hi.
Qed.

(** C1 (as amended).  For every pixel [i], [above] is
    [E[i] > B[i] - C] and the output is 255 when [above XOR invert] holds
    and 0 otherwise; so with [invert = true] a pixel strictly brighter than
    its blurred mean minus [C] becomes 0 (black), and one that is not
    becomes 255. *)
Theorem adaptiveThreshold_pixel :
  forall input blurred width height offset invert i,
    (i < width * height)%nat ->
    nth_error (adaptiveThresholdJS input blurred width height offset invert) i
    = Some (if xorb (above input blurred offset i) invert
            then 255%Z else 0%Z)
    /\ (forall e b, byteAt input i = Some e -> byteAt blurred i = Some b ->
          (above input blurred offset i = true
           <-> (inject_Z b - offset < inject_Z e)%Q))
    /\ (invert = true ->
        nth_error
          (adaptiveThresholdJS input blurred width height offset invert) i
        = Some (if above input blurred offset i then 0%Z else 255%Z)).
Proof.
  intros input blurred width height offset invert i Hi.
  rewrite adaptiveThresholdJS_nth by exact Hi.
  unfold thresholdPixel, strictNeq. repeat split.
  - intros Habove. eapply above_iff; eauto.
  - intros Hlt. eapply above_iff; eauto.
  - intros ->. now destruct (above input blurred offset i).
Qed.

Lemma adaptiveThreshold_pixel_witness :
  nth_error (adaptiveThresholdJS [200%Z; 50%Z] [100%Z; 100%Z] 2 1 12 true) 0
  = Some 0%Z.
Proof.
  destruct (adaptiveThreshold_pixel [200%Z; 50%Z] [100%Z; 100%Z]
              2 1 12 true 0) as (H & _ & _).
  - simpl. lia.
  - exact H.
Defined.

(** C1, as worded: the output would be 0 when [above XOR invert] holds.
    On a one-pixel image with [E = 200], [B = 100], [C = 12] and
    [invert = true] the pixel is above its threshold, the rule as worded
    gives 255 and the code gives 0. *)
Lemma adaptiveThreshold_polarity_counterexample :
  above [200%Z] [100%Z] 12 0 = true
  /\ specThresholdPixel (above [200%Z] [100%Z] 12 0) true = 255%Z
  /\ nth_error (adaptiveThresholdJS [200%Z] [100%Z] 1 1 12 true) 0
     = Some 0%Z
  /\ ~ (forall input blurred width height offset invert i,
          (i < width * height)%nat ->
          nth_error
            (adaptiveThresholdJS input blurred width height offset invert) i
          = Some (specThresholdPixel (above input blurred offset i) invert)).
Proof.
  repeat split; try reflexivity.
  intro H. specialize (H [200%Z] [100%Z] 1%nat 1%nat 12%Q true 0%nat).
  assert (Hlt : (0 < 1 * 1)%nat) by (simpl; lia).
  specialize (H Hlt). vm_compute in H. discriminate.
Qed.

(** C8.  The output of the adaptive threshold has [width * height] pixels
    and each of them is 0 or 255, whatever the input buffers, the offset
    and the invert flag. *)
Theorem adaptiveThreshold_binary :
  forall input blurred width height offset invert,
    length (adaptiveThresholdJS input blurred width height offset invert)
    = (width * height)%nat
    /\ Forall (fun v => v = 0%Z \/ v = 255%Z)
              (adaptiveThresholdJS input blurred width height offset invert).
Proof.
  intros. split; [apply adaptiveThresholdJS_length|].
  unfold adaptiveThresholdJS. cbv zeta.
  apply Forall_map, Forall_forall. intros i _.
  unfold thresholdPixel.
  destruct (strictNeq (above input blurred offset i) invert); auto.
Qed.

(** ** CLAHE: histogram clipping *)

Lemma actualClip_positive width height tileGridX tileGridY clipLimit :
  (0 < clipLimit)%Q ->
  actualClip width height tileGridX tileGridY clipLimit
  = Some (clipFormula clipLimit
            (Z.of_nat (tilePixels width height tileGridX tileGridY))).
Proof.
  intro Hpos. unfold actualClip.
  destruct (Qlt_le_dec 0 clipLimit) as [_|Hle]; [reflexivity|].
  exfalso. apply (Qlt_not_le _ _ Hpos Hle).
Qed.

Lemma actualClip_unclipped width height tileGridX tileGridY clipLimit :
  (clipLimit <= 0)%Q ->
  actualClip width height tileGridX tileGridY clipLimit = None.
Proof.
  intro Hle. unfold actualClip.
  destruct (Qlt_le_dec 0 clipLimit) as [Hpos|_]; [|reflexivity].
  exfalso. apply (Qlt_not_le _ _ Hpos Hle).
Qed.

(** A tile that does not absorb a remainder has the nominal size. *)
Lemma span_nominal (total grid t : nat) :
  (t < grid)%nat ->
  (t <> grid - 1 \/ total mod grid = 0)%nat ->
  ((if (t =? grid - 1)%nat then total else t * (total / grid) + total / grid)
   - t * (total / grid) = total / grid)%nat.
Proof.
  intros Ht Hcase.
  destruct (Nat.eqb_spec t (grid - 1)) as [Heq|Hne].
  - destruct Hcase as [Hne|Hmod]; [contradiction|].
    assert (Hg : grid <> 0%nat) by lia.
    pose proof (Nat.div_mod_eq total grid) as Hdm.
    rewrite Hmod, Nat.add_0_r in Hdm.
    subst t. set (q := (total / grid)%nat) in *.
    assert (Hgq : (grid * q = (grid - 1) * q + q)%nat).
    { replace grid with (S (grid - 1)) at 1 by lia. simpl. lia. }
    lia.
  - lia.
Qed.

Lemma actualTilePixels_nominal width height tileGridX tileGridY tx ty :
  (tx < tileGridX)%nat -> (ty < tileGridY)%nat ->
  (tx <> tileGridX - 1 \/ width mod tileGridX = 0)%nat ->
  (ty <> tileGridY - 1 \/ height mod tileGridY = 0)%nat ->
  actualTilePixels width height tileGridX tileGridY tx ty
  = tilePixels width height tileGridX tileGridY.
Proof.
  intros Hx Hy Hcx Hcy.
  unfold actualTilePixels, tilePixels, xEnd, yEnd, xStart, yStart,
    tileWidth, tileHeight.
  rewrite (span_nominal width tileGridX tx Hx Hcx).
  rewrite (span_nominal height tileGridY ty Hy Hcy).
  apply Nat.mul_comm.
Qed.

(** C3 (as amended).  With a positive clip limit [L], the clip count used
    for every tile, the last row and column included, is the single value
    [max(1, floor(L * tw * th / 256))] of the nominal tile size
    [tw = floor(W/gx)], [th = floor(H/gy)].  It is the count
    [max(1, floor(L * n / 256))] of the tile's own pixel count [n] on the
    tiles whose size is the nominal one: every tile outside the last row
    and column, and every tile when [gx] divides [W] and [gy] divides
    [H]. *)
Theorem clahe_clip_count_nominal :
  forall input width height tileGridX tileGridY clipLimit tx ty,
    (0 < clipLimit)%Q ->
    claheTileHist input width height tileGridX tileGridY clipLimit tx ty
    = clipHistogram
        (Some (Z.max 1
                 (Qfloor (clipLimit
                          * inject_Z (Z.of_nat (width / tileGridX
                                                * (height / tileGridY)))
                          / 256)%Q)))
        (tileHistogram input width height tileGridX tileGridY tx ty)
    /\ ((tx < tileGridX)%nat -> (ty < tileGridY)%nat ->
        (tx <> tileGridX - 1 \/ width mod tileGridX = 0)%nat ->
        (ty <> tileGridY - 1 \/ height mod tileGridY = 0)%nat ->
        actualClip width height tileGridX tileGridY clipLimit
        = Some (specClipCount clipLimit
                  (actualTilePixels width height tileGridX tileGridY tx ty))
        /\ claheTileHist input width height tileGridX tileGridY clipLimit
                         tx ty
           = specTileHist input width height tileGridX tileGridY clipLimit
                          tx ty).
Proof.
  intros input width height gx gy L tx ty Hpos.
  unfold claheTileHist, specTileHist.
  rewrite (actualClip_positive width height gx gy L Hpos).
  split; [reflexivity|].
  intros Hx Hy Hcx Hcy.
  rewrite (actualTilePixels_nominal width height gx gy tx ty Hx Hy Hcx Hcy).
  split; reflexivity.
Qed.

Lemma clahe_clip_count_nominal_witness :
  (0 < 2)%Q
  /\ claheTileHist (repeat 7%Z 16) 4 4 2 2 2 0 0
     = specTileHist (repeat 7%Z 16) 4 4 2 2 2 0 0.
Proof.
  split; [reflexivity|].
  refine (proj2 (proj2 (clahe_clip_count_nominal
                          (repeat 7%Z 16) 4 4 2 2 2 0 0 _) _ _ _ _)).
  - reflexivity.
  - simpl; lia.
  - simpl; lia.
  - left; simpl; lia.
  - left; simpl; lia.
Defined.

(** C3, as worded: the clip count of a tile would follow that tile's own
    pixel count.  On a 3x128 image cut into a 2x1 grid with [L = 2] the
    nominal tile has 128 pixels and the clip count is 1, while the last
    tile holds 256 pixels and would have to be clipped at 2; on an
    all-zero image the two clipped histograms of that tile differ. *)
Lemma clahe_clip_count_counterexample :
  actualTilePixels 3 128 2 1 1 0 = 256%nat
  /\ specClipCount 2 (actualTilePixels 3 128 2 1 1 0) = 2%Z
  /\ actualClip 3 128 2 1 2 = Some 1%Z
  /\ nth 0 (claheTileHist (repeat 0%Z 384) 3 128 2 1 2 1 0) 0%Z = 2%Z
  /\ nth 0 (specTileHist (repeat 0%Z 384) 3 128 2 1 2 1 0) 0%Z = 3%Z
  /\ claheTileHist (repeat 0%Z 384) 3 128 2 1 2 1 0
     <> specTileHist (repeat 0%Z 384) 3 128 2 1 2 1 0.
Proof.
  repeat split; try (vm_compute; reflexivity).
  intro H.
  apply (f_equal (fun l => nth 0 l 0%Z)) in H.
  vm_compute in H. discriminate.
Qed.

End PreprocessingFacts.

(** ** Comparisons on reals *)

Lemma Rltb_true_iff (x y : R) : Rltb x y = true <-> x < y.
Proof.
  unfold Rltb. destruct (Rlt_dec x y); split; intros; try easy.
Qed.

Lemma Rltb_false_iff (x y : R) : Rltb x y = false <-> y <= x.
Proof.
  unfold Rltb. destruct (Rlt_dec x y); split; intros; try easy; lra.
Qed.

Lemma Reqb_true_iff (x y : R) : Reqb x y = true <-> x = y.
Proof.
  unfold Reqb. destruct (Req_dec_T x y); split; intros; try easy.
Qed.

Lemma Reqb_false_iff (x y : R) : Reqb x y = false <-> x <> y.
Proof.
  unfold Reqb. destruct (Req_dec_T x y); split; intros; try easy.
Qed.

Lemma Reqb_refl (x : R) : Reqb x x = true.
Proof. now apply Reqb_true_iff. Qed.

Create Rewrite HintDb jscmp.
#[global] Hint Rewrite Rltb_true_iff Rltb_false_iff Reqb_true_iff
  Reqb_false_iff orb_true_iff orb_false_iff negb_true_iff negb_false_iff
  : jscmp.

(** Turns every boolean comparison in the context into its proposition. *)
Ltac reflect_cmp :=
  repeat match goal with
         | H : _ |- _ => progress (autorewrite with jscmp in H)
         end.

(** ** The angle computation *)

Module AngleFacts.

Import ContourFilter.

Lemma norm_zero (x y : R) : sqrt ((x - x) * (x - x) + (y - y) * (y - y)) = 0.
Proof.
  replace ((x - x) * (x - x) + (y - y) * (y - y)) with 0 by ring.
  apply sqrt_0.
Qed.

Lemma angleBetween_coincident_prev (p1 p2 : point) :
  angleBetween p1 p1 p2 = 0.
Proof.
  unfold angleBetween. cbv zeta. now rewrite norm_zero, Reqb_refl.
Qed.

Lemma angleBetween_coincident_next (p0 p1 : point) :
  angleBetween p0 p1 p1 = 0.
Proof.
  unfold angleBetween. cbv zeta.
  now rewrite (norm_zero (px p1) (py p1)), Reqb_refl, orb_true_r.
Qed.

(** Every divisor met by [angleBetween] is non-zero. *)
Lemma angleBetweenChecked_total (p0 p1 p2 : point) :
  angleBetweenChecked p0 p1 p2 = Some (angleBetween p0 p1 p2).
Proof.
  unfold angleBetweenChecked, angleBetween. cbv zeta.
  set (mag1 := sqrt _). set (mag2 := sqrt _).
  destruct (Reqb mag1 0 || Reqb mag2 0) eqn:Hguard; [reflexivity|].
  reflect_cmp. destruct Hguard as [H1 H2].
  unfold checkedDiv.
  assert (Hprod : mag1 * mag2 <> 0) by (apply Rmult_integral_contrapositive; tauto).
  apply Reqb_false_iff in Hprod. rewrite Hprod.
  pose proof PI_neq0 as Hpi. apply Reqb_false_iff in Hpi. rewrite Hpi.
  reflexivity.
Qed.

Lemma angleAtChecked_total (points : list point) (n i : nat) :
  angleAtChecked points n i = Some (angleAt points n i).
Proof. apply angleBetweenChecked_total. Qed.

Lemma totalDeviationChecked_total (points : list point) (n : nat)
      (idxs : list nat) (total : R) :
  totalDeviationChecked points n idxs total
  = Some (fold_left
            (fun total i => total + Rabs (angleAt points n i - 90))
            idxs total).
Proof.
  revert total. induction idxs as [|i rest IH]; intro total; simpl.
  - reflexivity.
  - rewrite angleAtChecked_total. apply IH.
Qed.

Lemma computeAngleScoreChecked_total (points : list point) :
  computeAngleScoreChecked points = Some (computeAngleScore points).
Proof.
  unfold computeAngleScoreChecked, computeAngleScore. cbv zeta.
  destruct (length points <? 3)%nat eqn:Hn; [reflexivity|].
  apply Nat.ltb_ge in Hn.
  rewrite totalDeviationChecked_total. unfold checkedDiv.
  assert (Hlen : INR (length points) <> 0).
  { apply not_0_INR. lia. }
  apply Reqb_false_iff in Hlen. rewrite Hlen.
  assert (H30 : 30 <> 0) by lra.
  apply Reqb_false_iff in H30. rewrite H30.
  reflexivity.
Qed.

Lemma hasReasonableAnglesChecked_total (points : list point) (n : nat)
      (idxs : list nat) (minAngle maxAngle : R) :
  hasReasonableAnglesChecked points n idxs minAngle maxAngle
  = Some (forallb
            (fun i =>
               let angle := angleAt points n i in
               negb (Rltb angle minAngle || Rltb maxAngle angle))
            idxs).
Proof.
  induction idxs as [|i rest IH]; simpl.
  - reflexivity.
  - rewrite angleAtChecked_total.
    destruct (Rltb (angleAt points n i) minAngle
              || Rltb maxAngle (angleAt points n i)); simpl.
    + reflexivity.
    + apply IH.
Qed.

(** The predecessor of the successor of [i], both taken around the
    polygon, is [i]. *)
Lemma prev_of_next (n i : nat) :
  (i < n)%nat -> (((i + 1) mod n + n - 1) mod n = i)%nat.
Proof.
  intro Hi.
  destruct (Nat.eq_dec (i + 1) n) as [Heq|Hne].
  - rewrite Heq, Nat.Div0.mod_same. simpl.
    rewrite Nat.mod_small by lia. lia.
  - rewrite (Nat.mod_small (i + 1) n) by lia.
    replace (i + 1 + n - 1)%nat with (i + 1 * n)%nat by lia.
    rewrite Nat.Div0.mod_add. apply Nat.mod_small. exact Hi.
Qed.

Lemma angleAt_zero_edge_start (points : list point) (i : nat) :
  at_ points i = at_ points ((i + 1) mod length points) ->
  angleAt points (length points) i = 0.
Proof.
  intro Heq. unfold angleAt. rewrite <- Heq.
  apply angleBetween_coincident_next.
Qed.

Lemma angleAt_zero_edge_end (points : list point) (i : nat) :
  (i < length points)%nat ->
  at_ points i = at_ points ((i + 1) mod length points) ->
  angleAt points (length points) ((i + 1) mod length points) = 0.
Proof.
  intros Hi Heq. unfold angleAt.
  rewrite (prev_of_next (length points) i Hi), <- Heq.
  apply angleBetween_coincident_prev.
Qed.

Lemma hasReasonableAngles_inv (points : list point) (minAngle maxAngle : R) :
  hasReasonableAngles points minAngle maxAngle = true ->
  (3 <= length points)%nat
  /\ forall i, (i < length points)%nat ->
               minAngle <= angleAt points (length points) i <= maxAngle.
Proof.
  unfold hasReasonableAngles. cbv zeta.
  destruct (length points <? 3)%nat eqn:Hn; [discriminate|].
  apply Nat.ltb_ge in Hn. intro Hall. split; [exact Hn|].
  intros i Hi. rewrite forallb_forall in Hall.
  specialize (Hall i). rewrite in_seq in Hall.
  assert (Hin : (0 <= i < 0 + length points)%nat) by lia.
  specialize (Hall Hin). cbv zeta in Hall.
  reflect_cmp. lra.
Qed.

Lemma hasReasonableAngles_out_of_range (points : list point)
      (minAngle maxAngle : R) (i : nat) :
  (i < length points)%nat ->
  angleAt points (length points) i < minAngle
  \/ maxAngle < angleAt points (length points) i ->
  hasReasonableAngles points minAngle maxAngle = false.
Proof.
  intros Hi Hout.
  destruct (hasReasonableAngles points minAngle maxAngle) eqn:Hok;
    [|reflexivity].
  apply hasReasonableAngles_inv in Hok. destruct Hok as [_ Hall].
  specialize (Hall i Hi). lra.
Qed.

(** C10.  When two adjacent vertices of a polygon coincide, the angle
    computed at either end of that zero-length edge is 0 degrees, and
    [hasReasonableAngles] rejects the polygon for every positive
    [minAngle].  No division of the angle computations meets a zero
    divisor: the instrumented functions, in which such a division would
    yield [None], always return the value of the plain ones. *)
Theorem zero_length_edge_angle :
  forall points i minAngle maxAngle,
    (i < length points)%nat ->
    at_ points i = at_ points ((i + 1) mod length points) ->
    angleAt points (length points) i = 0
    /\ angleAt points (length points) ((i + 1) mod length points) = 0
    /\ (0 < minAngle ->
        hasReasonableAngles points minAngle maxAngle = false)
    /\ (forall p q, angleBetween p p q = 0 /\ angleBetween q p p = 0)
    /\ (forall p0 p1 p2,
          angleBetweenChecked p0 p1 p2 = Some (angleBetween p0 p1 p2))
    /\ (exists ok,
          hasReasonableAnglesChecked points (length points)
            (seq 0 (length points)) minAngle maxAngle = Some ok)
    /\ computeAngleScoreChecked points = Some (computeAngleScore points).
Proof.
  intros points i minAngle maxAngle Hi Heq.
  pose proof (angleAt_zero_edge_start points i Heq) as Hzero.
  repeat split.
  - exact Hzero.
  - apply angleAt_zero_edge_end; assumption.
  - intro Hmin.
    apply (hasReasonableAngles_out_of_range points minAngle maxAngle i Hi).
    left. rewrite Hzero. exact Hmin.
  - apply angleBetween_coincident_prev.
  - apply angleBetween_coincident_next.
  - apply angleBetweenChecked_total.
  - rewrite hasReasonableAnglesChecked_total. eexists. reflexivity.
  - apply computeAngleScoreChecked_total.
Qed.

Lemma zero_length_edge_angle_witness :
  hasReasonableAngles
    [mkPoint 0 0; mkPoint 0 0; mkPoint 1 0; mkPoint 1 1] 70 110 = false.
Proof.
  refine (proj1 (proj2 (proj2
            (zero_length_edge_angle
               [mkPoint 0 0; mkPoint 0 0; mkPoint 1 0; mkPoint 1 1]
               0 70 110 _ _))) _).
  - simpl. lia.
  - reflexivity.
  - lra.
Defined.

End AngleFacts.

(** ** Rectangles *)

Module RectangleFacts.

Import ContourFilter Examples.

Lemma isConvexLoop_nonneg (points : list point) (n : nat) (idxs : list nat)
      (sign : Z) :
  (forall i, In i idxs -> 0 <= crossAt points n i) ->
  sign = 0%Z \/ sign = 1%Z ->
  isConvexLoop points n idxs sign = true.
Proof.
  revert sign. induction idxs as [|i rest IH]; intros sign Hall Hsign.
  - reflexivity.
  - simpl.
    assert (Hi : 0 <= crossAt points n i) by (apply Hall; now left).
    assert (Hrest : forall j, In j rest -> 0 <= crossAt points n j)
      by (intros j Hj; apply Hall; now right).
    destruct (Reqb (crossAt points n i) 0) eqn:Hz; simpl.
    + now apply IH.
    + apply Reqb_false_iff in Hz.
      assert (Hs : signOf (crossAt points n i) = 1%Z).
      { unfold signOf.
        assert (Hpos : Rltb 0 (crossAt points n i) = true)
          by (apply Rltb_true_iff; lra).
        now rewrite Hpos. }
      rewrite Hs. destruct Hsign as [-> | ->]; simpl.
      * apply IH; [exact Hrest | now right].
      * apply IH; [exact Hrest | now right].
Qed.

Lemma angleBetween_right (p0 p1 p2 : point) :
  (px p0 - px p1) * (px p2 - px p1) + (py p0 - py p1) * (py p2 - py p1) = 0 ->
  0 < (px p0 - px p1) * (px p0 - px p1) + (py p0 - py p1) * (py p0 - py p1) ->
  0 < (px p2 - px p1) * (px p2 - px p1) + (py p2 - py p1) * (py p2 - py p1) ->
  angleBetween p0 p1 p2 = 90.
Proof.
  intros Hdot H1 H2. unfold angleBetween. cbv zeta.
  rewrite Hdot.
  apply sqrt_lt_R0 in H1. apply sqrt_lt_R0 in H2.
  remember (sqrt ((px p0 - px p1) * (px p0 - px p1)
                  + (py p0 - py p1) * (py p0 - py p1))) as mag1.
  remember (sqrt ((px p2 - px p1) * (px p2 - px p1)
                  + (py p2 - py p1) * (py p2 - py p1))) as mag2.
  assert (Hm1 : Reqb mag1 0 = false) by (apply Reqb_false_iff; lra).
  assert (Hm2 : Reqb mag2 0 = false) by (apply Reqb_false_iff; lra).
  rewrite Hm1, Hm2. simpl.
  replace (0 / (mag1 * mag2)) with 0 by (unfold Rdiv; ring).
  rewrite Rmin_right by lra. rewrite Rmax_right by lra.
  rewrite acos_0. pose proof PI_neq0. field. assumption.
Qed.

Lemma sqrt_axis (d : R) : 0 <= d -> sqrt (d * d + 0) = d.
Proof. intro Hd. rewrite Rplus_0_r. now apply sqrt_square. Qed.

Section Rectangle.

Variables w h : R.
Hypothesis w_pos : 0 < w.
Hypothesis h_pos : 0 < h.

Lemma rectangle_area : contourArea (rectangle w h) = w * h.
Proof.
  unfold contourArea, rectangle. simpl.
  replace (0 + 0 * 0 - w * 0 + w * h - w * 0 + w * h - 0 * h + 0 * 0 - 0 * h)
    with (2 * (w * h)) by ring.
  rewrite Rabs_right by nra. field.
Qed.

Lemma rectangle_convex : isConvex (rectangle w h) = true.
Proof.
  unfold isConvex. simpl length. simpl Nat.ltb. cbv iota.
  apply isConvexLoop_nonneg; [|now left].
  intros i Hi. simpl in Hi.
  repeat (destruct Hi as [<-|Hi]; [unfold crossAt; simpl; nra|]).
  contradiction.
Qed.

Lemma rectangle_angle (i : nat) :
  (i < 4)%nat -> angleAt (rectangle w h) 4 i = 90.
Proof.
  intro Hi. assert (Hcases : (i = 0 \/ i = 1 \/ i = 2 \/ i = 3)%nat) by lia.
  destruct Hcases as [->|[->|[->| ->]]]; unfold angleAt; simpl;
    apply angleBetween_right; simpl; nra.
Qed.

Lemma rectangle_reasonable (minAngle maxAngle : R) :
  minAngle <= 90 <= maxAngle ->
  hasReasonableAngles (rectangle w h) minAngle maxAngle = true.
Proof.
  intro Hrange. unfold hasReasonableAngles. simpl length. simpl Nat.ltb.
  cbv iota zeta. apply forallb_forall. intros i Hi.
  apply in_seq in Hi. rewrite rectangle_angle by lia.
  apply negb_true_iff, orb_false_iff.
  split; apply Rltb_false_iff; lra.
Qed.

Lemma rectangle_angleScore : computeAngleScore (rectangle w h) = 1.
Proof.
  unfold computeAngleScore. simpl length. simpl Nat.ltb. cbv iota zeta.
  simpl seq. simpl fold_left.
  rewrite !rectangle_angle by lia.
  replace (90 - 90) with 0 by ring. rewrite Rabs_R0.
  simpl INR.
  replace (1 - (0 + 0 + 0 + 0 + 0) / (1 + 1 + 1 + 1) / 30) with 1 by field.
  rewrite Rmin_left by lra. apply Rmax_right. lra.
Qed.

Lemma rectangle_aspect : quadAspectRatio (rectangle w h) = Fin (w / h).
Proof.
  unfold quadAspectRatio, quadWidth, quadHeight, edgeLength. simpl.
  replace ((w - 0) * (w - 0) + (0 - 0) * (0 - 0)) with (w * w + 0) by ring.
  replace ((0 - w) * (0 - w) + (h - h) * (h - h)) with (w * w + 0) by ring.
  replace ((w - w) * (w - w) + (h - 0) * (h - 0)) with (h * h + 0) by ring.
  replace ((0 - 0) * (0 - 0) + (0 - h) * (0 - h)) with (h * h + 0) by ring.
  rewrite !sqrt_axis by lra.
  assert (Hh : Reqb ((h + h) / 2) 0 = false) by (apply Reqb_false_iff; lra).
  rewrite Hh. f_equal. field. lra.
Qed.

End Rectangle.

End RectangleFacts.

(** ** Sorting by score *)

Module SortFacts.

Import ContourFilter.

Section Sort.

Context {A : Type}.
Variable key : A -> R.

Lemma insertByScore_perm (x : A) (l : list A) :
  Permutation (insertByScore key x l) (x :: l).
Proof.
  induction l as [|y l IH]; simpl.
  - apply Permutation_refl.
  - destruct (Rltb (key x) (key y)).
    + eapply perm_trans; [apply perm_skip, IH | apply perm_swap].
    + apply Permutation_refl.
Qed.

Lemma sortByScore_perm (l : list A) : Permutation (sortByScore key l) l.
Proof.
  induction l as [|x l IH]; simpl.
  - apply perm_nil.
  - eapply perm_trans; [apply insertByScore_perm | now apply perm_skip].
Qed.

Lemma insertByScore_hd (x a : A) (l : list A) :
  notBelow key a x -> HdRel (notBelow key) a l -> HdRel (notBelow key) a (insertByScore key x l).
Proof.
  intros Hax Hhd. destruct l as [|y l]; simpl.
  - now constructor.
  - destruct (Rltb (key x) (key y)).
    + inversion Hhd; subst. now constructor.
    + now constructor.
Qed.

Lemma insertByScore_sorted (x : A) (l : list A) :
  Sorted (notBelow key) l -> Sorted (notBelow key) (insertByScore key x l).
Proof.
  induction l as [|y l IH]; intro Hs; simpl.
  - repeat constructor.
  - inversion Hs as [|? ? Hs' Hhd]; subst.
    destruct (Rltb (key x) (key y)) eqn:Hlt.
    + constructor; [now apply IH|].
      apply insertByScore_hd; [|exact Hhd].
      apply Rltb_true_iff in Hlt. unfold notBelow. lra.
    + constructor; [exact Hs|].
      constructor. apply Rltb_false_iff in Hlt. exact Hlt.
Qed.

Lemma sortByScore_sorted (l : list A) : Sorted (notBelow key) (sortByScore key l).
Proof.
  induction l as [|x l IH]; simpl.
  - constructor.
  - now apply insertByScore_sorted.
Qed.

Lemma notBelow_trans : Relations_1.Transitive (notBelow key).
Proof. intros a b c Hab Hbc. unfold notBelow in *. lra. Qed.

(** The head of the sorted list is an element of the list whose key is
    the largest. *)
Lemma sortByScore_head (l : list A) (best : A) (rest : list A) :
  sortByScore key l = best :: rest ->
  In best l /\ forall x, In x l -> key x <= key best.
Proof.
  intro Hsort.
  pose proof (sortByScore_perm l) as Hperm.
  pose proof (sortByScore_sorted l) as Hsorted.
  rewrite Hsort in Hperm, Hsorted.
  split.
  - eapply Permutation_in; [exact Hperm | now left].
  - intros x Hx.
    apply Permutation_sym in Hperm.
    pose proof (Permutation_in x Hperm Hx) as Hin.
    destruct Hin as [->|Hin]; [lra|].
    apply Sorted_StronglySorted in Hsorted; [|exact notBelow_trans].
    inversion Hsorted as [|? ? _ Hall]; subst.
    rewrite Forall_forall in Hall. exact (Hall x Hin).
Qed.

Lemma sortByScore_nonempty (l : list A) :
  l <> [] -> exists best rest, sortByScore key l = best :: rest.
Proof.
  intro Hne. destruct (sortByScore key l) as [|b r] eqn:Hs.
  - pose proof (sortByScore_perm l) as Hperm. rewrite Hs in Hperm.
    apply Permutation_nil in Hperm. contradiction.
  - now exists b, r.
Qed.

End Sort.

End SortFacts.

(** ** The contour filter *)

Module FilterFacts.

Import ContourFilter Examples RectangleFacts.

Section Filter.

Variable approximatePolygon : list point -> R -> option (list point).


Lemma evalEpsilon_Some (o : options) (imageArea : R) (c : contour)
      (eps : R) (cand : candidate) :
  evalEpsilon approximatePolygon o imageArea c eps = Some cand ->
  admitted approximatePolygon o imageArea c eps cand.
Proof.
  unfold ContourFilter.evalEpsilon. cbv zeta.
  destruct (approximatePolygon (points c) eps) as [approx|] eqn:Hap;
    [|discriminate].
  destruct (negb (length approx =? 4)%nat) eqn:Hlen; [discriminate|].
  destruct (Rltb (contourArea approx) _ || Rltb _ (contourArea approx))
    eqn:Harea; [discriminate|].
  destruct (negb (isConvex approx)) eqn:Hconv; [discriminate|].
  destruct (negb (hasReasonableAngles approx _ _)) eqn:Hang; [discriminate|].
  destruct (jslt (quadAspectRatio approx) _ || jsgt (quadAspectRatio approx) _)
    eqn:Hasp; [discriminate|].
  intro Heq. injection Heq as <-.
  apply negb_false_iff in Hlen, Hconv, Hang.
  apply Nat.eqb_eq in Hlen.
  apply orb_false_iff in Harea, Hasp.
  destruct Harea as [Ha1 Ha2]. destruct Hasp as [Hs1 Hs2].
  apply Rltb_false_iff in Ha1, Ha2.
  constructor; simpl; auto.
Qed.

(** An approximation that is a rectangle within all bounds is pushed, with
    angle score 1. *)
Lemma evalEpsilon_rectangle (o : options) (imageArea : R) (c : contour)
      (eps w h : R) :
  0 < w -> 0 < h ->
  approximatePolygon (points c) eps = Some (rectangle w h) ->
  imageArea * orDefault (minAreaRatio o) 0.15 <= w * h
  <= imageArea * orDefault (maxAreaRatio o) 0.98 ->
  orDefault (minAngle o) 60 <= 90 <= orDefault (maxAngle o) 120 ->
  jslt (Fin (w / h)) (orDefault (minAspectRatio o) (Fin 0.3)) = false ->
  jsgt (Fin (w / h)) (orDefault (maxAspectRatio o) (Fin 3.0)) = false ->
  evalEpsilon approximatePolygon o imageArea c eps
  = Some (mkCandidate c (rectangle w h) (w * h) (points c) eps 1
            (orDefault (areaWeight o) 0.4 * (w * h / imageArea)
             + orDefault (angleWeight o) 0.6 * 1)).
Proof.
  intros Hw Hh Hap Harea Hang Hmin Hmax.
  unfold ContourFilter.evalEpsilon. cbv zeta. rewrite Hap.
  change (length (rectangle w h)) with 4%nat. simpl negb. cbv iota.
  rewrite rectangle_area by assumption.
  rewrite rectangle_convex by assumption.
  rewrite rectangle_reasonable by assumption.
  rewrite rectangle_aspect by assumption.
  rewrite rectangle_angleScore by assumption.
  rewrite Hmin, Hmax.
  assert (H1 : Rltb (w * h) (imageArea * orDefault (minAreaRatio o) 0.15)
               = false) by (apply Rltb_false_iff; lra).
  assert (H2 : Rltb (imageArea * orDefault (maxAreaRatio o) 0.98) (w * h)
               = false) by (apply Rltb_false_iff; lra).
  rewrite H1, H2. reflexivity.
Qed.

(** Every pushed candidate comes from an epsilon that was tried. *)
Lemma tryEpsilons_In (o : options) (imageArea : R) (c : contour)
      (epsilons : list R) (cand : candidate) :
  In cand (fst (tryEpsilons approximatePolygon o imageArea c epsilons)) ->
  exists eps, In eps epsilons /\ evalEpsilon approximatePolygon o imageArea c eps = Some cand.
Proof.
  induction epsilons as [|eps rest IH]; simpl; [contradiction|].
  destruct (evalEpsilon approximatePolygon o imageArea c eps) as [cand0|] eqn:Hev.
  - destruct (Rltb 0.5 (cand_score cand0)).
    + simpl. intros [<-|[]]. exists eps. auto.
    + destruct (tryEpsilons approximatePolygon o imageArea c rest) as [cs tried]. simpl in *.
      intros [<-|Hin].
      * exists eps. auto.
      * destruct (IH Hin) as (e & He & Hev'). exists e. auto.
  - destruct (tryEpsilons approximatePolygon o imageArea c rest) as [cs tried]. simpl in *.
    intro Hin. destruct (IH Hin) as (e & He & Hev'). exists e. auto.
Qed.

Lemma collectCandidates_In (o : options) (imageWidth imageHeight : R)
      (contours : list contour) (cand : candidate) :
  In cand (collectCandidates approximatePolygon o imageWidth imageHeight contours) ->
  exists c eps,
    In c contours
    /\ admitted approximatePolygon o (imageWidth * imageHeight) c eps cand.
Proof.
  unfold ContourFilter.collectCandidates. cbv zeta.
  rewrite in_flat_map. intros (c & Hc & Hin).
  unfold contourCandidates in Hin.
  destruct (length (points c) <? 4)%nat; [contradiction|].
  apply tryEpsilons_In in Hin. destruct Hin as (eps & _ & Hev).
  exists c, eps. split; [exact Hc|]. now apply evalEpsilon_Some.
Qed.

End Filter.

End FilterFacts.

(** ** Claims about the filter *)

Module FilterClaims.

Import ContourFilter Examples RectangleFacts FilterFacts.

(** *** Runs of the filter on the example inputs *)

Lemma flatQuad_height : quadHeight flatQuad = 0.
Proof.
  unfold quadHeight, edgeLength, flatQuad. simpl.
  rewrite !AngleFacts.norm_zero. lra.
Qed.

Lemma flatQuad_aspect : quadAspectRatio flatQuad = Infinity.
Proof.
  unfold quadAspectRatio. change (length flatQuad) with 4%nat. simpl negb.
  cbv iota zeta. now rewrite flatQuad_height, Reqb_refl.
Qed.

Lemma evalEpsilon_coarse :
  evalEpsilon coarseThenFine areaHeavy (10 * 10) sheet 0.01
  = Some (squareCandidate 5 0.01 0.9 0.1).
Proof.
  apply (evalEpsilon_rectangle coarseThenFine areaHeavy (10 * 10) sheet
           0.01 5 5); simpl; try lra.
  - unfold coarseThenFine.
    assert (H : Rltb 0.01 0.015 = true) by (apply Rltb_true_iff; lra).
    now rewrite H.
  - apply Rltb_false_iff. lra.
  - apply Rltb_false_iff. lra.
Qed.

Lemma evalEpsilon_fine :
  evalEpsilon coarseThenFine areaHeavy (10 * 10) sheet 0.02
  = Some (squareCandidate 9 0.02 0.9 0.1).
Proof.
  apply (evalEpsilon_rectangle coarseThenFine areaHeavy (10 * 10) sheet
           0.02 9 9); simpl; try lra.
  - unfold coarseThenFine.
    assert (H : Rltb 0.02 0.015 = false) by (apply Rltb_false_iff; lra).
    now rewrite H.
  - apply Rltb_false_iff. lra.
  - apply Rltb_false_iff. lra.
Qed.

Lemma coarse_score_low : Rltb 0.5 (cand_score (squareCandidate 5 0.01 0.9 0.1)) = false.
Proof. apply Rltb_false_iff. simpl. lra. Qed.

Lemma fine_score_high : Rltb 0.5 (cand_score (squareCandidate 9 0.02 0.9 0.1)) = true.
Proof. apply Rltb_true_iff. simpl. lra. Qed.

Lemma tryEpsilons_coarseThenFine :
  tryEpsilons coarseThenFine areaHeavy (10 * 10) sheet [0.01; 0.02]
  = ([squareCandidate 5 0.01 0.9 0.1; squareCandidate 9 0.02 0.9 0.1],
     [0.01; 0.02]).
Proof.
  simpl. rewrite evalEpsilon_coarse, coarse_score_low.
  rewrite evalEpsilon_fine, fine_score_high. reflexivity.
Qed.

Lemma collectCandidates_coarseThenFine :
  collectCandidates coarseThenFine areaHeavy 10 10 [sheet]
  = [squareCandidate 5 0.01 0.9 0.1; squareCandidate 9 0.02 0.9 0.1].
Proof.
  unfold collectCandidates. cbv zeta. simpl flat_map.
  unfold contourCandidates. simpl Nat.ltb. cbv iota.
  change (epsilonsOf areaHeavy) with [0.01; 0.02].
  rewrite tryEpsilons_coarseThenFine. reflexivity.
Qed.


Lemma evalEpsilon_good :
  evalEpsilon goodThenBetter twoEpsilons (10 * 10) sheet 0.01
  = Some (squareCandidate 8 0.01 0.4 0.6).
Proof.
  apply (evalEpsilon_rectangle goodThenBetter twoEpsilons (10 * 10) sheet
           0.01 8 8); simpl; try lra.
  - unfold goodThenBetter.
    assert (H : Rltb 0.01 0.015 = true) by (apply Rltb_true_iff; lra).
    now rewrite H.
  - apply Rltb_false_iff. lra.
  - apply Rltb_false_iff. lra.
Qed.

Lemma evalEpsilon_better :
  evalEpsilon goodThenBetter twoEpsilons (10 * 10) sheet 0.02
  = Some (squareCandidate 9 0.02 0.4 0.6).
Proof.
  apply (evalEpsilon_rectangle goodThenBetter twoEpsilons (10 * 10) sheet
           0.02 9 9); simpl; try lra.
  - unfold goodThenBetter.
    assert (H : Rltb 0.02 0.015 = false) by (apply Rltb_false_iff; lra).
    now rewrite H.
  - apply Rltb_false_iff. lra.
  - apply Rltb_false_iff. lra.
Qed.

Lemma tryEpsilons_goodThenBetter :
  tryEpsilons goodThenBetter twoEpsilons (10 * 10) sheet [0.01; 0.02]
  = ([squareCandidate 8 0.01 0.4 0.6], [0.01]).
Proof.
  simpl. rewrite evalEpsilon_good.
  assert (H : Rltb 0.5 (cand_score (squareCandidate 8 0.01 0.4 0.6)) = true)
    by (apply Rltb_true_iff; simpl; lra).
  now rewrite H.
Qed.

(** *** The epsilon loop *)

(** The shape of one run of the epsilon loop: the epsilons tried form an
    initial segment of the list, and a candidate scoring above 0.5 is the
    last one pushed, comes from the last epsilon tried, and every epsilon
    tried before it either pushed nothing or pushed a candidate scoring at
    most 0.5. *)
Lemma tryEpsilons_shape (approximatePolygon : list point -> R -> option (list point))
      (o : options) (imageArea : R) (c : contour) (epsilons : list R) :
  forall cands tried,
    tryEpsilons approximatePolygon o imageArea c epsilons = (cands, tried) ->
    (exists rest, epsilons = tried ++ rest)
    /\ forall k cand,
        nth_error cands k = Some cand ->
        0.5 < cand_score cand ->
        S k = length cands
        /\ exists before,
            tried = before ++ [cand_epsilon cand]
            /\ evalEpsilon approximatePolygon o imageArea c
                           (cand_epsilon cand) = Some cand
            /\ forall eps' cand',
                In eps' before ->
                evalEpsilon approximatePolygon o imageArea c eps'
                = Some cand' ->
                cand_score cand' <= 0.5.
Proof.
  induction epsilons as [|eps rest IH]; intros cands tried Hrun.
  - simpl in Hrun. injection Hrun as <- <-. split.
    + now exists [].
    + intros [|k] cand Hk; discriminate.
  - simpl in Hrun.
    destruct (evalEpsilon approximatePolygon o imageArea c eps)
      as [cand0|] eqn:Hev.
    + pose proof (adm_epsilon _ _ _ _ _ _ (evalEpsilon_Some _ _ _ _ _ _ Hev))
        as Heps0.
      destruct (Rltb 0.5 (cand_score cand0)) eqn:Hscore.
      * injection Hrun as <- <-. split.
        -- now exists rest.
        -- intros [|k] cand Hk Hhigh.
           ++ simpl in Hk. injection Hk as <-. split; [reflexivity|].
              exists []. rewrite Heps0. repeat split; auto.
              intros eps' cand' [].
           ++ simpl in Hk. destruct k; discriminate.
      * destruct (tryEpsilons approximatePolygon o imageArea c rest)
          as [cs tr] eqn:Hrest.
        injection Hrun as <- <-.
        destruct (IH cs tr eq_refl) as [[rest' Hpre] Hhigh'].
        apply Rltb_false_iff in Hscore. split.
        -- exists rest'. simpl. now rewrite <- Hpre.
        -- intros [|k] cand Hk Hhigh.
           ++ simpl in Hk. injection Hk as <-. lra.
           ++ simpl in Hk.
              destruct (Hhigh' k cand Hk Hhigh)
                as (Hlast & before & Htried & Hcand & Hlow).
              split; [simpl; now rewrite Hlast|].
              exists (eps :: before). repeat split.
              ** simpl. now rewrite Htried.
              ** exact Hcand.
              ** intros eps' cand' [<-|Hin] Hev'.
                 --- rewrite Hev in Hev'. injection Hev' as <-. exact Hscore.
                 --- eapply Hlow; eauto.
    + destruct (tryEpsilons approximatePolygon o imageArea c rest)
        as [cs tr] eqn:Hrest.
      injection Hrun as <- <-.
      destruct (IH cs tr eq_refl) as [[rest' Hpre] Hhigh'].
      split.
      * exists rest'. simpl. now rewrite <- Hpre.
      * intros k cand Hk Hhigh.
        destruct (Hhigh' k cand Hk Hhigh)
          as (Hlast & before & Htried & Hcand & Hlow).
        split; [exact Hlast|].
        exists (eps :: before). repeat split.
        -- simpl. now rewrite Htried.
        -- exact Hcand.
        -- intros eps' cand' [<-|Hin] Hev'.
           ++ rewrite Hev in Hev'. discriminate.
           ++ eapply Hlow; eauto.
Qed.


(** What the loop pushes and where it stops: the candidates are the
    results of the epsilons tried, in order, none left out, and an epsilon
    of the list is left untried only after a candidate scoring above
    0.5. *)
Lemma tryEpsilons_emitted
      (approximatePolygon : list point -> R -> option (list point))
      (o : options) (imageArea : R) (c : contour) (epsilons : list R) :
  forall cands tried,
    tryEpsilons approximatePolygon o imageArea c epsilons = (cands, tried) ->
    cands
    = flat_map (fun eps =>
                  match evalEpsilon approximatePolygon o imageArea c eps with
                  | Some cand => [cand]
                  | None => []
                  end) tried
    /\ exists rest,
        epsilons = tried ++ rest
        /\ (rest <> [] ->
            exists before eps cand,
              tried = before ++ [eps]
              /\ evalEpsilon approximatePolygon o imageArea c eps
                 = Some cand
              /\ 0.5 < cand_score cand).
Proof.
  induction epsilons as [|eps rest IH]; intros cands tried Hrun.
  - simpl in Hrun. injection Hrun as <- <-. split; [reflexivity|].
    exists []. split; [reflexivity|]. intro Hne. now contradiction Hne.
  - simpl in Hrun.
    destruct (evalEpsilon approximatePolygon o imageArea c eps)
      as [cand0|] eqn:Hev.
    + destruct (Rltb 0.5 (cand_score cand0)) eqn:Hscore.
      * injection Hrun as <- <-. split.
        -- simpl. now rewrite Hev.
        -- exists rest. split; [reflexivity|]. intros _.
           exists [], eps, cand0. repeat split; [exact Hev|].
           now apply Rltb_true_iff.
      * destruct (tryEpsilons approximatePolygon o imageArea c rest)
          as [cs tr] eqn:Hrest.
        injection Hrun as <- <-.
        destruct (IH cs tr eq_refl) as (Hcs & rest' & Hpre & Hstop).
        split.
        -- simpl. rewrite Hev. simpl. now rewrite <- Hcs.
        -- exists rest'. split; [simpl; now rewrite <- Hpre|].
           intro Hne. destruct (Hstop Hne) as (b & e & cd & Htr & He & Hs).
           exists (eps :: b), e, cd. repeat split; try assumption.
           simpl. now rewrite Htr.
    + destruct (tryEpsilons approximatePolygon o imageArea c rest)
        as [cs tr] eqn:Hrest.
      injection Hrun as <- <-.
      destruct (IH cs tr eq_refl) as (Hcs & rest' & Hpre & Hstop).
      split.
      * simpl. rewrite Hev. simpl. exact Hcs.
      * exists rest'. split; [simpl; now rewrite <- Hpre|].
        intro Hne. destruct (Hstop Hne) as (b & e & cd & Htr & He & Hs).
        exists (eps :: b), e, cd. repeat split; try assumption.
        simpl. now rewrite Htr.
Qed.

(** C6 (as amended).  For every contour the epsilons are tried in list
    order.  Every epsilon tried whose approximation passes the checks
    pushes its candidate, whatever its score: the candidates pushed are
    exactly the results of the epsilons tried, in order.  The loop stops
    right after pushing a candidate whose score exceeds 0.5 and at no
    other point: the epsilons tried are an initial segment of the list,
    the whole list unless the last one tried pushed such a candidate.
    Hence at most one candidate of a contour scores above 0.5, it is the
    last one pushed, and it belongs to the first epsilon whose candidate
    passes the checks with a score above 0.5; candidates pushed before it
    score at most 0.5.  It need not be the best one: an untried later
    epsilon can score higher. *)
Theorem epsilon_early_exit :
  (forall approximatePolygon o imageArea c epsilons cands tried,
      tryEpsilons approximatePolygon o imageArea c epsilons = (cands, tried) ->
      (exists rest,
          epsilons = tried ++ rest
          /\ (rest <> [] ->
              exists before eps cand,
                tried = before ++ [eps]
                /\ evalEpsilon approximatePolygon o imageArea c eps
                   = Some cand
                /\ 0.5 < cand_score cand))
      /\ cands
         = flat_map (fun eps =>
                       match evalEpsilon approximatePolygon o imageArea c eps
                       with
                       | Some cand => [cand]
                       | None => []
                       end) tried
      /\ ((forall cand, In cand cands -> cand_score cand <= 0.5) ->
          tried = epsilons)
      /\ (forall k cand,
             nth_error cands k = Some cand ->
             0.5 < cand_score cand ->
             S k = length cands
             /\ exists before,
                 tried = before ++ [cand_epsilon cand]
                 /\ evalEpsilon approximatePolygon o imageArea c
                                (cand_epsilon cand) = Some cand
                 /\ forall eps' cand',
                     In eps' before ->
                     evalEpsilon approximatePolygon o imageArea c eps'
                     = Some cand' ->
                     cand_score cand' <= 0.5)
      /\ (forall j k cj ck,
             nth_error cands j = Some cj -> nth_error cands k = Some ck ->
             0.5 < cand_score cj -> 0.5 < cand_score ck -> j = k))
  /\ (exists approximatePolygon o imageArea c epsilons first later better,
         tryEpsilons approximatePolygon o imageArea c epsilons
         = ([first], [cand_epsilon first])
         /\ 0.5 < cand_score first
         /\ In later epsilons
         /\ evalEpsilon approximatePolygon o imageArea c later = Some better
         /\ cand_score first < cand_score better).
Proof.
  split.
  - intros ap o imageArea c epsilons cands tried Hrun.
    destruct (tryEpsilons_shape ap o imageArea c epsilons cands tried Hrun)
      as [_ Hhigh].
    destruct (tryEpsilons_emitted ap o imageArea c epsilons cands tried Hrun)
      as (Hcands & rest & Hpre & Hstop).
    split; [exists rest; split; assumption|].
    split; [exact Hcands|].
    split; [|split; [exact Hhigh|]].
    + intro Hlow. destruct rest as [|e rest'].
      * now rewrite app_nil_r in Hpre.
      * exfalso.
        destruct (Hstop ltac:(discriminate)) as (b & eps & cd & Htr & He & Hs).
        assert (Hin : In cd cands).
        { rewrite Hcands, Htr. apply in_flat_map. exists eps. split.
          - apply in_or_app. right. now left.
          - rewrite He. now left. }
        specialize (Hlow cd Hin). lra.
    + intros j k cj ck Hj Hk Hsj Hsk.
      destruct (Hhigh j cj Hj Hsj) as [Hlj _].
      destruct (Hhigh k ck Hk Hsk) as [Hlk _].
      lia.
  - exists goodThenBetter, twoEpsilons, (10 * 10), sheet, [0.01; 0.02],
      (squareCandidate 8 0.01 0.4 0.6), 0.02,
      (squareCandidate 9 0.02 0.4 0.6).
    repeat split.
    + exact tryEpsilons_goodThenBetter.
    + simpl. lra.
    + simpl. auto.
    + exact evalEpsilon_better.
    + simpl. lra.
Qed.

Lemma epsilon_early_exit_witness :
  [squareCandidate 5 0.01 0.9 0.1; squareCandidate 9 0.02 0.9 0.1]
  = flat_map (fun eps =>
                match evalEpsilon coarseThenFine areaHeavy (10 * 10) sheet eps
                with
                | Some cand => [cand]
                | None => []
                end) [0.01; 0.02]
  /\ S 1 = length [squareCandidate 5 0.01 0.9 0.1;
                   squareCandidate 9 0.02 0.9 0.1]
  /\ exists before,
      [0.01; 0.02] = before ++ [cand_epsilon (squareCandidate 9 0.02 0.9 0.1)]
      /\ evalEpsilon coarseThenFine areaHeavy (10 * 10) sheet
                     (cand_epsilon (squareCandidate 9 0.02 0.9 0.1))
         = Some (squareCandidate 9 0.02 0.9 0.1)
      /\ forall eps' cand',
          In eps' before ->
          evalEpsilon coarseThenFine areaHeavy (10 * 10) sheet eps'
          = Some cand' ->
          cand_score cand' <= 0.5.
Proof.
  destruct (proj1 epsilon_early_exit coarseThenFine areaHeavy (10 * 10)
              sheet [0.01; 0.02] _ _ tryEpsilons_coarseThenFine)
    as (_ & Hcands & _ & Hhigh & _).
  split; [exact Hcands|].
  apply (Hhigh 1%nat (squareCandidate 9 0.02 0.9 0.1) eq_refl).
  simpl. lra.
Defined.

(** C6, as worded: the candidate scoring above 0.5 would belong to the
    first admissible epsilon.  With weights 0.9 / 0.1 in a 10x10 image,
    the first epsilon yields a 5x5 square that passes every check and is
    pushed with score 0.325; the loop goes on and the second epsilon
    yields the 9x9 square with score 0.829. *)
Lemma first_admissible_counterexample :
  tryEpsilons coarseThenFine areaHeavy (10 * 10) sheet [0.01; 0.02]
  = ([squareCandidate 5 0.01 0.9 0.1; squareCandidate 9 0.02 0.9 0.1],
     [0.01; 0.02])
  /\ evalEpsilon coarseThenFine areaHeavy (10 * 10) sheet 0.01
     = Some (squareCandidate 5 0.01 0.9 0.1)
  /\ cand_score (squareCandidate 5 0.01 0.9 0.1) <= 0.5
  /\ 0.5 < cand_score (squareCandidate 9 0.02 0.9 0.1)
  /\ cand_epsilon (squareCandidate 9 0.02 0.9 0.1) = 0.02
  /\ ~ (forall approximatePolygon o imageArea c epsilons cands tried
               cand before,
           tryEpsilons approximatePolygon o imageArea c epsilons
           = (cands, tried) ->
           In cand cands ->
           0.5 < cand_score cand ->
           tried = before ++ [cand_epsilon cand] ->
           forall eps', In eps' before ->
                        evalEpsilon approximatePolygon o imageArea c eps'
                        = None).
Proof.
  split; [exact tryEpsilons_coarseThenFine|].
  split; [exact evalEpsilon_coarse|].
  split; [simpl; lra|]. split; [simpl; lra|]. split; [reflexivity|].
  intro Hclaim.
  specialize (Hclaim coarseThenFine areaHeavy (10 * 10) sheet [0.01; 0.02]
                _ _ (squareCandidate 9 0.02 0.9 0.1) [0.01]
                tryEpsilons_coarseThenFine).
  assert (Hnone : evalEpsilon coarseThenFine areaHeavy (10 * 10) sheet 0.01
                  = None).
  { apply Hclaim.
    - simpl. auto.
    - simpl. lra.
    - reflexivity.
    - simpl. auto. }
  rewrite evalEpsilon_coarse in Hnone. discriminate.
Qed.

(** *** Aspect ratio of a quadrilateral of height zero *)

Lemma infinity_above_finite (minAspect : jsnum) (r : R) :
  jslt Infinity minAspect || jsgt Infinity (Fin r) = true.
Proof. reflexivity. Qed.

(** C7 (as amended).  A quadrilateral whose mean of the second and fourth
    edge lengths is zero gets the aspect ratio [Infinity]; this lies above
    every finite [maxAspectRatio], so for every finite upper bound (the
    default 3.0 included) the aspect-ratio check rejects it and the filter
    pushes no candidate for it. *)
Theorem zero_height_rejected :
  forall approximatePolygon o imageArea c eps approx maxFinite,
    approximatePolygon (points c) eps = Some approx ->
    length approx = 4%nat ->
    quadHeight approx = 0 ->
    orDefault (maxAspectRatio o) (Fin 3.0) = Fin maxFinite ->
    quadAspectRatio approx = Infinity
    /\ (forall minAspect,
           jslt (quadAspectRatio approx) minAspect
           || jsgt (quadAspectRatio approx) (Fin maxFinite) = true)
    /\ evalEpsilon approximatePolygon o imageArea c eps = None.
Proof.
  intros ap o imageArea c eps approx maxFinite Hap Hlen Hheight Hmax.
  assert (Haspect : quadAspectRatio approx = Infinity).
  { unfold quadAspectRatio. rewrite Hlen. simpl negb. cbv iota zeta.
    now rewrite Hheight, Reqb_refl. }
  split; [exact Haspect|]. split.
  - intro minAspect. rewrite Haspect. apply infinity_above_finite.
  - unfold evalEpsilon. cbv zeta. rewrite Hap, Hlen. simpl negb. cbv iota.
    rewrite Haspect, Hmax, infinity_above_finite.
    repeat match goal with
           | |- (if ?b then None else _) = None => destruct b; [reflexivity|]
           end.
    reflexivity.
Qed.

Lemma zero_height_rejected_witness :
  quadAspectRatio flatQuad = Infinity
  /\ evalEpsilon alwaysFlat noOptions (10 * 10) sheet 0.02 = None.
Proof.
  destruct (zero_height_rejected alwaysFlat noOptions (10 * 10) sheet 0.02
              flatQuad 3.0) as (Ha & _ & Hnone).
  - reflexivity.
  - reflexivity.
  - exact flatQuad_height.
  - reflexivity.
  - exact (conj Ha Hnone).
Defined.

Lemma flatQuad_area : contourArea flatQuad = 0.
Proof.
  unfold contourArea, flatQuad. simpl.
  replace (0 + 0 * 0 - 1 * 0 + 1 * 0 - 1 * 0 + 1 * 0 - 0 * 0 + 0 * 0 - 0 * 0)
    with 0 by ring.
  rewrite Rabs_R0. lra.
Qed.

Lemma flatQuad_convex : isConvex flatQuad = true.
Proof.
  unfold isConvex. change (length flatQuad) with 4%nat. simpl Nat.ltb.
  cbv iota. apply isConvexLoop_nonneg; [|now left].
  intros i Hi. simpl in Hi.
  repeat (destruct Hi as [<-|Hi]; [unfold crossAt; simpl; lra|]).
  contradiction.
Qed.

Lemma flatQuad_angle (i : nat) : (i < 4)%nat -> angleAt flatQuad 4 i = 0.
Proof.
  intro Hi. assert (Hcases : (i = 0 \/ i = 1 \/ i = 2 \/ i = 3)%nat) by lia.
  destruct Hcases as [->|[->|[->| ->]]]; unfold angleAt; simpl.
  - apply AngleFacts.angleBetween_coincident_prev.
  - apply AngleFacts.angleBetween_coincident_next.
  - apply AngleFacts.angleBetween_coincident_prev.
  - apply AngleFacts.angleBetween_coincident_next.
Qed.

Lemma flatQuad_reasonable : hasReasonableAngles flatQuad 0 120 = true.
Proof.
  unfold hasReasonableAngles. change (length flatQuad) with 4%nat.
  simpl Nat.ltb. cbv iota zeta. apply forallb_forall. intros i Hi.
  apply in_seq in Hi. rewrite flatQuad_angle by lia.
  apply negb_true_iff, orb_false_iff.
  split; apply Rltb_false_iff; lra.
Qed.

(** C7, as worded: the degenerate result would fall outside the interval
    for every [maxAspectRatio].  With [maxAspectRatio = Infinity] the
    result is not above the bound: the aspect-ratio check lets the folded
    quadrilateral through, and with no lower bound on area and angle the
    filter pushes it as a candidate. *)
Lemma zero_height_infinite_bound_counterexample :
  length flatQuad = 4%nat
  /\ quadHeight flatQuad = 0
  /\ jslt (quadAspectRatio flatQuad) (Fin 0.3)
     || jsgt (quadAspectRatio flatQuad) Infinity = false
  /\ (exists cand,
         evalEpsilon alwaysFlat permissive (10 * 10) sheet 0.02 = Some cand
         /\ cand_approx cand = flatQuad)
  /\ ~ (forall approx minAspect maxAspect,
           length approx = 4%nat ->
           quadHeight approx = 0 ->
           jslt (quadAspectRatio approx) minAspect
           || jsgt (quadAspectRatio approx) maxAspect = true).
Proof.
  split; [reflexivity|]. split; [exact flatQuad_height|].
  assert (Hcheck : jslt (quadAspectRatio flatQuad) (Fin 0.3)
                   || jsgt (quadAspectRatio flatQuad) Infinity = false)
    by (rewrite flatQuad_aspect; reflexivity).
  split; [exact Hcheck|]. split.
  - unfold evalEpsilon, alwaysFlat. cbv zeta.
    change (length flatQuad) with 4%nat. simpl negb. cbv iota.
    simpl orDefault.
    rewrite flatQuad_area, flatQuad_convex, flatQuad_reasonable, Hcheck.
    assert (H1 : Rltb 0 (10 * 10 * 0) = false)
      by (apply Rltb_false_iff; lra).
    assert (H2 : Rltb (10 * 10 * 0.98) 0 = false)
      by (apply Rltb_false_iff; lra).
    rewrite H1, H2. simpl. eexists. split; reflexivity.
  - intro Hclaim.
    specialize (Hclaim flatQuad (Fin 0.3) Infinity eq_refl flatQuad_height).
    rewrite Hcheck in Hclaim. discriminate.
Qed.

(** *** Composite score *)

(** C9 (as amended).  Over the reals, every candidate the filter pushes for an image
    of non-zero area has score
    [areaWeight * (area / imageArea) + angleWeight * angleScore], and two
    candidates of the same image (from the same or from two contour
    lists) with equal angle scores differ in score by exactly
    [areaWeight * (area1 - area2) / imageArea]. *)
Theorem score_linear_in_area :
  forall approximatePolygon o imageWidth imageHeight contours1 contours2
         c1 c2,
    imageWidth * imageHeight <> 0 ->
    In c1 (collectCandidates approximatePolygon o imageWidth imageHeight
                             contours1) ->
    In c2 (collectCandidates approximatePolygon o imageWidth imageHeight
                             contours2) ->
    cand_score c1
    = orDefault (areaWeight o) 0.4
      * (cand_area c1 / (imageWidth * imageHeight))
      + orDefault (angleWeight o) 0.6 * cand_angleScore c1
    /\ cand_score c2
       = orDefault (areaWeight o) 0.4
         * (cand_area c2 / (imageWidth * imageHeight))
         + orDefault (angleWeight o) 0.6 * cand_angleScore c2
    /\ (cand_angleScore c1 = cand_angleScore c2 ->
        cand_score c1 - cand_score c2
        = orDefault (areaWeight o) 0.4 * (cand_area c1 - cand_area c2)
          / (imageWidth * imageHeight)).
Proof.
  intros ap o W H contours1 contours2 c1 c2 Harea H1 H2.
  apply collectCandidates_In in H1, H2.
  destruct H1 as (k1 & e1 & _ & A1). destruct H2 as (k2 & e2 & _ & A2).
  pose proof (adm_score _ _ _ _ _ _ A1) as S1.
  pose proof (adm_score _ _ _ _ _ _ A2) as S2.
  repeat split; [exact S1 | exact S2 |].
  intro Hangle. rewrite S1, S2, Hangle. unfold Rdiv. ring.
Qed.

Lemma score_linear_in_area_witness :
  cand_score (squareCandidate 9 0.02 0.9 0.1)
  - cand_score (squareCandidate 5 0.01 0.9 0.1)
  = orDefault (areaWeight areaHeavy) 0.4
    * (cand_area (squareCandidate 9 0.02 0.9 0.1)
       - cand_area (squareCandidate 5 0.01 0.9 0.1))
    / (10 * 10).
Proof.
  refine (proj2 (proj2 (score_linear_in_area coarseThenFine areaHeavy 10 10
                          [sheet] [sheet] (squareCandidate 9 0.02 0.9 0.1)
                          (squareCandidate 5 0.01 0.9 0.1) _ _ _)) _).
  - lra.
  - rewrite collectCandidates_coarseThenFine. simpl. auto.
  - rewrite collectCandidates_coarseThenFine. simpl. auto.
  - reflexivity.
Defined.

(** C9, as worded: the scores of two candidates with equal angle scores
    would differ by exactly [areaWeight * delta / imageArea].  The code
    computes in doubles.  With the default weights 0.4 and 0.6 in a 10x10
    image, the 9x9 and the 5x5 square (angle score 1) score 0.924 and
    0.7; the difference of these two doubles is 0.2240000000000001,
    whereas [0.4 * 56 / 100] is 0.22400000000000003 in doubles, in either
    order of evaluation, and a third number again in exact arithmetic. *)
Lemma score_rounding_counterexample :
  let areaWeight := Doubles.roundDouble (4 # 10) in
  let angleWeight := Doubles.roundDouble (6 # 10) in
  let score1 := Doubles.scoreDouble areaWeight angleWeight 81 100 1 in
  let score2 := Doubles.scoreDouble areaWeight angleWeight 25 100 1 in
  (score1 == 8322652111380677 # 9007199254740992)%Q
  /\ (score2 == 3152519739159347 # 4503599627370496)%Q
  /\ (Doubles.roundDouble (score1 - score2)
      == 2017612633061983 # 9007199254740992)%Q
  /\ (Doubles.roundDouble (Doubles.roundDouble (areaWeight * (81 - 25)) / 100)
      == 4035225266123965 # 18014398509481984)%Q
  /\ ~ (Doubles.roundDouble (score1 - score2)
        == Doubles.roundDouble
             (Doubles.roundDouble (areaWeight * (81 - 25)) / 100))%Q
  /\ ~ (Doubles.roundDouble (score1 - score2)
        == Doubles.roundDouble
             (areaWeight * Doubles.roundDouble ((81 - 25) / 100)))%Q
  /\ ~ (score1 - score2 == areaWeight * (81 - 25) / 100)%Q.
Proof.
  cbv zeta.
  split; [vm_compute; reflexivity|].
  split; [vm_compute; reflexivity|].
  split; [vm_compute; reflexivity|].
  split; [vm_compute; reflexivity|].
  split; [|split]; intro Heq; vm_compute in Heq; discriminate.
Qed.

End FilterClaims.

(** ** Claims about the driver *)

Module DriverClaims.

Import ContourFilter Driver Examples RectangleFacts SortFacts FilterFacts.
Import DriverShapes ScanExamples HostExamples.

Lemma evalEpsilon_bad_angle
      (approximatePolygon : list point -> R -> option (list point))
      (o : options) (imageArea : R) (c : contour) (eps : R)
      (approx : list point) :
  approximatePolygon (points c) eps = Some approx ->
  hasReasonableAngles approx (orDefault (minAngle o) 60)
                      (orDefault (maxAngle o) 120) = false ->
  evalEpsilon approximatePolygon o imageArea c eps = None.
Proof.
  intros Hap Hbad. unfold evalEpsilon. cbv zeta. rewrite Hap, Hbad.
  simpl negb. cbv iota.
  repeat match goal with
         | |- (if ?b then None else _) = None => destruct b; [reflexivity|]
         end.
  reflexivity.
Qed.

Lemma findDocumentContour_In
      (approximatePolygon : list point -> R -> option (list point))
      (contours : list contour) (imageWidth imageHeight : R) (o : options)
      (f : candidate) :
  findDocumentContour approximatePolygon contours imageWidth imageHeight o
  = Some f ->
  In f (collectCandidates approximatePolygon o imageWidth imageHeight
                          contours)
  /\ forall g,
      In g (collectCandidates approximatePolygon o imageWidth imageHeight
                              contours) ->
      cand_score g <= cand_score f.
Proof.
  unfold findDocumentContour. intro Hhd.
  destruct (sortByScore cand_score
              (collectCandidates approximatePolygon o imageWidth imageHeight
                                 contours)) as [|best rest] eqn:Hsort;
    [discriminate|].
  simpl in Hhd. injection Hhd as ->.
  exact (sortByScore_head cand_score _ f rest Hsort).
Qed.

Lemma filterInto_In
      (approximatePolygon : list point -> R -> option (list point))
      (s : strategy) (contours : list contour) (width height : Z)
      (o : scanOptions) (p : pooled) :
  In p (filterInto approximatePolygon s contours width height o) ->
  strategyOf p = s
  /\ findDocumentContour approximatePolygon contours (IZR width) (IZR height)
                         (filterOptions o) = Some (filtered p).
Proof.
  unfold filterInto. destruct contours as [|c0 rest]; [contradiction|].
  destruct (findDocumentContour approximatePolygon (c0 :: rest) (IZR width)
              (IZR height) (filterOptions o)) as [f|]; [|contradiction].
  intros [<-|[]]. split; reflexivity.
Qed.

Lemma default_angle_range (o : scanOptions) :
  cfField o cf_angleRange = None ->
  minAngle (filterOptions o) = Some 70
  /\ maxAngle (filterOptions o) = Some 110.
Proof.
  intro Hnone. unfold filterOptions, angleRangeAt. simpl.
  rewrite Hnone. split; reflexivity.
Qed.

(** C4.  When the caller leaves [contourFilter.angleRange] unset, the
    driver hands the filter [minAngle = 70] and [maxAngle = 110]: every
    candidate the filter accepts, and so the one it returns to the driver,
    is a quadrilateral whose four interior angles lie in [70, 110], and an
    approximation with an interior angle strictly between 60 and 70 or
    strictly between 110 and 120 is rejected. *)
Theorem default_angle_bounds :
  forall approximatePolygon contours width height o,
    cfField o cf_angleRange = None ->
    minAngle (filterOptions o) = Some 70
    /\ maxAngle (filterOptions o) = Some 110
    /\ (forall cand,
           In cand (collectCandidates approximatePolygon (filterOptions o)
                                      (IZR width) (IZR height) contours) ->
           length (cand_approx cand) = 4%nat
           /\ forall i, (i < 4)%nat ->
                        70 <= angleAt (cand_approx cand) 4 i <= 110)
    /\ (forall s p,
           In p (filterInto approximatePolygon s contours width height o) ->
           In (filtered p)
              (collectCandidates approximatePolygon (filterOptions o)
                                 (IZR width) (IZR height) contours))
    /\ (forall c eps approx i,
           approximatePolygon (points c) eps = Some approx ->
           length approx = 4%nat ->
           (i < 4)%nat ->
           60 < angleAt approx 4 i < 70 \/ 110 < angleAt approx 4 i < 120 ->
           evalEpsilon approximatePolygon (filterOptions o)
                       (IZR width * IZR height) c eps = None).
Proof.
  intros ap contours width height o Hunset.
  destruct (default_angle_range o Hunset) as [Hmin Hmax].
  split; [exact Hmin|]. split; [exact Hmax|]. split; [|split].
  - intros cand Hcand.
    apply collectCandidates_In in Hcand.
    destruct Hcand as (c & eps & _ & Hadm).
    pose proof (adm_corners _ _ _ _ _ _ Hadm) as Hlen.
    pose proof (adm_angles _ _ _ _ _ _ Hadm) as Hangles.
    rewrite Hmin, Hmax in Hangles. simpl orDefault in Hangles.
    apply AngleFacts.hasReasonableAngles_inv in Hangles.
    destruct Hangles as [_ Hall]. rewrite Hlen in Hall.
    split; [exact Hlen | exact Hall].
  - intros s p Hin.
    apply filterInto_In in Hin. destruct Hin as [_ Hfound].
    apply findDocumentContour_In in Hfound. tauto.
  - intros c' eps' approx i Hap Hlen' Hi Hout.
    apply (evalEpsilon_bad_angle ap _ _ c' eps' approx Hap).
    rewrite Hmin, Hmax. simpl orDefault.
    apply (AngleFacts.hasReasonableAngles_out_of_range approx 70 110 i).
    + rewrite Hlen'. exact Hi.
    + rewrite Hlen'. lra.
Qed.

Lemma evalEpsilon_default_square :
  evalEpsilon alwaysSquare (filterOptions defaultScanOptions)
              (IZR 10 * IZR 10) sheet (0.02 * 0.5)
  = Some (squareCandidate 5 (0.02 * 0.5) 0.4 0.6).
Proof.
  apply (evalEpsilon_rectangle alwaysSquare (filterOptions defaultScanOptions)
           (10 * 10) sheet (0.02 * 0.5) 5 5); simpl; try lra.
  - reflexivity.
  - apply Rltb_false_iff. lra.
  - apply Rltb_false_iff. lra.
Qed.

Lemma filterInto_default_square :
  filterInto alwaysSquare Enhanced [sheet] 10 10 defaultScanOptions
  = [mkPooled (squareCandidate 5 (0.02 * 0.5) 0.4 0.6) Enhanced].
Proof.
  unfold filterInto, findDocumentContour, collectCandidates. cbv zeta.
  simpl flat_map. unfold contourCandidates. simpl Nat.ltb. cbv iota.
  change (epsilonsOf (filterOptions defaultScanOptions))
    with [0.02 * 0.5; 0.02 * 0.75; 0.02; 0.02 * 1.5; 0.02 * 2.0].
  simpl tryEpsilons. rewrite evalEpsilon_default_square.
  assert (H : Rltb 0.5 (cand_score (squareCandidate 5 (0.02 * 0.5) 0.4 0.6))
              = true) by (apply Rltb_true_iff; simpl; lra).
  rewrite H. reflexivity.
Qed.

Lemma default_angle_bounds_witness :
  filterInto alwaysSquare Enhanced [sheet] 10 10 defaultScanOptions
  = [mkPooled (squareCandidate 5 (0.02 * 0.5) 0.4 0.6) Enhanced]
  /\ 70 <= angleAt (rectangle 5 5) 4 0 <= 110
  /\ 70 <= angleAt (rectangle 5 5) 4 3 <= 110.
Proof.
  split; [exact filterInto_default_square|].
  assert (Hin : In (mkPooled (squareCandidate 5 (0.02 * 0.5) 0.4 0.6)
                             Enhanced)
                   (filterInto alwaysSquare Enhanced [sheet] 10 10
                               defaultScanOptions)).
  { rewrite filterInto_default_square. simpl. auto. }
  destruct (default_angle_bounds alwaysSquare [sheet] 10 10
              defaultScanOptions eq_refl)
    as (_ & _ & Hangles & Hreturned & _).
  destruct (Hangles _ (Hreturned _ _ Hin)) as [_ Hall].
  split; apply Hall; lia.
Defined.


(** *** Final selection *)

Section Selection.

Variable approximatePolygon : list point -> R -> option (list point).
Variable preprocessForDocumentDetection :
  binary -> Z -> Z -> scanOptions -> option binary.
Variable detectDocumentContour : binary -> R -> Z -> Z -> list contour.
Variable cannyEdgeDetector : binary -> Z -> Z -> R -> R -> completion binary.
Variable findCornerPoints : contour -> option R -> option corners.

Lemma pickDocumentContour_best (st : state) :
  allCandidates st <> [] ->
  exists best rest,
    sortByScore pooledScore (allCandidates st) = best :: rest
    /\ pickDocumentContour st = Some (cand_contour (filtered best))
    /\ In best (allCandidates st)
    /\ forall p, In p (allCandidates st) -> pooledScore p <= pooledScore best.
Proof.
  intro Hne.
  destruct (sortByScore_nonempty pooledScore (allCandidates st) Hne)
    as (best & rest & Hsort).
  exists best, rest. split; [exact Hsort|]. split.
  - unfold pickDocumentContour. rewrite Hsort.
    destruct (allCandidates st); [contradiction | reflexivity].
  - exact (sortByScore_head pooledScore _ best rest Hsort).
Qed.

Lemma pickDocumentContour_empty (st : state) :
  allCandidates st = [] -> pickDocumentContour st = fallbackContour st.
Proof. unfold pickDocumentContour. now intros ->. Qed.

(** The variables after the three strategies, when both edge detections
    return. *)
Lemma runStrategies_returned (gray : binary) (width height : Z)
      (scaleFactor : R) (o : scanOptions) (edges2 edges3 : binary) :
  useFallbackOf o = true ->
  cannyEdgeDetector gray width height (fallbackLow o) (fallbackHigh o)
  = Returned edges2 ->
  cannyEdgeDetector gray width height (orNum (lowThreshold o) 75)
                    (orNum (highThreshold o) 200)
  = Returned edges3 ->
  let st1 :=
    strategyEnhanced approximatePolygon preprocessForDocumentDetection
                     detectDocumentContour gray width height scaleFactor o
                     initialState in
  let contours2 :=
    detectDocumentContour edges2 (minAreaOf o scaleFactor) width height in
  let contours3 :=
    detectDocumentContour edges3 (minAreaOf o scaleFactor) width height in
  runStrategies approximatePolygon preprocessForDocumentDetection
                detectDocumentContour cannyEdgeDetector
                gray width height scaleFactor o
  = ([Ran Enhanced width height; Ran CannyFallback width height;
      Ran CannyDefault width height],
     Returned
       (mkState
          ((allCandidates st1
            ++ filterInto approximatePolygon CannyFallback contours2
                          width height o)
           ++ filterInto approximatePolygon CannyDefault contours3
                         width height o)
          (match hd_error contours2 with
           | Some c => Some c
           | None => hd_error contours3
           end))).
Proof.
  intros Hfb H2 H3. cbv zeta. unfold runStrategies. cbv zeta.
  rewrite Hfb. unfold strategyCanny at 1. rewrite H2.
  unfold strategyCanny. rewrite H3. simpl.
  do 2 f_equal. f_equal.
  assert (Hfb1 : fallbackContour
                   (strategyEnhanced approximatePolygon
                      preprocessForDocumentDetection detectDocumentContour
                      gray width height scaleFactor o initialState) = None).
  { unfold strategyEnhanced.
    destruct (preprocessForDocumentDetection gray width height o);
      reflexivity. }
  rewrite Hfb1.
  destruct (detectDocumentContour edges2 (minAreaOf o scaleFactor)
              width height) as [|c2 r2]; simpl.
  - destruct (detectDocumentContour edges3 (minAreaOf o scaleFactor)
                width height); reflexivity.
  - destruct (detectDocumentContour edges3 (minAreaOf o scaleFactor)
                width height); reflexivity.
Qed.

End Selection.

Lemma scalePoint_unit (p : point) : scalePoint 1 p = p.
Proof. destruct p as [x y]. unfold scalePoint. simpl. f_equal; ring. Qed.

(** What [finish] makes of the selection. *)
Lemma finish_cases
      (findCornerPoints : contour -> option R -> option corners)
      (selected : option contour) (scaleFactor : R) (o : scanOptions) :
  match selected with
  | None => finish findCornerPoints selected scaleFactor o = noDocument
  | Some c =>
      match findCornerPoints c (opt_epsilon o) with
      | None => finish findCornerPoints selected scaleFactor o = noCorners
      | Some cp =>
          finish findCornerPoints selected scaleFactor o
          = mkDetection true None (Some c)
                        (Some (scaleCorners scaleFactor cp))
      end
  end.
Proof.
  unfold finish. destruct selected as [c|]; [|reflexivity].
  destruct (findCornerPoints c (opt_epsilon o)) as [cp|]; [|reflexivity].
  destruct (Reqb scaleFactor 1) eqn:Hone; simpl; [|reflexivity].
  apply Reqb_true_iff in Hone. subst. do 2 f_equal.
  destruct cp. unfold scaleCorners. simpl. now rewrite !scalePoint_unit.
Qed.

Lemma filterInto_square (s : strategy) :
  filterInto alwaysSquare s [sheet] 10 10 defaultScanOptions
  = [mkPooled (squareCandidate 5 (0.02 * 0.5) 0.4 0.6) s].
Proof.
  pose proof filterInto_default_square as He.
  unfold filterInto in *.
  destruct (findDocumentContour alwaysSquare [sheet] (IZR 10) (IZR 10)
              (filterOptions defaultScanOptions)) as [f|];
    [|discriminate].
  injection He as ->. reflexivity.
Qed.

(** The three strategies on a 10x10 image in which every tracing finds
    the sheet: each contributes the 5x5 square. *)
Lemma runStrategies_sheet :
  runStrategies alwaysSquare blankPreprocess sheetTracer blankCanny
                [] 10 10 1 defaultScanOptions
  = ([Ran Enhanced 10 10; Ran CannyFallback 10 10; Ran CannyDefault 10 10],
     Returned
       (mkState
          [mkPooled (squareCandidate 5 (0.02 * 0.5) 0.4 0.6) Enhanced;
           mkPooled (squareCandidate 5 (0.02 * 0.5) 0.4 0.6) CannyFallback;
           mkPooled (squareCandidate 5 (0.02 * 0.5) 0.4 0.6) CannyDefault]
          (Some sheet))).
Proof.
  rewrite (runStrategies_returned alwaysSquare blankPreprocess sheetTracer
             blankCanny [] 10 10 1 defaultScanOptions [] [] eq_refl eq_refl
             eq_refl).
  unfold strategyEnhanced, blankPreprocess, sheetTracer.
  cbn [allCandidates initialState app hd_error].
  rewrite !filterInto_square. reflexivity.
Qed.

Lemma pick_sheet :
  pickDocumentContour
    (mkState
       [mkPooled (squareCandidate 5 (0.02 * 0.5) 0.4 0.6) Enhanced;
        mkPooled (squareCandidate 5 (0.02 * 0.5) 0.4 0.6) CannyFallback;
        mkPooled (squareCandidate 5 (0.02 * 0.5) 0.4 0.6) CannyDefault]
       (Some sheet))
  = Some sheet.
Proof.
  unfold pickDocumentContour. cbn [allCandidates].
  unfold sortByScore. cbn [fold_right insertByScore].
  assert (Hsame : Rltb (pooledScore
                          (mkPooled (squareCandidate 5 (0.02 * 0.5) 0.4 0.6)
                                    CannyFallback))
                       (pooledScore
                          (mkPooled (squareCandidate 5 (0.02 * 0.5) 0.4 0.6)
                                    CannyDefault)) = false)
    by (apply Rltb_false_iff; unfold pooledScore; simpl; lra).
  assert (Hsame' : Rltb (pooledScore
                           (mkPooled (squareCandidate 5 (0.02 * 0.5) 0.4 0.6)
                                     Enhanced))
                        (pooledScore
                           (mkPooled (squareCandidate 5 (0.02 * 0.5) 0.4 0.6)
                                     CannyFallback)) = false)
    by (apply Rltb_false_iff; unfold pooledScore; simpl; lra).
  rewrite Hsame. cbn [insertByScore]. rewrite Hsame'. reflexivity.
Qed.





(** *** What the scan checks at its boundary *)

Lemma runStrategies_starts_enhanced
      (approximatePolygon : list point -> R -> option (list point))
      (preprocessForDocumentDetection :
         binary -> Z -> Z -> scanOptions -> option binary)
      (detectDocumentContour : binary -> R -> Z -> Z -> list contour)
      (cannyEdgeDetector : binary -> Z -> Z -> R -> R -> completion binary)
      (gray : binary) (width height : Z) (scaleFactor : R) (o : scanOptions) :
  exists ev r,
    runStrategies approximatePolygon preprocessForDocumentDetection
                  detectDocumentContour cannyEdgeDetector
                  gray width height scaleFactor o
    = (Ran Enhanced width height :: ev, r)
    /\ (useFallbackOf o = true ->
        exists ev', ev = Ran CannyFallback width height :: ev').
Proof.
  unfold runStrategies. cbv zeta.
  destruct (useFallbackOf o).
  - destruct (strategyCanny _ _ _ _ _ _ _ _ _ _ _ _) as [st2|msg].
    + eexists _, _. split; [reflexivity|]. intros _. eexists. reflexivity.
    + eexists _, _. split; [reflexivity|]. intros _. eexists. reflexivity.
  - eexists _, _. split; [reflexivity|]. discriminate.
Qed.

Lemma targetDimensions_small (img : imageSource) (maxDimension : Z) :
  (Z.max (originalWidth img) (originalHeight img) <= maxDimension)%Z ->
  targetWidth (targetDimensions img maxDimension) = originalWidth img
  /\ targetHeight (targetDimensions img maxDimension) = originalHeight img.
Proof.
  intro Hle. unfold targetDimensions. cbv zeta.
  apply Z.leb_le in Hle. rewrite Hle. split; reflexivity.
Qed.

(** The strategies a detection starts, in order. *)
Lemma runStrategies_events
      (approximatePolygon : list point -> R -> option (list point))
      (preprocessForDocumentDetection :
         binary -> Z -> Z -> scanOptions -> option binary)
      (detectDocumentContour : binary -> R -> Z -> Z -> list contour)
      (cannyEdgeDetector : binary -> Z -> Z -> R -> R -> completion binary)
      (gray : binary) (width height : Z) (scaleFactor : R) (o : scanOptions) :
  fst (runStrategies approximatePolygon preprocessForDocumentDetection
                     detectDocumentContour cannyEdgeDetector
                     gray width height scaleFactor o)
  = Ran Enhanced width height
    :: (if useFallbackOf o then
          Ran CannyFallback width height
          :: match cannyEdgeDetector gray width height (fallbackLow o)
                                     (fallbackHigh o) with
             | Returned _ => [Ran CannyDefault width height]
             | Threw _ => []
             end
        else []).
Proof.
  unfold runStrategies. cbv zeta.
  destruct (useFallbackOf o); [|reflexivity].
  unfold strategyCanny at 1.
  destruct (cannyEdgeDetector gray width height (fallbackLow o)
              (fallbackHigh o)) as [edges|msg]; reflexivity.
Qed.

Lemma detectDocumentInternal_events
      (approximatePolygon : list point -> R -> option (list point))
      (preprocessForDocumentDetection :
         binary -> Z -> Z -> scanOptions -> option binary)
      (detectDocumentContour : binary -> R -> Z -> Z -> list contour)
      (cannyEdgeDetector : binary -> Z -> Z -> R -> R -> completion binary)
      (findCornerPoints : contour -> option R -> option corners)
      (gray : binary) (width height : Z) (scaleFactor : R) (o : scanOptions) :
  fst (detectDocumentInternal approximatePolygon
         preprocessForDocumentDetection detectDocumentContour
         cannyEdgeDetector findCornerPoints gray width height scaleFactor o)
  = fst (runStrategies approximatePolygon preprocessForDocumentDetection
                       detectDocumentContour cannyEdgeDetector
                       gray width height scaleFactor o).
Proof.
  unfold detectDocumentInternal.
  destruct (runStrategies _ _ _ _ _ _ _ _ _) as [ev [st|msg]]; reflexivity.
Qed.

(** C2 (as amended).  The only input the scan rejects by a check of its
    own is a missing image: it throws "No image provided" and starts no
    strategy.  There is no check on the dimensions.  When the host canvas
    or the enhancement throws, the scan throws the same and starts no
    strategy.  Whenever they hand back a grayscale buffer, the Enhanced
    strategy is started on the target dimensions; when [useFallback]
    holds Canny-Fallback is started after it, and Canny-Default after
    that exactly when the first edge detection returns.  For an image
    whose larger side does not exceed the processing limit the target
    dimensions are the original ones, below 1 or not. *)
Theorem scan_boundary_check :
  forall approximatePolygon preprocessForDocumentDetection
         detectDocumentContour cannyEdgeDetector findCornerPoints rasterize o,
    scanDocument approximatePolygon preprocessForDocumentDetection
                 detectDocumentContour cannyEdgeDetector findCornerPoints
                 rasterize None o
    = ([], Threw noImageMessage)
    /\ forall img,
        let maxDimension := orZ (maxProcessingDimension o) 2000 in
        let d := targetDimensions img maxDimension in
        let mode :=
          match preEnhance o with Some m => m | None => Unsharp end in
        let scan :=
          scanDocument approximatePolygon preprocessForDocumentDetection
                       detectDocumentContour cannyEdgeDetector
                       findCornerPoints rasterize (Some img) o in
        (forall msg,
            rasterize img d mode = Threw msg -> scan = ([], Threw msg))
        /\ (forall gray,
               rasterize img d mode = Returned gray ->
               fst scan
               = Ran Enhanced (targetWidth d) (targetHeight d)
                 :: (if useFallbackOf o then
                       Ran CannyFallback (targetWidth d) (targetHeight d)
                       :: match cannyEdgeDetector
                                  gray (targetWidth d) (targetHeight d)
                                  (fallbackLow o) (fallbackHigh o) with
                          | Returned _ =>
                              [Ran CannyDefault (targetWidth d)
                                   (targetHeight d)]
                          | Threw _ => []
                          end
                     else []))
        /\ ((Z.max (originalWidth img) (originalHeight img)
             <= maxDimension)%Z ->
            targetWidth d = originalWidth img
            /\ targetHeight d = originalHeight img).
Proof.
  intros ap pre tracer canny corners raster o. split; [reflexivity|].
  intros img maxDimension d mode scan. split; [|split].
  - intros msg Hraster. unfold scan, scanDocument, prepareScaleAndGrayscale.
    cbv zeta. fold maxDimension. fold d. fold mode. now rewrite Hraster.
  - intros gray Hraster.
    assert (Hfst : fst scan
                   = fst (detectDocumentInternal ap pre tracer canny corners
                            gray (targetWidth d) (targetHeight d)
                            (Q2R (scaleFactor d)) o)).
    { unfold scan, scanDocument, prepareScaleAndGrayscale.
      cbv zeta. fold maxDimension. fold d. fold mode. rewrite Hraster.
      cbn [grayscaleData dims].
      destruct (detectDocumentInternal ap pre tracer canny corners gray
                  (targetWidth d) (targetHeight d) (Q2R (scaleFactor d)) o)
        as [ev [det|msg]]; [|reflexivity].
      destruct (success det); reflexivity. }
    rewrite Hfst, detectDocumentInternal_events.
    apply runStrategies_events.
  - apply targetDimensions_small.
Qed.

Lemma thinImage_dimensions :
  targetDimensions thinImage (orZ (maxProcessingDimension limit800) 2000)
  = mkDimensions 0 800
      (scaleFactor (targetDimensions thinImage 800)).
Proof. vm_compute. reflexivity. Qed.

Lemma thinImage_raster :
  canvasRaster thinImage
    (targetDimensions thinImage (orZ (maxProcessingDimension limit800) 2000))
    Unsharp
  = Returned [].
Proof. vm_compute. reflexivity. Qed.

Lemma scan_boundary_check_witness :
  fst (scanDocument alwaysSquare blankPreprocess noContours blankCanny
                    noCornerPoints canvasRaster (Some thinImage) limit800)
  = [Ran Enhanced 0 800; Ran CannyFallback 0 800; Ran CannyDefault 0 800].
Proof.
  pose proof (proj1 (proj2 (proj2 (scan_boundary_check alwaysSquare
                       blankPreprocess noContours blankCanny noCornerPoints
                       canvasRaster limit800) thinImage))
                    [] thinImage_raster) as Hev.
  rewrite thinImage_dimensions in Hev. exact Hev.
Defined.

(** C2, as worded: no strategy would be executed on an image with a side
    below 1.  The scan has no such check, and the image the strategies
    run on is the scaled one: a 1x3000 [ImageData], which the canvas
    reads back without complaint, has target width
    [Math.round(1 * (800 / 3000)) = 0] at a limit of 800, the
    enhancement returns an empty buffer, and the Enhanced strategy is
    started on a 0x800 image; with an edge detector that returns, the
    two Canny strategies follow on the same image before the scan
    reports that no document was detected. *)
Lemma degenerate_target_counterexample :
  ((1 <= originalWidth thinImage)%Z /\ (1 <= originalHeight thinImage)%Z)
  /\ targetWidth (targetDimensions thinImage 800) = 0%Z
  /\ targetHeight (targetDimensions thinImage 800) = 800%Z
  /\ canvasRaster thinImage (targetDimensions thinImage 800) Unsharp
     = Returned []
  /\ scanDocument alwaysSquare blankPreprocess noContours blankCanny
                  noCornerPoints canvasRaster (Some thinImage) limit800
     = ([Ran Enhanced 0 800; Ran CannyFallback 0 800;
         Ran CannyDefault 0 800],
        Returned noDocument)
  /\ ~ (forall approximatePolygon preprocessForDocumentDetection
               detectDocumentContour cannyEdgeDetector findCornerPoints
               rasterize img o s width height,
           In (Ran s width height)
              (fst (scanDocument approximatePolygon
                      preprocessForDocumentDetection detectDocumentContour
                      cannyEdgeDetector findCornerPoints rasterize
                      (Some img) o)) ->
           (1 <= width)%Z /\ (1 <= height)%Z).
Proof.
  split; [split; vm_compute; discriminate|].
  split; [vm_compute; reflexivity|].
  split; [vm_compute; reflexivity|].
  split; [vm_compute; reflexivity|].
  assert (Hscan :
            scanDocument alwaysSquare blankPreprocess noContours blankCanny
                         noCornerPoints canvasRaster (Some thinImage)
                         limit800
            = ([Ran Enhanced 0 800; Ran CannyFallback 0 800;
                Ran CannyDefault 0 800],
               Returned noDocument)).
  { unfold scanDocument, prepareScaleAndGrayscale. cbv zeta.
    change (match preEnhance limit800 with
            | Some m => m
            | None => Unsharp
            end) with Unsharp.
    rewrite thinImage_raster, thinImage_dimensions.
    reflexivity. }
  split; [exact Hscan|].
  intro Hclaim.
  specialize (Hclaim alwaysSquare blankPreprocess noContours blankCanny
                noCornerPoints canvasRaster thinImage limit800
                Enhanced 0%Z 800%Z).
  rewrite Hscan in Hclaim.
  destruct (Hclaim ltac:(simpl; auto)) as [Hw _]. lia.
Qed.

(** A 1x3000 image scaled to the 800-pixel limit reaches the strategies
    with a target width of zero. *)
Lemma thin_image_targets :
  targetWidth (targetDimensions (ImageData 1 3000 []) 800) = 0%Z
  /\ targetHeight (targetDimensions (ImageData 1 3000 []) 800) = 800%Z.
Proof. split; reflexivity. Qed.

End DriverClaims.

(** ** Pixel kernels *)

Module KernelFacts.

Import Kernels.

(** *** Images built by the nested loops *)

Lemma buildImage_length width height f :
  length (buildImage width height f) = (width * height)%nat.
Proof. unfold buildImage. now rewrite length_map, length_seq. Qed.

Lemma index_split (width height idx : nat) :
  (idx < width * height)%nat ->
  (idx / width < height)%nat /\ (idx mod width < width)%nat
  /\ (idx = idx / width * width + idx mod width)%nat.
Proof.
  intro Hidx.
  assert (Hw : width <> 0%nat) by (intros ->; simpl in Hidx; lia).
  split; [|split].
  - apply Nat.Div0.div_lt_upper_bound. lia.
  - now apply Nat.mod_upper_bound.
  - rewrite (Nat.div_mod_eq idx width) at 1. lia.
Qed.

Lemma index_join (width y x : nat) :
  (x < width)%nat ->
  ((y * width + x) / width = y)%nat /\ ((y * width + x) mod width = x)%nat.
Proof.
  intro Hx. split.
  - rewrite Nat.div_add_l by lia. rewrite Nat.div_small by lia. lia.
  - rewrite Nat.add_comm, Nat.Div0.mod_add. now apply Nat.mod_small.
Qed.

Lemma index_bound (width height y x : nat) :
  (y < height)%nat -> (x < width)%nat -> (y * width + x < width * height)%nat.
Proof. intros Hy Hx. nia. Qed.

Lemma buildImage_pixel width height f y x :
  (y < height)%nat -> (x < width)%nat ->
  pixel (buildImage width height f) width y x = f y x.
Proof.
  intros Hy Hx. unfold pixel, buildImage.
  pose proof (index_bound width height y x Hy Hx) as Hidx.
  rewrite (nth_indep _ 0%Z (f (0 / width)%nat (0 mod width)%nat))
    by (now rewrite length_map, length_seq).
  rewrite (map_nth (fun idx => f (idx / width)%nat (idx mod width)%nat)).
  rewrite seq_nth by exact Hidx. simpl.
  destruct (index_join width y x Hx) as [-> ->]. reflexivity.
Qed.

Lemma buildImage_Forall (P : Z -> Prop) width height f :
  (forall y x, (y < height)%nat -> (x < width)%nat -> P (f y x)) ->
  Forall P (buildImage width height f).
Proof.
  intro Hf. unfold buildImage. apply Forall_map, Forall_forall.
  intros idx Hin. apply in_seq in Hin.
  destruct (index_split width height idx) as (Hy & Hx & _); [lia|].
  now apply Hf.
Qed.

(** Reading every pixel of a buffer back gives the buffer. *)
Lemma buildImage_pixel_id img width height :
  length img = (width * height)%nat ->
  buildImage width height (pixel img width) = img.
Proof.
  intro Hlen. apply (nth_ext _ _ 0%Z 0%Z).
  - now rewrite buildImage_length.
  - intros idx Hidx. rewrite buildImage_length in Hidx.
    destruct (index_split width height idx Hidx) as (Hy & Hx & Hsplit).
    rewrite Hsplit at 1.
    change (pixel (buildImage width height (pixel img width)) width
                  (idx / width) (idx mod width) = nth idx img 0%Z).
    rewrite buildImage_pixel by assumption.
    unfold pixel. now rewrite <- Hsplit.
Qed.

Lemma buildImage_ext width height f g :
  (forall y x, (y < height)%nat -> (x < width)%nat -> f y x = g y x) ->
  buildImage width height f = buildImage width height g.
Proof.
  intro Hfg. unfold buildImage. apply map_ext_in. intros idx Hin.
  apply in_seq in Hin.
  destruct (index_split width height idx) as (Hy & Hx & _); [lia|].
  now apply Hfg.
Qed.

(** *** Window coordinates *)

Lemma clampCoord_lt limit v : (0 < limit)%nat -> (clampCoord limit v < limit)%nat.
Proof. unfold clampCoord. lia. Qed.

Lemma clampCoord_zero limit x :
  (x < limit)%nat -> clampCoord limit (Z.of_nat x + 0) = x.
Proof. unfold clampCoord. lia. Qed.

Lemma offsets_In halfK k :
  In k (offsets halfK) <-> (- Z.of_nat halfK <= k <= Z.of_nat halfK)%Z.
Proof.
  unfold offsets. rewrite in_map_iff. split.
  - intros (j & <- & Hj). apply in_seq in Hj. lia.
  - intro Hk. exists (Z.to_nat (k + Z.of_nat halfK)). split; [lia|].
    apply in_seq. lia.
Qed.

Lemma offsets_length halfK : length (offsets halfK) = (2 * halfK + 1)%nat.
Proof. unfold offsets. now rewrite length_map, length_seq. Qed.

Lemma offsets_zero : offsets 0 = [0%Z].
Proof. reflexivity. Qed.

Lemma besideIdx_lt width height y x k :
  (y < height)%nat -> (x < width)%nat ->
  (besideIdx width y x k < width * height)%nat.
Proof.
  intros Hy Hx. unfold besideIdx. apply index_bound; [exact Hy|].
  apply clampCoord_lt. lia.
Qed.

Lemma belowIdx_lt width height y x k :
  (y < height)%nat -> (x < width)%nat ->
  (belowIdx width height y x k < width * height)%nat.
Proof.
  intros Hy Hx. unfold belowIdx. apply index_bound; [|exact Hx].
  apply clampCoord_lt. lia.
Qed.

(** Stepping [j] away and clamping can be undone by a step of the same
    window. *)
Lemma clamp_return limit halfK y j :
  (y < limit)%nat -> In j (offsets halfK) ->
  exists j', In j' (offsets halfK)
             /\ clampCoord limit
                  (Z.of_nat (clampCoord limit (Z.of_nat y + j)) + j') = y.
Proof.
  intros Hy Hj. apply offsets_In in Hj.
  exists (Z.of_nat y - Z.of_nat (clampCoord limit (Z.of_nat y + j)))%Z.
  split.
  - apply offsets_In. unfold clampCoord. lia.
  - unfold clampCoord. lia.
Qed.

Lemma storeClamped_byte z : (0 <= storeClamped z <= 255)%Z.
Proof. destruct z; simpl; lia. Qed.

Lemma storeClamped_id z : (0 <= z <= 255)%Z -> storeClamped (Some z) = z.
Proof. simpl. lia. Qed.

Lemma validImage_nth img width height i :
  validImage img width height -> (i < width * height)%nat ->
  byteAt img i = Some (nth i img 0%Z) /\ (0 <= nth i img 0 <= 255)%Z.
Proof.
  intros [Hlen Hall] Hi. rewrite <- Hlen in Hi. split.
  - unfold byteAt. now apply nth_error_nth'.
  - rewrite Forall_forall in Hall. apply Hall. now apply nth_In.
Qed.


(** *** boxBlurJS *)

Lemma fold_addSample_bounds (src : list Z) (lo hi : Z) (idxOf : Z -> nat)
      (ks : list Z) (s0 : Z) :
  Forall (fun v => (lo <= v <= hi)%Z) src ->
  (forall k, In k ks -> (idxOf k < length src)%nat) ->
  exists s,
    fold_left (fun sum k => addSample src sum (idxOf k)) ks (Some s0)
    = Some s
    /\ (s0 + lo * Z.of_nat (length ks) <= s
        <= s0 + hi * Z.of_nat (length ks))%Z.
Proof.
  intros Hall. revert s0. induction ks as [|k ks IH]; intros s0 Hidx.
  - exists s0. simpl. split; [reflexivity | lia].
  - cbn [fold_left].
    assert (Hk : (idxOf k < length src)%nat) by (apply Hidx; now left).
    assert (Hstep : addSample src (Some s0) (idxOf k)
                    = Some (s0 + nth (idxOf k) src 0)%Z).
    { unfold addSample, byteAt. now rewrite (nth_error_nth' src 0%Z Hk). }
    rewrite Hstep.
    assert (Hv : (lo <= nth (idxOf k) src 0 <= hi)%Z).
    { rewrite Forall_forall in Hall. apply Hall. now apply nth_In. }
    destruct (IH (s0 + nth (idxOf k) src 0)%Z) as (s & Hs & Hb).
    { intros k' Hk'. apply Hidx. now right. }
    exists s. split; [exact Hs|]. simpl length. lia.
Qed.

Lemma roundedMean_bounds (s count lo hi : Z) :
  (0 < count)%Z -> (lo * count <= s <= hi * count)%Z ->
  (lo <= (2 * s + count) / (2 * count) <= hi)%Z.
Proof.
  intros Hc Hs. split.
  - apply Z.div_le_lower_bound; nia.
  - apply Z.lt_succ_r. apply Z.div_lt_upper_bound; nia.
Qed.

Lemma blurAt_bounds (src : list Z) (lo hi : Z) (halfK : nat)
      (idxOf : Z -> nat) :
  (0 <= lo)%Z -> (hi <= 255)%Z ->
  Forall (fun v => (lo <= v <= hi)%Z) src ->
  (forall k, In k (offsets halfK) -> (idxOf k < length src)%nat) ->
  (lo <= blurAt src halfK idxOf <= hi)%Z.
Proof.
  intros Hlo Hhi Hall Hidx. unfold blurAt.
  destruct (fold_addSample_bounds src lo hi idxOf (offsets halfK) 0 Hall Hidx)
    as (s & -> & Hs).
  rewrite offsets_length in Hs. unfold roundedMean, windowCount.
  assert (Hm : (lo <= (2 * s + Z.of_nat (2 * halfK + 1))
                      / (2 * Z.of_nat (2 * halfK + 1)) <= hi)%Z)
    by (apply roundedMean_bounds; lia).
  rewrite storeClamped_id; lia.
Qed.

Lemma boxBlurJS_length input width height kernelSize :
  length (boxBlurJS input width height kernelSize) = (width * height)%nat.
Proof. unfold boxBlurJS. cbv zeta. apply buildImage_length. Qed.

Lemma blurAt_byte src halfK idxOf : (0 <= blurAt src halfK idxOf <= 255)%Z.
Proof. unfold blurAt. apply storeClamped_byte. Qed.

Lemma boxBlurJS_valid input width height kernelSize :
  validImage (boxBlurJS input width height kernelSize) width height.
Proof.
  split; [apply boxBlurJS_length|].
  unfold boxBlurJS. cbv zeta. apply buildImage_Forall.
  intros y x _ _. apply blurAt_byte.
Qed.

Lemma boxBlurJS_between (input : list Z) (width height kernelSize : nat)
      (lo hi : Z) :
  length input = (width * height)%nat ->
  (0 <= lo)%Z -> (hi <= 255)%Z ->
  Forall (fun v => (lo <= v <= hi)%Z) input ->
  length (boxBlurJS input width height kernelSize) = (width * height)%nat
  /\ Forall (fun v => (lo <= v <= hi)%Z)
            (boxBlurJS input width height kernelSize).
Proof.
  intros Hlen Hlo Hhi Hall.
  split; [apply boxBlurJS_length|].
  unfold boxBlurJS. cbv zeta.
  set (temp := buildImage width height
                 (fun y x => blurAt input (halfOf kernelSize)
                                    (besideIdx width y x))).
  assert (Htemp : Forall (fun v => (lo <= v <= hi)%Z) temp).
  { apply buildImage_Forall. intros y x Hy Hx.
    apply blurAt_bounds; try assumption.
    intros k _. rewrite Hlen. now apply besideIdx_lt. }
  apply buildImage_Forall. intros y x Hy Hx.
  apply blurAt_bounds; try assumption.
  intros k _. unfold temp. rewrite buildImage_length.
  now apply belowIdx_lt.
Qed.


(** X1.  The box blur keeps the samples of an image within the range of
    its input: a mean of values between [lo] and [hi], rounded, is between
    [lo] and [hi]. *)
Theorem boxBlurJS_range :
  forall input width height kernelSize lo hi,
    length input = (width * height)%nat ->
    (0 <= lo)%Z -> (hi <= 255)%Z ->
    Forall (fun v => (lo <= v <= hi)%Z) input ->
    length (boxBlurJS input width height kernelSize) = (width * height)%nat
    /\ Forall (fun v => (lo <= v <= hi)%Z)
              (boxBlurJS input width height kernelSize).
Proof.
  intros input width height kernelSize lo hi.
  apply boxBlurJS_between.
Qed.

Lemma boxBlurJS_range_witness :
  Forall (fun v => (10 <= v <= 200)%Z)
         (boxBlurJS [10; 200; 10; 40; 50; 60]%Z 3 2 3).
Proof.
  refine (proj2 (boxBlurJS_range [10; 200; 10; 40; 50; 60]%Z 3 2 3 10 200
                   _ _ _ _)).
  - reflexivity.
  - lia.
  - lia.
  - repeat constructor; lia.
Defined.

(** A flat image is a fixed point of the box blur. *)
Lemma boxBlurJS_flat (c : Z) (width height kernelSize : nat) :
  (0 <= c <= 255)%Z ->
  boxBlurJS (repeat c (width * height)) width height kernelSize
  = repeat c (width * height).
Proof.
  intro Hc.
  destruct (boxBlurJS_between (repeat c (width * height)) width height
              kernelSize c c) as [Hlen Hall]; try lia.
  - apply repeat_length.
  - apply Forall_forall. intros v Hv. apply repeat_spec in Hv. lia.
  - apply (nth_ext _ _ 0%Z 0%Z).
    + now rewrite Hlen, repeat_length.
    + intros i Hi. rewrite nth_repeat_lt by (rewrite <- Hlen; exact Hi).
      rewrite Forall_forall in Hall.
      assert (Hin : In (nth i (boxBlurJS (repeat c (width * height)) width
                                         height kernelSize) 0%Z)
                       (boxBlurJS (repeat c (width * height)) width height
                                  kernelSize)) by now apply nth_In.
      specialize (Hall _ Hin). lia.
Qed.


(** *** dilateJS and erodeJS *)

(** The running maximum ends at its start value or at one of the samples
    it met. *)
Lemma fold_maxSample_closed (P : Z -> Prop) (src : list Z)
      (idxOf : Z -> nat) (ks : list Z) (m0 : Z) :
  P m0 -> Forall P src ->
  P (fold_left (fun m k => maxSample src m (idxOf k)) ks m0).
Proof.
  intros Hm0 Hall. revert m0 Hm0.
  induction ks as [|k ks IH]; intros m0 Hm0; cbn [fold_left]; [exact Hm0|].
  apply IH. unfold maxSample, byteAt.
  destruct (nth_error src (idxOf k)) as [v|] eqn:Hv; [|exact Hm0].
  destruct (m0 <? v)%Z; [|exact Hm0].
  rewrite Forall_forall in Hall. apply Hall. eapply nth_error_In; eauto.
Qed.

Lemma fold_minSample_closed (P : Z -> Prop) (src : list Z)
      (idxOf : Z -> nat) (ks : list Z) (m0 : Z) :
  P m0 -> Forall P src ->
  P (fold_left (fun m k => minSample src m (idxOf k)) ks m0).
Proof.
  intros Hm0 Hall. revert m0 Hm0.
  induction ks as [|k ks IH]; intros m0 Hm0; cbn [fold_left]; [exact Hm0|].
  apply IH. unfold minSample, byteAt.
  destruct (nth_error src (idxOf k)) as [v|] eqn:Hv; [|exact Hm0].
  destruct (v <? m0)%Z; [|exact Hm0].
  rewrite Forall_forall in Hall. apply Hall. eapply nth_error_In; eauto.
Qed.

Lemma fold_maxSample_ge_init (src : list Z) (idxOf : Z -> nat)
      (ks : list Z) (m0 : Z) :
  (m0 <= fold_left (fun m k => maxSample src m (idxOf k)) ks m0)%Z.
Proof.
  revert m0. induction ks as [|k ks IH]; intro m0; cbn [fold_left]; [lia|].
  eapply Z.le_trans; [|apply IH].
  unfold maxSample. destruct (byteAt src (idxOf k)) as [v|]; [|lia].
  destruct (Z.ltb_spec m0 v); lia.
Qed.

Lemma fold_maxSample_ge (src : list Z) (idxOf : Z -> nat) (ks : list Z)
      (m0 : Z) (k : Z) :
  In k ks -> (idxOf k < length src)%nat ->
  (nth (idxOf k) src 0
   <= fold_left (fun m k => maxSample src m (idxOf k)) ks m0)%Z.
Proof.
  intros Hin Hk. revert m0.
  induction ks as [|k0 ks IH]; intro m0; [contradiction|].
  cbn [fold_left]. destruct Hin as [->|Hin].
  - eapply Z.le_trans; [|apply fold_maxSample_ge_init].
    unfold maxSample, byteAt. rewrite (nth_error_nth' src 0%Z Hk).
    destruct (Z.ltb_spec m0 (nth (idxOf k) src 0%Z)); lia.
  - now apply IH.
Qed.

Lemma fold_minSample_le_init (src : list Z) (idxOf : Z -> nat)
      (ks : list Z) (m0 : Z) :
  (fold_left (fun m k => minSample src m (idxOf k)) ks m0 <= m0)%Z.
Proof.
  revert m0. induction ks as [|k ks IH]; intro m0; cbn [fold_left]; [lia|].
  eapply Z.le_trans; [apply IH|].
  unfold minSample. destruct (byteAt src (idxOf k)) as [v|]; [|lia].
  destruct (Z.ltb_spec v m0); lia.
Qed.

Lemma fold_minSample_le (src : list Z) (idxOf : Z -> nat) (ks : list Z)
      (m0 : Z) (k : Z) :
  In k ks -> (idxOf k < length src)%nat ->
  (fold_left (fun m k => minSample src m (idxOf k)) ks m0
   <= nth (idxOf k) src 0)%Z.
Proof.
  intros Hin Hk. revert m0.
  induction ks as [|k0 ks IH]; intro m0; [contradiction|].
  cbn [fold_left]. destruct Hin as [->|Hin].
  - eapply Z.le_trans; [apply fold_minSample_le_init|].
    unfold minSample, byteAt. rewrite (nth_error_nth' src 0%Z Hk).
    destruct (Z.ltb_spec (nth (idxOf k) src 0%Z) m0); lia.
  - now apply IH.
Qed.

(** The running minimum stays above a bound that the start value and all
    samples of the window respect. *)
Lemma fold_minSample_ge (src : list Z) (idxOf : Z -> nat) (ks : list Z)
      (m0 v : Z) :
  (v <= m0)%Z ->
  (forall k, In k ks -> (idxOf k < length src)%nat
                        /\ (v <= nth (idxOf k) src 0)%Z) ->
  (v <= fold_left (fun m k => minSample src m (idxOf k)) ks m0)%Z.
Proof.
  revert m0. induction ks as [|k ks IH]; intros m0 Hm0 Hall;
    cbn [fold_left]; [exact Hm0|].
  apply IH.
  - destruct (Hall k (or_introl eq_refl)) as [Hk Hv].
    unfold minSample, byteAt. rewrite (nth_error_nth' src 0%Z Hk).
    destruct (Z.ltb_spec (nth (idxOf k) src 0%Z) m0); lia.
  - intros k' Hk'. apply Hall. now right.
Qed.

Lemma maxAt_byte src halfK idxOf : (0 <= maxAt src halfK idxOf <= 255)%Z.
Proof. unfold maxAt. apply storeClamped_byte. Qed.

Lemma minAt_byte src halfK idxOf : (0 <= minAt src halfK idxOf <= 255)%Z.
Proof. unfold minAt. apply storeClamped_byte. Qed.

Lemma dilateJS_valid input width height kernelSize :
  validImage (dilateJS input width height kernelSize) width height.
Proof.
  split; [apply buildImage_length|].
  apply buildImage_Forall. intros y x _ _. apply maxAt_byte.
Qed.

Lemma erodeJS_valid input width height kernelSize :
  validImage (erodeJS input width height kernelSize) width height.
Proof.
  split; [apply buildImage_length|].
  apply buildImage_Forall. intros y x _ _. apply minAt_byte.
Qed.

Lemma maxAt_closed (P : Z -> Prop) src halfK idxOf :
  P 0%Z -> Forall P src -> Forall (fun v => (0 <= v <= 255)%Z) src ->
  P (maxAt src halfK idxOf).
Proof.
  intros H0 HP Hb. unfold maxAt.
  rewrite storeClamped_id.
  - now apply fold_maxSample_closed.
  - apply (fold_maxSample_closed (fun v => (0 <= v <= 255)%Z)); [lia|exact Hb].
Qed.

Lemma minAt_closed (P : Z -> Prop) src halfK idxOf :
  P 255%Z -> Forall P src -> Forall (fun v => (0 <= v <= 255)%Z) src ->
  P (minAt src halfK idxOf).
Proof.
  intros H0 HP Hb. unfold minAt.
  rewrite storeClamped_id.
  - now apply fold_minSample_closed.
  - apply (fold_minSample_closed (fun v => (0 <= v <= 255)%Z)); [lia|exact Hb].
Qed.

(** A sample of the window bounds the maximum from below. *)
Lemma maxAt_ge src halfK idxOf k :
  Forall (fun v => (0 <= v <= 255)%Z) src ->
  In k (offsets halfK) -> (idxOf k < length src)%nat ->
  (nth (idxOf k) src 0 <= maxAt src halfK idxOf)%Z.
Proof.
  intros Hb Hk Hidx. unfold maxAt. rewrite storeClamped_id.
  - now apply fold_maxSample_ge.
  - apply (fold_maxSample_closed (fun v => (0 <= v <= 255)%Z)); [lia|exact Hb].
Qed.

Lemma minAt_le src halfK idxOf k :
  Forall (fun v => (0 <= v <= 255)%Z) src ->
  In k (offsets halfK) -> (idxOf k < length src)%nat ->
  (minAt src halfK idxOf <= nth (idxOf k) src 0)%Z.
Proof.
  intros Hb Hk Hidx. unfold minAt. rewrite storeClamped_id.
  - now apply fold_minSample_le.
  - apply (fold_minSample_closed (fun v => (0 <= v <= 255)%Z)); [lia|exact Hb].
Qed.

Lemma minAt_ge src halfK idxOf v :
  Forall (fun v => (0 <= v <= 255)%Z) src ->
  (v <= 255)%Z ->
  (forall k, In k (offsets halfK) ->
             (idxOf k < length src)%nat /\ (v <= nth (idxOf k) src 0)%Z) ->
  (v <= minAt src halfK idxOf)%Z.
Proof.
  intros Hb Hv Hall. unfold minAt. rewrite storeClamped_id.
  - now apply fold_minSample_ge.
  - apply (fold_minSample_closed (fun v => (0 <= v <= 255)%Z)); [lia|exact Hb].
Qed.

Lemma zero_In_offsets halfK : In 0%Z (offsets halfK).
Proof. apply offsets_In. lia. Qed.

(** The pixel of the dilation dominates every pixel of the clamped
    window around it. *)
Lemma dilateJS_window img width height kernelSize y x j k :
  validImage img width height ->
  (y < height)%nat -> (x < width)%nat ->
  In j (offsets (halfOf kernelSize)) -> In k (offsets (halfOf kernelSize)) ->
  (pixel img width (clampCoord height (Z.of_nat y + j))
                   (clampCoord width (Z.of_nat x + k))
   <= pixel (dilateJS img width height kernelSize) width y x)%Z.
Proof.
  intros [Hlen Hb] Hy Hx Hj Hk. unfold dilateJS. cbv zeta.
  set (halfK := halfOf kernelSize) in *.
  set (temp := buildImage width height
                 (fun y x => maxAt img halfK (besideIdx width y x))).
  rewrite buildImage_pixel by assumption.
  assert (Htb : Forall (fun v => (0 <= v <= 255)%Z) temp).
  { apply buildImage_Forall. intros. apply maxAt_byte. }
  assert (Hcy : (clampCoord height (Z.of_nat y + j) < height)%nat)
    by (apply clampCoord_lt; lia).
  eapply Z.le_trans;
    [|apply (maxAt_ge temp halfK (belowIdx width height y x) j Htb Hj)].
  - change (nth (belowIdx width height y x j) temp 0%Z)
      with (pixel temp width (clampCoord height (Z.of_nat y + j)) x).
    unfold temp. rewrite buildImage_pixel by assumption.
    apply (maxAt_ge img halfK
             (besideIdx width (clampCoord height (Z.of_nat y + j)) x)
             k Hb Hk).
    rewrite Hlen. now apply besideIdx_lt.
  - unfold temp. rewrite buildImage_length. now apply belowIdx_lt.
Qed.

(** The pixel of the erosion stays above a bound respected by every pixel
    of the clamped window around it. *)
Lemma erodeJS_window img width height kernelSize y x v :
  validImage img width height ->
  (y < height)%nat -> (x < width)%nat -> (v <= 255)%Z ->
  (forall j k,
      In j (offsets (halfOf kernelSize)) ->
      In k (offsets (halfOf kernelSize)) ->
      (v <= pixel img width (clampCoord height (Z.of_nat y + j))
                            (clampCoord width (Z.of_nat x + k)))%Z) ->
  (v <= pixel (erodeJS img width height kernelSize) width y x)%Z.
Proof.
  intros [Hlen Hb] Hy Hx Hv Hall. unfold erodeJS. cbv zeta.
  set (halfK := halfOf kernelSize) in *.
  set (temp := buildImage width height
                 (fun y x => minAt img halfK (besideIdx width y x))).
  rewrite buildImage_pixel by assumption.
  assert (Htb : Forall (fun v => (0 <= v <= 255)%Z) temp).
  { apply buildImage_Forall. intros. apply minAt_byte. }
  apply (minAt_ge temp halfK (belowIdx width height y x) v Htb Hv).
  intros j Hj. split.
  - unfold temp. rewrite buildImage_length. now apply belowIdx_lt.
  - assert (Hcy : (clampCoord height (Z.of_nat y + j) < height)%nat)
      by (apply clampCoord_lt; lia).
    change (nth (belowIdx width height y x j) temp 0%Z)
      with (pixel temp width (clampCoord height (Z.of_nat y + j)) x).
    unfold temp. rewrite buildImage_pixel by assumption.
    apply (minAt_ge img halfK
             (besideIdx width (clampCoord height (Z.of_nat y + j)) x)
             v Hb Hv).
    intros k Hk. split.
    + rewrite Hlen. now apply besideIdx_lt.
    + apply (Hall j k Hj Hk).
Qed.

Lemma erodeJS_window_le img width height kernelSize y x j k :
  validImage img width height ->
  (y < height)%nat -> (x < width)%nat ->
  In j (offsets (halfOf kernelSize)) -> In k (offsets (halfOf kernelSize)) ->
  (pixel (erodeJS img width height kernelSize) width y x
   <= pixel img width (clampCoord height (Z.of_nat y + j))
                      (clampCoord width (Z.of_nat x + k)))%Z.
Proof.
  intros [Hlen Hb] Hy Hx Hj Hk. unfold erodeJS. cbv zeta.
  set (halfK := halfOf kernelSize) in *.
  set (temp := buildImage width height
                 (fun y x => minAt img halfK (besideIdx width y x))).
  rewrite buildImage_pixel by assumption.
  assert (Htb : Forall (fun v => (0 <= v <= 255)%Z) temp).
  { apply buildImage_Forall. intros. apply minAt_byte. }
  assert (Hcy : (clampCoord height (Z.of_nat y + j) < height)%nat)
    by (apply clampCoord_lt; lia).
  eapply Z.le_trans;
    [apply (minAt_le temp halfK (belowIdx width height y x) j Htb Hj)|].
  - unfold temp. rewrite buildImage_length. now apply belowIdx_lt.
  - change (nth (belowIdx width height y x j) temp 0%Z)
      with (pixel temp width (clampCoord height (Z.of_nat y + j)) x).
    unfold temp. rewrite buildImage_pixel by assumption.
    apply (minAt_le img halfK
             (besideIdx width (clampCoord height (Z.of_nat y + j)) x)
             k Hb Hk).
    rewrite Hlen. now apply besideIdx_lt.
Qed.

Lemma pixel_of_index img width height i :
  (i < width * height)%nat ->
  nth i img 0%Z = pixel img width (i / width) (i mod width).
Proof.
  intro Hi. destruct (index_split width height i Hi) as (_ & _ & Hsplit).
  unfold pixel. now rewrite <- Hsplit.
Qed.

(** X2.  Dilation never lowers a pixel and erosion never raises one. *)
Theorem dilate_erode_pointwise :
  forall img width height kernelSize i,
    validImage img width height ->
    (i < width * height)%nat ->
    (nth i (erodeJS img width height kernelSize) 0
     <= nth i img 0
     <= nth i (dilateJS img width height kernelSize) 0)%Z.
Proof.
  intros img width height kernelSize i Hvalid Hi.
  destruct (index_split width height i Hi) as (Hy & Hx & _).
  rewrite !(pixel_of_index _ width height i Hi).
  pose proof (zero_In_offsets (halfOf kernelSize)) as H0.
  pose proof (erodeJS_window_le img width height kernelSize _ _ 0 0
                Hvalid Hy Hx H0 H0) as He.
  pose proof (dilateJS_window img width height kernelSize _ _ 0 0
                Hvalid Hy Hx H0 H0) as Hd.
  rewrite !clampCoord_zero in He, Hd by assumption.
  lia.
Qed.

Lemma dilate_erode_pointwise_witness :
  (nth 4 (erodeJS [0; 0; 0; 0; 255; 0; 0; 0; 0]%Z 3 3 3) 0
   <= nth 4 [0; 0; 0; 0; 255; 0; 0; 0; 0]%Z 0
   <= nth 4 (dilateJS [0; 0; 0; 0; 255; 0; 0; 0; 0]%Z 3 3 3) 0)%Z.
Proof.
  refine (dilate_erode_pointwise [0; 0; 0; 0; 255; 0; 0; 0; 0]%Z 3 3 3 4
            _ _).
  - split; [reflexivity | repeat constructor; lia].
  - simpl. lia.
Defined.


(** *** Erosion is dilation of the negative *)

Lemma byteAt_negative img idx :
  byteAt (negative img) idx
  = match byteAt img idx with Some v => Some (255 - v)%Z | None => None end.
Proof. unfold byteAt, negative. rewrite nth_error_map.
       now destruct (nth_error img idx). Qed.

Lemma fold_min_negative (src : list Z) (idxOf : Z -> nat) (ks : list Z)
      (m0 : Z) :
  fold_left (fun m k => minSample (negative src) m (idxOf k)) ks
            (255 - m0)%Z
  = (255 - fold_left (fun m k => maxSample src m (idxOf k)) ks m0)%Z.
Proof.
  revert m0. induction ks as [|k ks IH]; intro m0; cbn [fold_left];
    [reflexivity|].
  rewrite <- IH. f_equal.
  unfold minSample, maxSample. rewrite byteAt_negative.
  destruct (byteAt src (idxOf k)) as [v|]; [|reflexivity].
  destruct (Z.ltb_spec (255 - v) (255 - m0)), (Z.ltb_spec m0 v); lia.
Qed.

Lemma minAt_negative src halfK idxOf :
  minAt (negative src) halfK idxOf = (255 - maxAt src halfK idxOf)%Z.
Proof.
  unfold minAt, maxAt.
  change 255%Z with (255 - 0)%Z at 1. rewrite fold_min_negative.
  unfold storeClamped. lia.
Qed.

Lemma negative_buildImage width height f :
  negative (buildImage width height f)
  = buildImage width height (fun y x => (255 - f y x)%Z).
Proof. unfold negative, buildImage. now rewrite map_map. Qed.

(** X3.  Eroding the negative of an image gives the negative of its
    dilation, for every buffer, window and image size. *)
Theorem erode_negative :
  forall img width height kernelSize,
    erodeJS (negative img) width height kernelSize
    = negative (dilateJS img width height kernelSize).
Proof.
  intros img width height kernelSize. unfold erodeJS, dilateJS. cbv zeta.
  rewrite negative_buildImage.
  apply buildImage_ext. intros y x _ _.
  rewrite <- minAt_negative. f_equal.
  rewrite negative_buildImage.
  apply buildImage_ext. intros y' x' _ _. apply minAt_negative.
Qed.

(** *** Binary images *)

Lemma isBinary_bytes img :
  isBinary img -> Forall (fun v => (0 <= v <= 255)%Z) img.
Proof. apply Forall_impl. intros v [-> | ->]; lia. Qed.

Lemma dilateJS_binary img width height kernelSize :
  isBinary img -> isBinary (dilateJS img width height kernelSize).
Proof.
  intro Hbin. unfold dilateJS. cbv zeta.
  assert (Htemp : isBinary
            (buildImage width height
               (fun y x => maxAt img (halfOf kernelSize)
                                 (besideIdx width y x)))).
  { apply buildImage_Forall. intros y x _ _.
    apply maxAt_closed; [now left | exact Hbin | now apply isBinary_bytes]. }
  apply buildImage_Forall. intros y x _ _.
  apply maxAt_closed; [now left | exact Htemp | now apply isBinary_bytes].
Qed.

Lemma erodeJS_binary img width height kernelSize :
  isBinary img -> isBinary (erodeJS img width height kernelSize).
Proof.
  intro Hbin. unfold erodeJS. cbv zeta.
  assert (Htemp : isBinary
            (buildImage width height
               (fun y x => minAt img (halfOf kernelSize)
                                 (besideIdx width y x)))).
  { apply buildImage_Forall. intros y x _ _.
    apply minAt_closed; [now right | exact Hbin | now apply isBinary_bytes]. }
  apply buildImage_Forall. intros y x _ _.
  apply minAt_closed; [now right | exact Htemp | now apply isBinary_bytes].
Qed.

Lemma morphologicalCloseJS_binary img width height kernelSize iterations :
  isBinary img ->
  isBinary (morphologicalCloseJS img width height kernelSize iterations).
Proof.
  revert img. induction iterations as [|n IH]; intros img Hbin; simpl.
  - exact Hbin.
  - apply IH. now apply erodeJS_binary, dilateJS_binary.
Qed.

Lemma morphologicalCloseJS_length img width height kernelSize iterations :
  length img = (width * height)%nat ->
  length (morphologicalCloseJS img width height kernelSize iterations)
  = (width * height)%nat.
Proof.
  revert img. induction iterations as [|n IH]; intros img Hlen; simpl.
  - exact Hlen.
  - apply IH. apply buildImage_length.
Qed.

Lemma adaptiveThresholdJS_isBinary enhanced blurred width height offset
      invert :
  isBinary (Preprocessing.adaptiveThresholdJS enhanced blurred width height
                                              offset invert).
Proof.
  unfold Preprocessing.adaptiveThresholdJS. cbv zeta.
  apply Forall_map, Forall_forall. intros i _.
  unfold Preprocessing.thresholdPixel.
  destruct (Preprocessing.strictNeq _ _); auto.
Qed.

(** X4.  The last two stages of the enhanced pipeline: whatever the
    enhanced and blurred buffers hold, thresholding and then closing
    yields an image of [width * height] samples, each 0 or 255. *)
Theorem threshold_then_close_binary :
  forall enhanced blurred width height offset invert kernelSize iterations,
    let binary :=
      Preprocessing.adaptiveThresholdJS enhanced blurred width height
                                        offset invert in
    length (morphologicalCloseJS binary width height kernelSize iterations)
    = (width * height)%nat
    /\ isBinary
         (morphologicalCloseJS binary width height kernelSize iterations).
Proof.
  intros enhanced blurred width height offset invert kernelSize iterations
         binary.
  split.
  - apply morphologicalCloseJS_length.
    apply PreprocessingFacts.adaptiveThresholdJS_length.
  - apply morphologicalCloseJS_binary, adaptiveThresholdJS_isBinary.
Qed.


(** *** Closing *)

Lemma close_step_valid img width height kernelSize :
  validImage (erodeJS (dilateJS img width height kernelSize)
                      width height kernelSize) width height.
Proof. apply erodeJS_valid. Qed.

Lemma close_step_extensive img width height kernelSize y x :
  validImage img width height ->
  (y < height)%nat -> (x < width)%nat ->
  (pixel img width y x
   <= pixel (erodeJS (dilateJS img width height kernelSize)
                     width height kernelSize) width y x)%Z.
Proof.
  intros Hvalid Hy Hx.
  apply erodeJS_window; try assumption.
  - apply dilateJS_valid.
  - destruct Hvalid as [Hlen Hb]. rewrite Forall_forall in Hb.
    assert (Hin : In (pixel img width y x) img).
    { unfold pixel. apply nth_In. rewrite Hlen. now apply index_bound. }
    specialize (Hb _ Hin). lia.
  - intros j k Hj Hk.
    destruct (clamp_return height (halfOf kernelSize) y j Hy Hj)
      as (j' & Hj' & Hyback).
    destruct (clamp_return width (halfOf kernelSize) x k Hx Hk)
      as (k' & Hk' & Hxback).
    pose proof (dilateJS_window img width height kernelSize
                  (clampCoord height (Z.of_nat y + j))
                  (clampCoord width (Z.of_nat x + k)) j' k' Hvalid) as Hd.
    rewrite Hyback, Hxback in Hd. apply Hd; try assumption.
    + apply clampCoord_lt. lia.
    + apply clampCoord_lt. lia.
Qed.

(** X5.  The morphological close never lowers a pixel: every sample of the
    closed image is at least the sample of the input at the same place,
    for any window size and any number of iterations. *)
Theorem morphologicalCloseJS_extensive :
  forall img width height kernelSize iterations i,
    validImage img width height ->
    (i < width * height)%nat ->
    (nth i img 0
     <= nth i (morphologicalCloseJS img width height kernelSize iterations)
            0)%Z.
Proof.
  intros img width height kernelSize iterations. revert img.
  induction iterations as [|n IH]; intros img i Hvalid Hi; simpl.
  - lia.
  - eapply Z.le_trans; [|apply IH; [apply close_step_valid | exact Hi]].
    destruct (index_split width height i Hi) as (Hy & Hx & _).
    rewrite !(pixel_of_index _ width height i Hi).
    now apply close_step_extensive.
Qed.

Lemma morphologicalCloseJS_extensive_witness :
  (nth 1 [0; 255; 0; 255; 0]%Z 0
   <= nth 1 (morphologicalCloseJS [0; 255; 0; 255; 0]%Z 5 1 3 2) 0)%Z.
Proof.
  refine (morphologicalCloseJS_extensive [0; 255; 0; 255; 0]%Z 5 1 3 2 1
            _ _).
  - split; [reflexivity | repeat constructor; lia].
  - simpl. lia.
Defined.

(** *** Windows of a single sample *)

Lemma blurAt_single src idxOf :
  (idxOf 0%Z < length src)%nat ->
  (0 <= nth (idxOf 0%Z) src 0 <= 255)%Z ->
  blurAt src 0 idxOf = nth (idxOf 0%Z) src 0%Z.
Proof.
  intros Hidx Hb. unfold blurAt. rewrite offsets_zero. cbn [fold_left].
  unfold addSample, byteAt. rewrite (nth_error_nth' src 0%Z Hidx).
  unfold roundedMean, windowCount.
  change (Z.of_nat (2 * 0 + 1)) with 1%Z.
  assert (Hq : ((2 * (0 + nth (idxOf 0%Z) src 0) + 1) / (2 * 1)
                = nth (idxOf 0%Z) src 0)%Z)
    by (symmetry; apply Z.div_unique with (r := 1%Z); lia).
  rewrite Hq. apply storeClamped_id. lia.
Qed.

Lemma maxAt_single src idxOf :
  (idxOf 0%Z < length src)%nat ->
  (0 <= nth (idxOf 0%Z) src 0 <= 255)%Z ->
  maxAt src 0 idxOf = nth (idxOf 0%Z) src 0%Z.
Proof.
  intros Hidx Hb. unfold maxAt. rewrite offsets_zero. cbn [fold_left].
  unfold maxSample, byteAt. rewrite (nth_error_nth' src 0%Z Hidx).
  destruct (Z.ltb_spec 0 (nth (idxOf 0%Z) src 0%Z));
    unfold storeClamped; lia.
Qed.

Lemma minAt_single src idxOf :
  (idxOf 0%Z < length src)%nat ->
  (0 <= nth (idxOf 0%Z) src 0 <= 255)%Z ->
  minAt src 0 idxOf = nth (idxOf 0%Z) src 0%Z.
Proof.
  intros Hidx Hb. unfold minAt. rewrite offsets_zero. cbn [fold_left].
  unfold minSample, byteAt. rewrite (nth_error_nth' src 0%Z Hidx).
  destruct (Z.ltb_spec (nth (idxOf 0%Z) src 0%Z) 255);
    unfold storeClamped; lia.
Qed.

Lemma besideIdx_zero width y x :
  (x < width)%nat -> besideIdx width y x 0 = (y * width + x)%nat.
Proof. intro Hx. unfold besideIdx. now rewrite clampCoord_zero. Qed.

Lemma belowIdx_zero width height y x :
  (y < height)%nat -> belowIdx width height y x 0 = (y * width + x)%nat.
Proof. intro Hy. unfold belowIdx. now rewrite clampCoord_zero. Qed.

(** Two passes that each copy the sample under the window centre copy
    the image. *)
Lemma two_pass_identity (width height : nat) (img : list Z)
      (op : list Z -> nat -> (Z -> nat) -> Z) :
  validImage img width height ->
  (forall src idxOf,
      (idxOf 0%Z < length src)%nat ->
      (0 <= nth (idxOf 0%Z) src 0 <= 255)%Z ->
      op src 0%nat idxOf = nth (idxOf 0%Z) src 0%Z) ->
  buildImage width height
    (fun y x =>
       op (buildImage width height
             (fun y x => op img 0%nat (besideIdx width y x)))
          0%nat (belowIdx width height y x))
  = img.
Proof.
  intros Hvalid Hop.
  assert (Htemp : buildImage width height
                    (fun y x => op img 0%nat (besideIdx width y x)) = img).
  { transitivity (buildImage width height (pixel img width));
      [|apply buildImage_pixel_id, (proj1 Hvalid)].
    apply buildImage_ext. intros y x Hy Hx.
    pose proof (index_bound width height y x Hy Hx) as Hidx.
    rewrite Hop; rewrite besideIdx_zero by assumption.
    - reflexivity.
    - now rewrite (proj1 Hvalid).
    - apply (validImage_nth img width height _ Hvalid Hidx). }
  rewrite Htemp.
  transitivity (buildImage width height (pixel img width));
    [|apply buildImage_pixel_id, (proj1 Hvalid)].
  apply buildImage_ext. intros y x Hy Hx.
  pose proof (index_bound width height y x Hy Hx) as Hidx.
  rewrite Hop; rewrite belowIdx_zero by assumption.
  - reflexivity.
  - now rewrite (proj1 Hvalid).
  - apply (validImage_nth img width height _ Hvalid Hidx).
Qed.

(** X6.  With a kernel size of 0 or 1 the window is the pixel itself:
    blur, dilation, erosion and closing all return the image unchanged. *)
Theorem single_pixel_kernel_identity :
  forall img width height kernelSize iterations,
    validImage img width height ->
    (kernelSize <= 1)%nat ->
    boxBlurJS img width height kernelSize = img
    /\ dilateJS img width height kernelSize = img
    /\ erodeJS img width height kernelSize = img
    /\ morphologicalCloseJS img width height kernelSize iterations = img.
Proof.
  intros img width height kernelSize iterations Hvalid Hk.
  assert (Hhalf : halfOf kernelSize = 0%nat).
  { unfold halfOf. destruct kernelSize as [|[|k]]; try reflexivity; lia. }
  assert (Hblur : boxBlurJS img width height kernelSize = img).
  { unfold boxBlurJS. cbv zeta. rewrite Hhalf.
    apply (two_pass_identity width height img blurAt Hvalid).
    intros. now apply blurAt_single. }
  assert (Hdil : dilateJS img width height kernelSize = img).
  { unfold dilateJS. cbv zeta. rewrite Hhalf.
    apply (two_pass_identity width height img maxAt Hvalid).
    intros. now apply maxAt_single. }
  assert (Hero : erodeJS img width height kernelSize = img).
  { unfold erodeJS. cbv zeta. rewrite Hhalf.
    apply (two_pass_identity width height img minAt Hvalid).
    intros. now apply minAt_single. }
  repeat split; try assumption.
  induction iterations as [|n IH]; simpl; [reflexivity|].
  now rewrite Hdil, Hero.
Qed.

Lemma single_pixel_kernel_identity_witness :
  boxBlurJS [10; 200; 30; 40]%Z 2 2 1 = [10; 200; 30; 40]%Z
  /\ morphologicalCloseJS [10; 200; 30; 40]%Z 2 2 1 3 = [10; 200; 30; 40]%Z.
Proof.
  destruct (single_pixel_kernel_identity [10; 200; 30; 40]%Z 2 2 1 3)
    as (Hb & _ & _ & Hc).
  - split; [reflexivity | repeat constructor; lia].
  - lia.
  - exact (conj Hb Hc).
Defined.


(** *** unsharpMaskJS *)

Lemma Qfloor_half (v : Z) : Qfloor (inject_Z v + (1 # 2))%Q = v.
Proof.
  unfold Qfloor, Qplus, inject_Z. simpl.
  symmetry. apply Z.div_unique with (r := 1%Z); lia.
Qed.

Lemma clampRound_integer (q : Q) (v : Z) :
  (q == inject_Z v)%Q -> (0 <= v <= 255)%Z -> clampRound q = v.
Proof.
  intros Hq Hv. unfold clampRound.
  destruct (Qlt_le_dec q 0) as [Hneg|_].
  - exfalso. rewrite Hq in Hneg.
    change 0%Q with (inject_Z 0) in Hneg. rewrite <- Zlt_Qlt in Hneg. lia.
  - destruct (Qlt_le_dec 255 q) as [Hbig|_].
    + exfalso. rewrite Hq in Hbig.
      change 255%Q with (inject_Z 255) in Hbig.
      rewrite <- Zlt_Qlt in Hbig. lia.
    + assert (Heq : (q + (1 # 2) == inject_Z v + (1 # 2))%Q)
        by (now rewrite Hq).
      rewrite (Qfloor_comp _ _ Heq). apply Qfloor_half.
Qed.

Lemma sharpenPixel_unchanged input blurred amount i v :
  byteAt input i = Some v -> (0 <= v <= 255)%Z ->
  (byteAt blurred i = Some v \/ (amount == 0)%Q /\ byteAt blurred i <> None) ->
  sharpenPixel input blurred amount i = v.
Proof.
  intros Hin Hv Hcase. unfold sharpenPixel. rewrite Hin.
  destruct (byteAt blurred i) as [b|] eqn:Hb.
  - rewrite (clampRound_integer _ v); [now apply storeClamped_id| |exact Hv].
    destruct Hcase as [Heq | [Hzero _]].
    + injection Heq as ->. ring.
    + rewrite Hzero. ring.
  - destruct Hcase as [Heq | [_ Hne]]; [discriminate | contradiction].
Qed.

Lemma unsharpMaskJS_length input width height amount radius :
  length (unsharpMaskJS input width height amount radius)
  = (width * height)%nat.
Proof. unfold unsharpMaskJS. cbv zeta. now rewrite length_map, length_seq. Qed.

(** X7.  Unsharp masking returns bytes; it leaves a flat image unchanged
    for every amount and radius, and with [amount = 0] it leaves every
    image unchanged. *)
Theorem unsharpMaskJS_fixed_points :
  forall img width height amount radius,
    validImage img width height ->
    validImage (unsharpMaskJS img width height amount radius) width height
    /\ ((amount == 0)%Q ->
        unsharpMaskJS img width height amount radius = img)
    /\ (forall c, img = repeat c (width * height) ->
                  unsharpMaskJS img width height amount radius = img).
Proof.
  intros img width height amount radius Hvalid.
  assert (Hout : forall i, (i < width * height)%nat ->
            nth i (unsharpMaskJS img width height amount radius) 0%Z
            = sharpenPixel img
                (boxBlurJS img width height (2 * radius + 1)) amount i).
  { intros i Hi. unfold unsharpMaskJS. cbv zeta.
    rewrite (nth_indep _ 0%Z
               (sharpenPixel img
                  (boxBlurJS img width height (2 * radius + 1)) amount 0))
      by (now rewrite length_map, length_seq).
    rewrite (map_nth (sharpenPixel img
                        (boxBlurJS img width height (2 * radius + 1))
                        amount)).
    now rewrite seq_nth. }
  split; [|split].
  - split; [apply unsharpMaskJS_length|].
    unfold unsharpMaskJS. cbv zeta. apply Forall_map, Forall_forall.
    intros i _. unfold sharpenPixel.
    destruct (byteAt img i); [|lia].
    destruct (byteAt _ i); [apply storeClamped_byte | lia].
  - intro Hzero. apply (nth_ext _ _ 0%Z 0%Z).
    + rewrite unsharpMaskJS_length. symmetry. apply (proj1 Hvalid).
    + intros i Hi. rewrite unsharpMaskJS_length in Hi. rewrite (Hout i Hi).
      destruct (validImage_nth img width height i Hvalid Hi) as [Hin Hb].
      apply sharpenPixel_unchanged; try assumption.
      right. split; [exact Hzero|].
      destruct (validImage_nth _ width height i
                  (boxBlurJS_valid img width height (2 * radius + 1)) Hi)
        as [Hbl _].
      rewrite Hbl. discriminate.
  - intros c Hflat. apply (nth_ext _ _ 0%Z 0%Z).
    + rewrite unsharpMaskJS_length. symmetry. apply (proj1 Hvalid).
    + intros i Hi. rewrite unsharpMaskJS_length in Hi. rewrite (Hout i Hi).
      destruct (validImage_nth img width height i Hvalid Hi) as [Hin Hb].
      apply sharpenPixel_unchanged; try assumption.
      left.
      assert (Hc : (0 <= c <= 255)%Z).
      { rewrite Hflat in Hb. now rewrite nth_repeat_lt in Hb. }
      rewrite Hflat at 1. rewrite boxBlurJS_flat by exact Hc.
      rewrite <- Hflat. exact Hin.
Qed.

Lemma unsharpMaskJS_fixed_points_witness :
  unsharpMaskJS [10; 200; 30; 40]%Z 2 2 0 2 = [10; 200; 30; 40]%Z.
Proof.
  refine (proj1 (proj2 (unsharpMaskJS_fixed_points [10; 200; 30; 40]%Z
                          2 2 0 2 _)) _).
  - split; [reflexivity | repeat constructor; lia].
  - reflexivity.
Defined.


(** *** claheJS: histograms *)

Import Preprocessing.

Lemma sumZ_app (l1 l2 : list Z) : sumZ (l1 ++ l2) = (sumZ l1 + sumZ l2)%Z.
Proof. induction l1 as [|a l1 IH]; simpl; [reflexivity|]. rewrite IH. lia. Qed.

Lemma sumZ_repeat_zero (n : nat) : sumZ (repeat 0%Z n) = 0%Z.
Proof. induction n as [|n IH]; simpl; [reflexivity|]. now rewrite IH. Qed.

Lemma bump_length hist v : length (bump hist v) = length hist.
Proof.
  revert v. induction hist as [|h t IH]; intros [|v]; simpl; auto.
Qed.

Lemma bump_sum hist v :
  (v < length hist)%nat -> sumZ (bump hist v) = (sumZ hist + 1)%Z.
Proof.
  revert v. induction hist as [|h t IH]; intros [|v] Hv; simpl in *;
    try lia.
  rewrite IH by lia. lia.
Qed.

Lemma bump_nonneg hist v :
  Forall (fun c => (0 <= c)%Z) hist -> Forall (fun c => (0 <= c)%Z) (bump hist v).
Proof.
  revert v. induction hist as [|h t IH]; intros [|v] Hall; simpl;
    inversion Hall; subst; constructor; auto; lia.
Qed.

(** Counting the pixels of a list of in-range indices adds one count per
    index. *)
Lemma fold_bumpPixel (input : list Z) (idxs : list nat) (hist : list Z) :
  Forall (fun v => (0 <= v <= 255)%Z) input ->
  length hist = 256%nat ->
  Forall (fun c => (0 <= c)%Z) hist ->
  (forall idx, In idx idxs -> (idx < length input)%nat) ->
  let out := fold_left (bumpPixel input) idxs hist in
  length out = 256%nat
  /\ Forall (fun c => (0 <= c)%Z) out
  /\ sumZ out = (sumZ hist + Z.of_nat (length idxs))%Z.
Proof.
  intros Hb. revert hist.
  induction idxs as [|idx idxs IH]; intros hist Hlen Hnn Hidx; cbv zeta.
  - simpl. repeat split; auto. lia.
  - cbn [fold_left].
    assert (Hi : (idx < length input)%nat) by (apply Hidx; now left).
    assert (Hstep : bumpPixel input hist idx
                    = bump hist (Z.to_nat (nth idx input 0%Z))).
    { unfold bumpPixel, byteAt. rewrite (nth_error_nth' input 0%Z Hi).
      rewrite Forall_forall in Hb.
      specialize (Hb _ (nth_In input 0%Z Hi)).
      destruct (Z.ltb_spec (nth idx input 0%Z) 0); [lia | reflexivity]. }
    rewrite Hstep.
    assert (Hv : (Z.to_nat (nth idx input 0%Z) < length hist)%nat).
    { rewrite Forall_forall in Hb.
      specialize (Hb _ (nth_In input 0%Z Hi)). lia. }
    destruct (IH (bump hist (Z.to_nat (nth idx input 0%Z)))) as (L & N & S).
    + now rewrite bump_length.
    + now apply bump_nonneg.
    + intros i' Hi'. apply Hidx. now right.
    + repeat split; auto. rewrite S, bump_sum by exact Hv.
      simpl length. lia.
Qed.

Lemma grid_length (width xs cols y0 rows : nat) :
  length (flat_map (fun y => map (fun x => (y * width + x)%nat)
                                 (seq xs cols))
                   (seq y0 rows))
  = (rows * cols)%nat.
Proof.
  revert y0. induction rows as [|rows IH]; intro y0; simpl.
  - reflexivity.
  - rewrite length_app, length_map, length_seq, IH. lia.
Qed.

Lemma tileIndices_length width height tileGridX tileGridY tx ty :
  length (tileIndices width height tileGridX tileGridY tx ty)
  = actualTilePixels width height tileGridX tileGridY tx ty.
Proof. unfold tileIndices, actualTilePixels. cbv zeta. apply grid_length. Qed.

Lemma xEnd_le width tileGridX tx :
  (tx < tileGridX)%nat -> (xEnd width tileGridX tx <= width)%nat.
Proof.
  intro Htx. unfold xEnd, xStart, tileWidth.
  destruct (Nat.eqb_spec tx (tileGridX - 1)); [lia|].
  pose proof (Nat.Div0.mul_div_le width tileGridX) as Hle.
  assert (((tx + 1) * (width / tileGridX) <= tileGridX * (width / tileGridX))%nat)
    by (apply Nat.mul_le_mono_r; lia).
  lia.
Qed.

Lemma yEnd_le height tileGridY ty :
  (ty < tileGridY)%nat -> (yEnd height tileGridY ty <= height)%nat.
Proof. apply xEnd_le. Qed.

Lemma tileIndices_in_range width height tileGridX tileGridY tx ty idx :
  (tx < tileGridX)%nat -> (ty < tileGridY)%nat ->
  In idx (tileIndices width height tileGridX tileGridY tx ty) ->
  (idx < width * height)%nat.
Proof.
  intros Htx Hty Hin. unfold tileIndices in Hin. cbv zeta in Hin.
  apply in_flat_map in Hin. destruct Hin as (y & Hy & Hin).
  apply in_map_iff in Hin. destruct Hin as (x & <- & Hx).
  apply in_seq in Hy. apply in_seq in Hx.
  pose proof (xEnd_le width tileGridX tx Htx).
  pose proof (yEnd_le height tileGridY ty Hty).
  apply index_bound; lia.
Qed.

Lemma tileHistogram_total input width height tileGridX tileGridY tx ty :
  validImage input width height ->
  (tx < tileGridX)%nat -> (ty < tileGridY)%nat ->
  length (tileHistogram input width height tileGridX tileGridY tx ty)
  = 256%nat
  /\ Forall (fun c => (0 <= c)%Z)
            (tileHistogram input width height tileGridX tileGridY tx ty)
  /\ sumZ (tileHistogram input width height tileGridX tileGridY tx ty)
     = Z.of_nat (actualTilePixels width height tileGridX tileGridY tx ty).
Proof.
  intros [Hlen Hb] Htx Hty. unfold tileHistogram.
  destruct (fold_bumpPixel input
              (tileIndices width height tileGridX tileGridY tx ty)
              (repeat 0%Z 256) Hb) as (L & N & S).
  - apply repeat_length.
  - apply Forall_forall. intros c Hc. apply repeat_spec in Hc. lia.
  - intros idx Hin. rewrite Hlen.
    apply (tileIndices_in_range width height tileGridX tileGridY tx ty idx
             Htx Hty Hin).
  - cbv zeta in L, N, S. repeat split; auto.
    rewrite S, sumZ_repeat_zero, tileIndices_length. lia.
Qed.

(** Clipping *)

Lemma capBins_spec clip hist :
  let '(capped, excess) := capBins clip hist in
  length capped = length hist
  /\ (sumZ capped + excess = sumZ hist)%Z
  /\ (0 <= excess)%Z
  /\ Forall (fun c => (c <= clip)%Z) capped
  /\ (Forall (fun c => (0 <= c)%Z) hist -> (0 <= clip)%Z ->
      Forall (fun c => (0 <= c)%Z) capped).
Proof.
  induction hist as [|h t IH]; simpl.
  - repeat split; auto; lia.
  - destruct (capBins clip t) as [t' excess].
    destruct IH as (L & S & E & C & N).
    destruct (Z.ltb_spec clip h); simpl.
    + repeat split; try lia.
      * constructor; [lia | exact C].
      * intros Hnn Hc. inversion Hnn; subst. constructor; auto.
    + repeat split; try lia.
      * constructor; [lia | exact C].
      * intros Hnn Hc. inversion Hnn; subst. constructor; auto.
Qed.

Lemma spread_length perBin remainder i hist :
  length (spread perBin remainder i hist) = length hist.
Proof.
  revert i. induction hist as [|h t IH]; intro i; simpl; auto.
Qed.

Lemma spread_sum perBin remainder i hist :
  sumZ (spread perBin remainder i hist)
  = (sumZ hist + perBin * Z.of_nat (length hist)
     + Z.max 0 (Z.min (i + Z.of_nat (length hist)) remainder - i))%Z.
Proof.
  revert i. induction hist as [|h t IH]; intro i.
  - simpl. lia.
  - cbn [spread sumZ fold_right length]. fold (sumZ (spread perBin remainder (i + 1) t)).
    fold (sumZ t). rewrite IH.
    destruct (Z.ltb_spec i remainder); lia.
Qed.

Lemma spread_bounds perBin remainder i hist lo hi :
  (0 <= perBin)%Z ->
  Forall (fun c => (lo <= c <= hi)%Z) hist ->
  Forall (fun c => (lo <= c <= hi + perBin + 1)%Z)
         (spread perBin remainder i hist).
Proof.
  intros Hp Hall. revert i.
  induction Hall as [|h t Hh Ht IH]; intro i; simpl; constructor; auto.
  destruct (i <? remainder)%Z; lia.
Qed.

Lemma clipHistogram_sum clip hist :
  length hist = 256%nat ->
  length (clipHistogram clip hist) = 256%nat
  /\ sumZ (clipHistogram clip hist) = sumZ hist.
Proof.
  intros Hlen. destruct clip as [c|]; simpl; [|auto].
  pose proof (capBins_spec c hist) as Hcap.
  destruct (capBins c hist) as [capped excess].
  destruct Hcap as (L & S & E & _ & _).
  split.
  - now rewrite spread_length, L.
  - rewrite spread_sum, L, Hlen.
    change (Z.of_nat 256) with 256%Z.
    pose proof (Z.mod_pos_bound excess 256).
    pose proof (Z.div_mod excess 256).
    lia.
Qed.



Lemma actualClip_at_least_one width height tileGridX tileGridY clipLimit c :
  actualClip width height tileGridX tileGridY clipLimit = Some c ->
  (1 <= c)%Z.
Proof.
  unfold actualClip, clipFormula.
  destruct (Qlt_le_dec 0 clipLimit); [|discriminate].
  intro H. injection H as <-. lia.
Qed.

Lemma clipHistogram_nonneg clip hist :
  match clip with Some c => (0 <= c)%Z | None => True end ->
  Forall (fun c => (0 <= c)%Z) hist ->
  Forall (fun c => (0 <= c)%Z) (clipHistogram clip hist).
Proof.
  intros Hclip Hnn. destruct clip as [c|]; simpl; [|exact Hnn].
  pose proof (capBins_spec c hist) as Hcap.
  destruct (capBins c hist) as [capped excess].
  destruct Hcap as (_ & _ & E & C & N).
  specialize (N Hnn Hclip).
  assert (Hp : (0 <= excess / 256)%Z) by (apply Z.div_pos; lia).
  assert (Hb : Forall (fun v => (0 <= v <= c)%Z) capped).
  { rewrite Forall_forall in *. intros v Hv. split; auto. }
  eapply Forall_impl;
    [|apply (spread_bounds (excess / 256) (excess mod 256) 0 capped 0 c Hp Hb)].
  simpl. intros; lia.
Qed.

Lemma claheTileHist_total input width height tileGridX tileGridY clipLimit
      tx ty :
  validImage input width height ->
  (tx < tileGridX)%nat -> (ty < tileGridY)%nat ->
  length (claheTileHist input width height tileGridX tileGridY clipLimit
                        tx ty) = 256%nat
  /\ Forall (fun c => (0 <= c)%Z)
            (claheTileHist input width height tileGridX tileGridY clipLimit
                           tx ty)
  /\ sumZ (claheTileHist input width height tileGridX tileGridY clipLimit
                         tx ty)
     = Z.of_nat (actualTilePixels width height tileGridX tileGridY tx ty).
Proof.
  intros Hvalid Htx Hty.
  destruct (tileHistogram_total input width height tileGridX tileGridY tx ty
              Hvalid Htx Hty) as (L & N & S).
  unfold claheTileHist.
  destruct (clipHistogram_sum
              (actualClip width height tileGridX tileGridY clipLimit)
              _ L) as [L' S'].
  repeat split; auto.
  - apply clipHistogram_nonneg; [|exact N].
    destruct (actualClip width height tileGridX tileGridY clipLimit)
      as [c|] eqn:Hc; [|exact I].
    apply actualClip_at_least_one in Hc. lia.
  - now rewrite S'.
Qed.

(** The tiles cover the image *)

Lemma sum_const_map (n : nat) (f : nat -> nat) (c : nat) :
  (forall i, (i < n)%nat -> f i = c) ->
  list_sum (map f (seq 0 n)) = (n * c)%nat.
Proof.
  intro Hf. induction n as [|n IH].
  - reflexivity.
  - rewrite seq_S, map_app, list_sum_app, IH by (intros; apply Hf; lia).
    simpl. rewrite Hf by lia. lia.
Qed.

Lemma spans_cover (total grid : nat) :
  (1 <= grid)%nat ->
  list_sum (map (fun t => xEnd total grid t - xStart total grid t)%nat
                (seq 0 grid)) = total.
Proof.
  intro Hg.
  assert (Hseq : seq 0 grid = seq 0 (grid - 1) ++ [(grid - 1)%nat]).
  { destruct grid as [|g]; [lia|]. rewrite seq_S. simpl.
    now rewrite Nat.sub_0_r. }
  rewrite Hseq, map_app, list_sum_app.
  rewrite (sum_const_map (grid - 1) _ (total / grid)).
  - simpl. unfold xEnd, xStart, tileWidth. rewrite Nat.eqb_refl.
    pose proof (Nat.Div0.mul_div_le total grid) as Hle.
    assert (((grid - 1) * (total / grid) <= grid * (total / grid))%nat)
      by (apply Nat.mul_le_mono_r; lia).
    lia.
  - intros i Hi. unfold xEnd, xStart, tileWidth.
    destruct (Nat.eqb_spec i (grid - 1)); lia.
Qed.

Lemma list_sum_scale {A : Type} (c : nat) (f : A -> nat) (l : list A) :
  list_sum (map (fun a => c * f a)%nat l) = (c * list_sum (map f l))%nat.
Proof. induction l as [|a l IH]; simpl; [lia|]. rewrite IH. lia. Qed.

Lemma list_sum_map_flat_map {A B : Type} (f : B -> nat) (g : A -> list B)
      (l : list A) :
  list_sum (map f (flat_map g l))
  = list_sum (map (fun a => list_sum (map f (g a))) l).
Proof.
  induction l as [|a l IH]; simpl; [reflexivity|].
  now rewrite map_app, list_sum_app, IH.
Qed.

Lemma tiles_cover width height tileGridX tileGridY :
  (1 <= tileGridX)%nat -> (1 <= tileGridY)%nat ->
  list_sum (map (fun t => actualTilePixels width height tileGridX tileGridY
                                           (fst t) (snd t))
                (allTiles tileGridX tileGridY))
  = (width * height)%nat.
Proof.
  intros Hx Hy. unfold allTiles. rewrite list_sum_map_flat_map.
  transitivity
    (list_sum (map (fun ty => (width * (yEnd height tileGridY ty
                                        - yStart height tileGridY ty))%nat)
                   (seq 0 tileGridY))).
  - f_equal. apply map_ext. intro ty. rewrite map_map. simpl.
    unfold actualTilePixels.
    rewrite (list_sum_scale
               (yEnd height tileGridY ty - yStart height tileGridY ty)
               (fun tx => xEnd width tileGridX tx
                          - xStart width tileGridX tx)%nat).
    rewrite (spans_cover width tileGridX Hx). lia.
  - rewrite (list_sum_scale width
               (fun ty => yEnd height tileGridY ty
                          - yStart height tileGridY ty)%nat).
    unfold yEnd, yStart, tileHeight.
    pose proof (spans_cover height tileGridY Hy) as Hc.
    unfold xEnd, xStart, tileWidth in Hc. now rewrite Hc.
Qed.

(** Cumulative histogram *)

Lemma cdfFrom_length acc hist : length (cdfFrom acc hist) = length hist.
Proof.
  revert acc. induction hist as [|h t IH]; intro acc; simpl; auto.
Qed.

Lemma cdfFrom_bounds acc hist :
  Forall (fun c => (0 <= c)%Z) hist ->
  Forall (fun c => (acc <= c <= acc + sumZ hist)%Z) (cdfFrom acc hist).
Proof.
  intro Hnn. revert acc.
  induction Hnn as [|h t Hh Ht IH]; intro acc; simpl; constructor.
  - assert (0 <= sumZ t)%Z.
    { clear IH. induction Ht; simpl; [lia|]. fold (sumZ l). lia. }
    fold (sumZ t). lia.
  - eapply Forall_impl; [|apply IH]. simpl. fold (sumZ t). intros; lia.
Qed.

Lemma cdfFrom_sorted acc hist :
  Forall (fun c => (0 <= c)%Z) hist -> Sorted Z.le (cdfFrom acc hist).
Proof.
  intro Hnn. revert acc.
  induction Hnn as [|h t Hh Ht IH]; intro acc; simpl; constructor.
  - apply IH.
  - destruct Ht as [|h' t' Hh' Ht']; simpl; constructor. lia.
Qed.

Lemma cdfFrom_final acc hist :
  hist <> [] ->
  nth (length hist - 1) (cdfFrom acc hist) 0%Z = (acc + sumZ hist)%Z.
Proof.
  revert acc. induction hist as [|h t IH]; intros acc Hne; [contradiction|].
  cbn [cdfFrom sumZ fold_right length]. fold (sumZ t).
  destruct t as [|h' t'].
  - simpl. lia.
  - replace (S (length (h' :: t')) - 1)%nat
      with (S (length (h' :: t') - 1)) by (simpl; lia).
    cbn [nth]. rewrite IH by discriminate. lia.
Qed.

Lemma cdfMinOf_bounds cdf hi :
  (0 <= hi)%Z -> Forall (fun c => (c <= hi)%Z) cdf ->
  (0 <= cdfMinOf cdf <= hi)%Z.
Proof.
  intros Hhi Hall. induction Hall as [|c t Hc Ht IH]; simpl; [lia|].
  destruct (Z.ltb_spec 0 c); lia.
Qed.

Lemma cdfMinOf_positive cdf :
  Exists (fun c => (0 < c)%Z) cdf -> (0 < cdfMinOf cdf)%Z.
Proof.
  intro Hex. induction Hex as [c t Hc | c t Ht IH]; simpl.
  - destruct (Z.ltb_spec 0 c); lia.
  - destruct (Z.ltb_spec 0 c); lia.
Qed.


Lemma sumZ_nonneg (l : list Z) :
  Forall (fun c => (0 <= c)%Z) l -> (0 <= sumZ l)%Z.
Proof. intro H. induction H; simpl; [lia|]. fold (sumZ l). lia. Qed.

(** X8.  Clipping and redistributing keeps the number of counted pixels:
    the 256 bins of the clipped histogram sum to what they summed to
    before, whatever the clip count.  With a clip count [c] no bin ends
    above [c + floor(total / 256) + 1]. *)
Theorem clipHistogram_conserves :
  forall clip hist,
    length hist = 256%nat ->
    length (clipHistogram clip hist) = 256%nat
    /\ sumZ (clipHistogram clip hist) = sumZ hist
    /\ (forall c,
           clip = Some c -> (0 <= c)%Z ->
           Forall (fun v => (0 <= v)%Z) hist ->
           Forall (fun v => (0 <= v <= c + sumZ hist / 256 + 1)%Z)
                  (clipHistogram clip hist)).
Proof.
  intros clip hist Hlen.
  destruct (clipHistogram_sum clip hist Hlen) as [L S].
  split; [exact L|]. split; [exact S|].
  intros c -> Hc Hnn. simpl.
  pose proof (capBins_spec c hist) as Hcap.
  destruct (capBins c hist) as [capped excess].
  destruct Hcap as (_ & Hsum & E & C & N).
  specialize (N Hnn Hc).
  assert (Hp : (0 <= excess / 256)%Z) by (apply Z.div_pos; lia).
  assert (Hb : Forall (fun v => (0 <= v <= c)%Z) capped).
  { rewrite Forall_forall in *. intros v Hv. split; auto. }
  pose proof (sumZ_nonneg capped N) as Hcn.
  assert (Hle : (excess / 256 <= sumZ hist / 256)%Z)
    by (apply Z.div_le_mono; lia).
  eapply Forall_impl;
    [|apply (spread_bounds (excess / 256) (excess mod 256) 0 capped 0 c Hp Hb)].
  simpl. intros; lia.
Qed.

Lemma clipHistogram_conserves_witness :
  sumZ (clipHistogram (Some 1%Z) (bump (bump (repeat 0%Z 256) 7) 7))
  = sumZ (bump (bump (repeat 0%Z 256) 7) 7).
Proof.
  refine (proj1 (proj2 (clipHistogram_conserves (Some 1%Z)
                          (bump (bump (repeat 0%Z 256) 7) 7) _))).
  reflexivity.
Defined.

(** X9.  Every pixel of the image is counted once: the clipped histogram
    of a tile has 256 non-negative bins that sum to the tile's pixel
    count, and the histograms of all tiles together sum to [width *
    height]. *)
Theorem clahe_histograms_count_pixels :
  forall input width height tileGridX tileGridY clipLimit,
    validImage input width height ->
    (1 <= tileGridX)%nat -> (1 <= tileGridY)%nat ->
    (forall tx ty,
        (tx < tileGridX)%nat -> (ty < tileGridY)%nat ->
        length (claheTileHist input width height tileGridX tileGridY
                              clipLimit tx ty) = 256%nat
        /\ Forall (fun c => (0 <= c)%Z)
                  (claheTileHist input width height tileGridX tileGridY
                                 clipLimit tx ty)
        /\ sumZ (claheTileHist input width height tileGridX tileGridY
                               clipLimit tx ty)
           = Z.of_nat (actualTilePixels width height tileGridX tileGridY
                                        tx ty))
    /\ sumZ (map (fun t => sumZ (claheTileHist input width height tileGridX
                                               tileGridY clipLimit
                                               (fst t) (snd t)))
                 (allTiles tileGridX tileGridY))
       = Z.of_nat (width * height).
Proof.
  intros input width height gx gy L Hvalid Hx Hy. split.
  - intros tx ty Htx Hty. now apply claheTileHist_total.
  - rewrite <- (tiles_cover width height gx gy Hx Hy).
    assert (Hin : forall t, In t (allTiles gx gy) ->
                            (fst t < gx)%nat /\ (snd t < gy)%nat).
    { intros [tx ty] Ht. unfold allTiles in Ht. apply in_flat_map in Ht.
      destruct Ht as (ty' & Hty' & Ht). apply in_map_iff in Ht.
      destruct Ht as (tx' & Heq & Htx'). injection Heq as <- <-.
      apply in_seq in Hty'. apply in_seq in Htx'. simpl. lia. }
    induction (allTiles gx gy) as [|t l IH]; [reflexivity|].
    cbn [map sumZ fold_right list_sum].
    fold (sumZ (map (fun t => sumZ (claheTileHist input width height gx gy L
                                                  (fst t) (snd t))) l)).
    rewrite IH by (intros t' Ht'; apply Hin; now right).
    destruct (Hin t (or_introl eq_refl)) as [Htx Hty].
    destruct (claheTileHist_total input width height gx gy L (fst t) (snd t)
                Hvalid Htx Hty) as (_ & _ & ->).
    unfold list_sum. lia.
Qed.

Lemma clahe_histograms_count_pixels_witness :
  sumZ (map (fun t => sumZ (claheTileHist [1; 2; 3; 4; 5; 6]%Z 3 2 2 1 2
                                          (fst t) (snd t)))
            (allTiles 2 1))
  = Z.of_nat (3 * 2).
Proof.
  refine (proj2 (clahe_histograms_count_pixels [1; 2; 3; 4; 5; 6]%Z 3 2 2 1 2
                   _ _ _)).
  - split; [reflexivity | repeat constructor; lia].
  - lia.
  - lia.
Defined.

(** X10.  The cumulative histogram of a tile is non-decreasing, stays
    between 0 and the tile's pixel count [n] and ends at [n]; hence
    [cdfMin] lies in 0..[n] and the denominator [n - cdfMin] of the
    mapping is never negative, and it is below [n] as soon as the tile has
    a pixel. *)
Theorem clahe_tile_cdf :
  forall input width height tileGridX tileGridY clipLimit tx ty,
    validImage input width height ->
    (tx < tileGridX)%nat -> (ty < tileGridY)%nat ->
    let cdf := claheTileCdf input width height tileGridX tileGridY
                            clipLimit tx ty in
    let n := Z.of_nat (actualTilePixels width height tileGridX tileGridY
                                        tx ty) in
    let denom := claheTileDenom input width height tileGridX tileGridY
                                clipLimit tx ty in
    length cdf = 256%nat
    /\ Sorted Z.le cdf
    /\ Forall (fun c => (0 <= c <= n)%Z) cdf
    /\ nth 255 cdf 0%Z = n
    /\ (0 <= denom <= n)%Z
    /\ ((0 < n)%Z -> (denom < n)%Z).
Proof.
  intros input width height gx gy L tx ty Hvalid Htx Hty cdf n denom.
  destruct (claheTileHist_total input width height gx gy L tx ty
              Hvalid Htx Hty) as (Hlen & Hnn & Hsum).
  unfold cdf, claheTileCdf, cdfOf.
  set (hist := claheTileHist input width height gx gy L tx ty) in *.
  assert (Hb : Forall (fun c => (0 <= c <= n)%Z) (cdfFrom 0 hist)).
  { eapply Forall_impl; [|apply (cdfFrom_bounds 0 hist Hnn)].
    simpl. unfold n. rewrite <- Hsum. intros; lia. }
  assert (Hfinal : nth 255 (cdfFrom 0 hist) 0%Z = n).
  { assert (Hne : hist <> []) by (intros E; rewrite E in Hlen; discriminate).
    pose proof (cdfFrom_final 0 hist Hne) as Hf.
    rewrite Hlen in Hf. simpl in Hf. rewrite Hf. unfold n. lia. }
  assert (Hmin : (0 <= cdfMinOf (cdfFrom 0 hist) <= n)%Z).
  { apply cdfMinOf_bounds; [unfold n; lia|].
    eapply Forall_impl; [|exact Hb]. simpl. intros; lia. }
  split; [now rewrite cdfFrom_length|].
  split; [now apply cdfFrom_sorted|].
  split; [exact Hb|]. split; [exact Hfinal|].
  unfold denom, claheTileDenom, claheTileCdf, cdfOf. fold hist. fold n.
  split; [lia|].
  intro Hpos.
  assert (0 < cdfMinOf (cdfFrom 0 hist))%Z; [|lia].
  apply cdfMinOf_positive. apply Exists_exists.
  exists (nth 255 (cdfFrom 0 hist) 0%Z). split; [|lia].
  apply nth_In. rewrite cdfFrom_length, Hlen. lia.
Qed.

Lemma clahe_tile_cdf_witness :
  nth 255 (claheTileCdf [1; 2; 3; 4; 5; 6]%Z 3 2 2 1 2 1 0) 0%Z
  = Z.of_nat (actualTilePixels 3 2 2 1 1 0).
Proof.
  refine (proj1 (proj2 (proj2 (proj2
            (clahe_tile_cdf [1; 2; 3; 4; 5; 6]%Z 3 2 2 1 2 1 0 _ _ _))))).
  - split; [reflexivity | repeat constructor; lia].
  - lia.
  - lia.
Defined.

End KernelFacts.

(** ** The enhanced pipeline and the grayscale downscale *)

Module PipelineFacts.

Import Kernels KernelFacts Pipeline.

Lemma flat_pixel (c : Z) (width height y x : nat) :
  (y < height)%nat -> (x < width)%nat ->
  pixel (repeat c (width * height)) width y x = c.
Proof.
  intros Hy Hx. unfold pixel.
  apply nth_repeat_lt. now apply index_bound.
Qed.

Lemma flat_valid (c : Z) (width height : nat) :
  (0 <= c <= 255)%Z -> validImage (repeat c (width * height)) width height.
Proof.
  intro Hc. split; [apply repeat_length|].
  apply Forall_forall. intros v Hv. apply repeat_spec in Hv. lia.
Qed.

Lemma flat_from_pixels (c : Z) (width height : nat) (img : list Z) :
  length img = (width * height)%nat ->
  (forall y x, (y < height)%nat -> (x < width)%nat ->
               pixel img width y x = c) ->
  img = repeat c (width * height).
Proof.
  intros Hlen Hpix. apply (nth_ext _ _ 0%Z 0%Z).
  - now rewrite repeat_length.
  - intros i Hi. rewrite Hlen in Hi.
    rewrite nth_repeat_lt by exact Hi.
    rewrite (pixel_of_index img width height i Hi).
    destruct (index_split width height i Hi) as (Hy & Hx & _).
    now apply Hpix.
Qed.

Lemma dilateJS_flat (c : Z) (width height kernelSize : nat) :
  (0 <= c <= 255)%Z ->
  dilateJS (repeat c (width * height)) width height kernelSize
  = repeat c (width * height).
Proof.
  intro Hc. pose proof (flat_valid c width height Hc) as Hvalid.
  apply flat_from_pixels; [apply buildImage_length|].
  intros y x Hy Hx.
  assert (Hle : (c <= pixel (dilateJS (repeat c (width * height)) width
                                      height kernelSize) width y x)%Z).
  { pose proof (dilateJS_window _ width height kernelSize y x 0%Z 0%Z Hvalid
                  Hy Hx (zero_In_offsets _) (zero_In_offsets _)) as Hw.
    rewrite flat_pixel in Hw; [exact Hw| |]; apply clampCoord_lt; lia. }
  assert (Hin : (fun v => v = 0 \/ v = c)%Z
                  (pixel (dilateJS (repeat c (width * height)) width height
                                   kernelSize) width y x)).
  { unfold dilateJS. cbv zeta. rewrite buildImage_pixel by assumption.
    assert (Hflat : Forall (fun v => v = 0 \/ v = c)%Z
                           (repeat c (width * height))).
    { apply Forall_forall. intros v Hv. apply repeat_spec in Hv. now right. }
    assert (Htemp : Forall (fun v => v = 0 \/ v = c)%Z
                      (buildImage width height
                         (fun y x => maxAt (repeat c (width * height))
                                           (halfOf kernelSize)
                                           (besideIdx width y x)))).
    { apply buildImage_Forall. intros y' x' _ _.
      apply maxAt_closed; [now left | exact Hflat | apply Hvalid]. }
    apply maxAt_closed; [now left | exact Htemp |].
    eapply Forall_impl; [|exact Htemp]. intros v [-> | ->]; lia. }
  simpl in Hin. lia.
Qed.

Lemma erodeJS_flat (c : Z) (width height kernelSize : nat) :
  (0 <= c <= 255)%Z ->
  erodeJS (repeat c (width * height)) width height kernelSize
  = repeat c (width * height).
Proof.
  intro Hc. pose proof (flat_valid c width height Hc) as Hvalid.
  apply flat_from_pixels; [apply buildImage_length|].
  intros y x Hy Hx.
  assert (Hle : (pixel (erodeJS (repeat c (width * height)) width
                                height kernelSize) width y x <= c)%Z).
  { pose proof (erodeJS_window_le _ width height kernelSize y x 0%Z 0%Z
                  Hvalid Hy Hx (zero_In_offsets _) (zero_In_offsets _))
      as Hw.
    rewrite flat_pixel in Hw; [exact Hw| |]; apply clampCoord_lt; lia. }
  assert (Hge : (c <= pixel (erodeJS (repeat c (width * height)) width
                                     height kernelSize) width y x)%Z).
  { apply erodeJS_window; try assumption; [lia|].
    intros j k _ _. rewrite flat_pixel; [lia| |]; apply clampCoord_lt; lia. }
  lia.
Qed.

Lemma morphologicalCloseJS_flat (c : Z)
      (width height kernelSize iterations : nat) :
  (0 <= c <= 255)%Z ->
  morphologicalCloseJS (repeat c (width * height)) width height kernelSize
                       iterations
  = repeat c (width * height).
Proof.
  intro Hc. induction iterations as [|n IH]; simpl; [reflexivity|].
  now rewrite dilateJS_flat, erodeJS_flat by exact Hc.
Qed.

Lemma adaptiveThresholdJS_flat (c : Z) (width height : nat) (offset : Q) :
  Preprocessing.adaptiveThresholdJS
    (repeat c (width * height)) (repeat c (width * height)) width height
    offset true
  = repeat (if Qlt_le_dec 0 offset then 0%Z else 255%Z) (width * height).
Proof.
  apply (nth_ext _ _ 0%Z 0%Z).
  - now rewrite PreprocessingFacts.adaptiveThresholdJS_length,
      repeat_length.
  - intros i Hi. rewrite PreprocessingFacts.adaptiveThresholdJS_length in Hi.
    rewrite nth_repeat_lt by exact Hi.
    pose proof (PreprocessingFacts.adaptiveThresholdJS_nth
                  (repeat c (width * height)) (repeat c (width * height))
                  width height offset true i Hi) as Hnth.
    apply (nth_error_nth _ _ 0%Z) in Hnth. rewrite Hnth.
    assert (Hb : byteAt (repeat c (width * height)) i = Some c).
    { unfold byteAt.
      rewrite (nth_error_nth' _ 0%Z) by (now rewrite repeat_length).
      now rewrite nth_repeat_lt. }
    unfold Preprocessing.thresholdPixel, Preprocessing.strictNeq.
    pose proof (PreprocessingFacts.above_iff _ _ offset i c c Hb Hb) as Hab.
    destruct (Qlt_le_dec 0 offset) as [Hpos|Hneg].
    + assert (Ht : Preprocessing.above (repeat c (width * height))
                     (repeat c (width * height)) offset i = true).
      { apply Hab. Lqa.lra. }
      now rewrite Ht.
    + destruct (Preprocessing.above (repeat c (width * height))
                  (repeat c (width * height)) offset i) eqn:Ht;
        [|reflexivity].
      exfalso. pose proof (proj1 Hab eq_refl) as Hlt. Lqa.lra.
Qed.

(** X11.  A uniform image has no edges for the enhanced pipeline: when
    CLAHE is skipped, an image whose pixels all have one value comes out
    all black (0) for a positive threshold offset, the default 12
    included, and all white (255) for an offset of zero or below, whatever
    the kernel sizes and the number of closing iterations. *)
Theorem preprocess_uniform_image :
  forall claheJS c width height options,
    (0 <= c <= 255)%Z ->
    skipClahe options = Some true ->
    preprocessForDocumentDetection claheJS (repeat c (width * height))
                                   width height options
    = repeat (if Qlt_le_dec 0 (withDefault (thresholdOffset options) 12%Q)
              then 0%Z else 255%Z)
             (width * height).
Proof.
  intros claheJS c width height options Hc Hskip.
  unfold preprocessForDocumentDetection. cbv zeta.
  rewrite Hskip. cbn [withDefault].
  rewrite boxBlurJS_flat by exact Hc.
  rewrite adaptiveThresholdJS_flat.
  set (v := if Qlt_le_dec 0 _ then 0%Z else 255%Z).
  assert (Hv : (0 <= v <= 255)%Z) by (unfold v; destruct (Qlt_le_dec _ _); lia).
  rewrite morphologicalCloseJS_flat by exact Hv.
  rewrite map_repeat. now rewrite storeClamped_id.
Qed.


Lemma preprocess_uniform_image_witness :
  preprocessForDocumentDetection noClahe (repeat 128%Z (3 * 2)) 3 2
                                 skipClaheOptions
  = repeat 0%Z (3 * 2).
Proof.
  assert (Hc : (0 <= 128 <= 255)%Z) by lia.
  exact (preprocess_uniform_image noClahe 128%Z 3 2 skipClaheOptions Hc
                                  eq_refl).
Defined.

(** *** bilinearDownscaleGray *)

Lemma inject_nat_le (a b : nat) :
  (a <= b)%nat -> (inject_Z (Z.of_nat a) <= inject_Z (Z.of_nat b))%Q.
Proof. intro H. rewrite <- Zle_Qle. lia. Qed.

Lemma sourceCoord_bounds (src dst d : nat) :
  (0 < dst)%nat -> (dst <= src)%nat -> (d < dst)%nat ->
  let s :=
    sourceCoord d (inject_Z (Z.of_nat src) / inject_Z (Z.of_nat dst))%Q in
  (0 <= s)%Q /\ (s <= inject_Z (Z.of_nat src - 1))%Q.
Proof.
  intros Hdst Hle Hd. cbv zeta. unfold sourceCoord.
  assert (HD : (0 < inject_Z (Z.of_nat dst))%Q).
  { change 0%Q with (inject_Z 0). rewrite <- Zlt_Qlt. lia. }
  assert (HS : (inject_Z (Z.of_nat dst) <= inject_Z (Z.of_nat src))%Q)
    by now apply inject_nat_le.
  assert (Hd0 : (0 <= inject_Z (Z.of_nat d))%Q).
  { change 0%Q with (inject_Z 0). rewrite <- Zle_Qle. lia. }
  assert (Hd1 : (inject_Z (Z.of_nat d) + 1 <= inject_Z (Z.of_nat dst))%Q).
  { change 1%Q with (inject_Z 1). rewrite <- inject_Z_plus, <- Zle_Qle.
    lia. }
  assert (Hm1 : (inject_Z (Z.of_nat src - 1)
                 == inject_Z (Z.of_nat src) - 1)%Q).
  { unfold Z.sub. rewrite inject_Z_plus. reflexivity. }
  rewrite Hm1.
  set (qS := inject_Z (Z.of_nat src)) in *.
  set (qD := inject_Z (Z.of_nat dst)) in *.
  set (qd := inject_Z (Z.of_nat d)) in *.
  assert (Hr : (qS / qD * qD == qS)%Q).
  { field. intro Hz. rewrite Hz in HD. now apply Qlt_irrefl in HD. }
  set (r := (qS / qD)%Q) in *.
  assert (Hr1 : (1 <= r)%Q).
  { apply Qle_shift_div_l; [exact HD|]. now rewrite Qmult_1_l. }
  split; Lqa.nra.
Qed.

Lemma floor_within (limit : nat) (s : Q) :
  (0 <= s)%Q -> (s <= inject_Z (Z.of_nat limit - 1))%Q ->
  lowCoord limit s = Qfloor s
  /\ (0 <= Qfloor s <= Z.of_nat limit - 1)%Z
  /\ (0 <= s - inject_Z (Qfloor s))%Q
  /\ (s - inject_Z (Qfloor s) <= 1)%Q.
Proof.
  intros H0 H1.
  assert (Hlo : (0 <= Qfloor s)%Z).
  { change 0%Z with (Qfloor 0). now apply Qfloor_resp_le. }
  assert (Hhi : (Qfloor s <= Z.of_nat limit - 1)%Z).
  { rewrite <- (Qfloor_Z (Z.of_nat limit - 1)). now apply Qfloor_resp_le. }
  pose proof (Qfloor_le s) as Hfl. pose proof (Qlt_floor s) as Hlt.
  rewrite inject_Z_plus in Hlt. change (inject_Z 1) with 1%Q in Hlt.
  repeat split; try assumption.
  - unfold lowCoord. lia.
  - Lqa.lra.
  - Lqa.lra.
Qed.

Lemma sampleAt_valid (input : list Z) (width height : nat) (lo hi : Z)
      (y x : Z) :
  length input = (width * height)%nat ->
  Forall (fun v => (lo <= v <= hi)%Z) input ->
  (0 <= y <= Z.of_nat height - 1)%Z -> (0 <= x <= Z.of_nat width - 1)%Z ->
  exists v,
    sampleAt input (y * Z.of_nat width + x) = Some v /\ (lo <= v <= hi)%Z
    /\ v = pixel input width (Z.to_nat y) (Z.to_nat x).
Proof.
  intros Hlen Hall Hy Hx. unfold sampleAt.
  assert (Hneg : (y * Z.of_nat width + x <? 0)%Z = false)
    by (apply Z.ltb_ge; nia).
  rewrite Hneg.
  assert (Hidx : Z.to_nat (y * Z.of_nat width + x)
                 = (Z.to_nat y * width + Z.to_nat x)%nat) by nia.
  rewrite Hidx.
  assert (Hlt : (Z.to_nat y * width + Z.to_nat x < length input)%nat).
  { rewrite Hlen. apply index_bound; lia. }
  exists (nth (Z.to_nat y * width + Z.to_nat x) input 0%Z).
  split; [|split].
  - unfold byteAt. now apply nth_error_nth'.
  - rewrite Forall_forall in Hall. apply Hall. now apply nth_In.
  - reflexivity.
Qed.

Lemma weighted_mean_bounds (a b c d lo hi : Z) (fx fy : Q) :
  (lo <= a <= hi)%Z -> (lo <= b <= hi)%Z ->
  (lo <= c <= hi)%Z -> (lo <= d <= hi)%Z ->
  (0 <= fx)%Q -> (fx <= 1)%Q -> (0 <= fy)%Q -> (fy <= 1)%Q ->
  (lo <= Qfloor (inject_Z a * (1 - fx) * (1 - fy)
                 + inject_Z b * fx * (1 - fy)
                 + inject_Z c * (1 - fx) * fy
                 + inject_Z d * fx * fy + (1 # 2))
   <= hi)%Z.
Proof.
  intros Ha Hb Hc Hd Hx0 Hx1 Hy0 Hy1.
  set (q := (inject_Z a * (1 - fx) * (1 - fy)
             + inject_Z b * fx * (1 - fy)
             + inject_Z c * (1 - fx) * fy
             + inject_Z d * fx * fy)%Q).
  assert (Hq : (inject_Z lo <= q)%Q /\ (q <= inject_Z hi)%Q).
  { destruct Ha as [Ha1 Ha2], Hb as [Hb1 Hb2], Hc as [Hc1 Hc2],
             Hd as [Hd1 Hd2].
    rewrite Zle_Qle in Ha1, Ha2, Hb1, Hb2, Hc1, Hc2, Hd1, Hd2.
    assert (W1 : (0 <= (1 - fx) * (1 - fy))%Q)
      by (apply Qmult_le_0_compat; Lqa.lra).
    assert (W2 : (0 <= fx * (1 - fy))%Q)
      by (apply Qmult_le_0_compat; Lqa.lra).
    assert (W3 : (0 <= (1 - fx) * fy)%Q)
      by (apply Qmult_le_0_compat; Lqa.lra).
    assert (W4 : (0 <= fx * fy)%Q)
      by (apply Qmult_le_0_compat; Lqa.lra).
    assert (Hsplit : (q == inject_Z a * ((1 - fx) * (1 - fy))
                          + inject_Z b * (fx * (1 - fy))
                          + inject_Z c * ((1 - fx) * fy)
                          + inject_Z d * (fx * fy))%Q)
      by (unfold q; ring).
    assert (Hone : ((1 - fx) * (1 - fy) + fx * (1 - fy) + (1 - fx) * fy
                    + fx * fy == 1)%Q) by ring.
    set (w1 := ((1 - fx) * (1 - fy))%Q) in *.
    set (w2 := (fx * (1 - fy))%Q) in *.
    set (w3 := ((1 - fx) * fy)%Q) in *.
    set (w4 := (fx * fy)%Q) in *.
    rewrite Hsplit. split; Lqa.nra. }
  destruct Hq as [Hq1 Hq2]. split.
  - rewrite <- (Qfloor_Z lo). apply Qfloor_resp_le. Lqa.lra.
  - apply Z.lt_succ_r. rewrite Zlt_Qlt.
    eapply Qle_lt_trans; [apply Qfloor_le|].
    unfold Z.succ. rewrite inject_Z_plus. change (inject_Z 1) with 1%Q.
    Lqa.lra.
Qed.

Lemma highCoord_within (limit : nat) (c0 : Z) :
  (0 <= c0 <= Z.of_nat limit - 1)%Z ->
  (0 <= highCoord limit c0 <= Z.of_nat limit - 1)%Z.
Proof. unfold highCoord. lia. Qed.

Lemma downscalePixel_bounds (input : list Z)
      (srcWidth srcHeight dstWidth dstHeight : nat) (lo hi : Z)
      (dy dx : nat) :
  length input = (srcWidth * srcHeight)%nat ->
  Forall (fun v => (lo <= v <= hi)%Z) input ->
  (0 <= lo)%Z -> (hi <= 255)%Z ->
  (0 < dstWidth <= srcWidth)%nat -> (0 < dstHeight <= srcHeight)%nat ->
  (dy < dstHeight)%nat -> (dx < dstWidth)%nat ->
  (lo <= downscalePixel input srcWidth srcHeight
           (inject_Z (Z.of_nat srcWidth) / inject_Z (Z.of_nat dstWidth))
           (inject_Z (Z.of_nat srcHeight) / inject_Z (Z.of_nat dstHeight))
           dy dx
   <= hi)%Z.
Proof.
  intros Hlen Hall Hlo Hhi [Hw0 Hw] [Hh0 Hh] Hdy Hdx.
  unfold downscalePixel. cbv zeta.
  destruct (sourceCoord_bounds srcWidth dstWidth dx Hw0 Hw Hdx)
    as [Hsx0 Hsx1].
  destruct (sourceCoord_bounds srcHeight dstHeight dy Hh0 Hh Hdy)
    as [Hsy0 Hsy1].
  cbv zeta in Hsx0, Hsx1, Hsy0, Hsy1.
  destruct (floor_within srcWidth _ Hsx0 Hsx1) as (Hx0 & Hxr & Hfx0 & Hfx1).
  destruct (floor_within srcHeight _ Hsy0 Hsy1) as (Hy0 & Hyr & Hfy0 & Hfy1).
  rewrite Hx0, Hy0.
  pose proof (highCoord_within srcWidth _ Hxr) as Hx1r.
  pose proof (highCoord_within srcHeight _ Hyr) as Hy1r.
  unfold interpolate.
  destruct (sampleAt_valid input srcWidth srcHeight lo hi _ _ Hlen Hall
              Hyr Hxr) as (a & -> & Ha & _).
  destruct (sampleAt_valid input srcWidth srcHeight lo hi _ _ Hlen Hall
              Hyr Hx1r) as (b & -> & Hb & _).
  destruct (sampleAt_valid input srcWidth srcHeight lo hi _ _ Hlen Hall
              Hy1r Hxr) as (c & -> & Hc & _).
  destruct (sampleAt_valid input srcWidth srcHeight lo hi _ _ Hlen Hall
              Hy1r Hx1r) as (d & -> & Hd & _).
  cbn [option_map].
  pose proof (weighted_mean_bounds a b c d lo hi _ _ Ha Hb Hc Hd
                Hfx0 Hfx1 Hfy0 Hfy1) as Hm.
  rewrite storeClamped_id; lia.
Qed.


Lemma sourceCoord_same (limit d : nat) :
  (0 < limit)%nat ->
  (sourceCoord d (inject_Z (Z.of_nat limit) / inject_Z (Z.of_nat limit))
   == inject_Z (Z.of_nat d))%Q.
Proof.
  intro Hl. unfold sourceCoord.
  assert (HL : (0 < inject_Z (Z.of_nat limit))%Q).
  { change 0%Q with (inject_Z 0). rewrite <- Zlt_Qlt. lia. }
  field. intro Hz. rewrite Hz in HL. now apply Qlt_irrefl in HL.
Qed.

Lemma downscalePixel_same (input : list Z) (width height : nat)
      (dy dx : nat) :
  validImage input width height ->
  (dy < height)%nat -> (dx < width)%nat ->
  downscalePixel input width height
    (inject_Z (Z.of_nat width) / inject_Z (Z.of_nat width))
    (inject_Z (Z.of_nat height) / inject_Z (Z.of_nat height))
    dy dx
  = pixel input width dy dx.
Proof.
  intros [Hlen Hall] Hdy Hdx. unfold downscalePixel. cbv zeta.
  pose proof (sourceCoord_same width dx ltac:(lia)) as Hsx.
  pose proof (sourceCoord_same height dy ltac:(lia)) as Hsy.
  set (sx := sourceCoord dx _) in *. set (sy := sourceCoord dy _) in *.
  assert (Hfx : Qfloor sx = Z.of_nat dx)
    by (rewrite (Qfloor_comp _ _ Hsx); apply Qfloor_Z).
  assert (Hfy : Qfloor sy = Z.of_nat dy)
    by (rewrite (Qfloor_comp _ _ Hsy); apply Qfloor_Z).
  assert (Hx0 : lowCoord width sx = Z.of_nat dx)
    by (unfold lowCoord; rewrite Hfx; lia).
  assert (Hy0 : lowCoord height sy = Z.of_nat dy)
    by (unfold lowCoord; rewrite Hfy; lia).
  rewrite Hx0, Hy0.
  assert (Hxr : (0 <= Z.of_nat dx <= Z.of_nat width - 1)%Z) by lia.
  assert (Hyr : (0 <= Z.of_nat dy <= Z.of_nat height - 1)%Z) by lia.
  pose proof (highCoord_within width _ Hxr) as Hx1r.
  pose proof (highCoord_within height _ Hyr) as Hy1r.
  unfold interpolate.
  destruct (sampleAt_valid input width height 0 255 _ _ Hlen Hall Hyr Hxr)
    as (a & -> & Ha & Hpix).
  destruct (sampleAt_valid input width height 0 255 _ _ Hlen Hall Hyr Hx1r)
    as (b & -> & _ & _).
  destruct (sampleAt_valid input width height 0 255 _ _ Hlen Hall Hy1r Hxr)
    as (c & -> & _ & _).
  destruct (sampleAt_valid input width height 0 255 _ _ Hlen Hall Hy1r Hx1r)
    as (d & -> & _ & _).
  cbn [option_map]. rewrite !Nat2Z.id in Hpix. rewrite <- Hpix.
  assert (Hq : (inject_Z a * (1 - (sx - inject_Z (Z.of_nat dx)))
                * (1 - (sy - inject_Z (Z.of_nat dy)))
                + inject_Z b * (sx - inject_Z (Z.of_nat dx))
                  * (1 - (sy - inject_Z (Z.of_nat dy)))
                + inject_Z c * (1 - (sx - inject_Z (Z.of_nat dx)))
                  * (sy - inject_Z (Z.of_nat dy))
                + inject_Z d * (sx - inject_Z (Z.of_nat dx))
                  * (sy - inject_Z (Z.of_nat dy)) + (1 # 2)
                == inject_Z a + (1 # 2))%Q).
  { rewrite Hsx, Hsy. ring. }
  rewrite (Qfloor_comp _ _ Hq), Qfloor_half.
  now apply storeClamped_id.
Qed.

(** X12.  Downscaling a grayscale buffer to a size no larger than its own
    yields a buffer of the requested size whose samples stay within the
    range of the input, and scaling to the same size changes nothing. *)
Theorem bilinearDownscaleGray_range :
  forall input srcWidth srcHeight dstWidth dstHeight lo hi,
    length input = (srcWidth * srcHeight)%nat ->
    Forall (fun v => (lo <= v <= hi)%Z) input ->
    (0 <= lo)%Z -> (hi <= 255)%Z ->
    (dstWidth <= srcWidth)%nat -> (dstHeight <= srcHeight)%nat ->
    let output :=
      bilinearDownscaleGray input srcWidth srcHeight dstWidth dstHeight in
    length output = (dstWidth * dstHeight)%nat
    /\ Forall (fun v => (lo <= v <= hi)%Z) output
    /\ (dstWidth = srcWidth -> dstHeight = srcHeight -> output = input).
Proof.
  intros input sw sh dw dh lo hi Hlen Hall Hlo Hhi Hw Hh. cbv zeta.
  unfold bilinearDownscaleGray. cbv zeta.
  split; [apply buildImage_length|]. split.
  - apply buildImage_Forall. intros y x Hy Hx.
    apply (downscalePixel_bounds input sw sh dw dh lo hi y x); try assumption;
      lia.
  - intros -> ->.
    assert (Hvalid : validImage input sw sh).
    { split; [exact Hlen|]. eapply Forall_impl; [|exact Hall].
      simpl. intros v Hv. lia. }
    transitivity (buildImage sw sh (pixel input sw)).
    + apply buildImage_ext. intros y x Hy Hx.
      now apply downscalePixel_same.
    + now apply buildImage_pixel_id.
Qed.

Lemma bilinearDownscaleGray_range_witness :
  Forall (fun v => (10 <= v <= 200)%Z)
         (bilinearDownscaleGray [10; 200; 10; 40; 50; 60; 70; 80]%Z 4 2 2 1).
Proof.
  refine (proj1 (proj2 (bilinearDownscaleGray_range
                          [10; 200; 10; 40; 50; 60; 70; 80]%Z 4 2 2 1 10 200
                          _ _ _ _ _ _))).
  - reflexivity.
  - repeat constructor; lia.
  - lia.
  - lia.
  - lia.
  - lia.
Defined.

End PipelineFacts.

(** ** Geometry of the contour filter *)

Module GeometryFacts.

Import ContourFilter Shapes.

Lemma angleBetween_bounds (p0 p1 p2 : point) :
  0 <= angleBetween p0 p1 p2 <= 180.
Proof.
  unfold angleBetween. cbv zeta.
  destruct (Reqb _ 0 || Reqb _ 0); [lra|].
  set (c := Rmax (-1) (Rmin 1 _)).
  pose proof (acos_bound c) as [Hlo Hhi].
  pose proof PI_RGT_0 as Hpi.
  assert (Hk : 0 < 180 / PI) by (apply Rdiv_lt_0_compat; lra).
  split.
  - apply Rmult_le_pos; lra.
  - replace 180 with (PI * (180 / PI)) at 2 by (field; lra).
    apply Rmult_le_compat_r; lra.
Qed.

Lemma angleBetween_sym (p0 p1 p2 : point) :
  angleBetween p0 p1 p2 = angleBetween p2 p1 p0.
Proof.
  unfold angleBetween. cbv zeta.
  rewrite (orb_comm (Reqb (sqrt ((px p0 - px p1) * (px p0 - px p1)
                                 + (py p0 - py p1) * (py p0 - py p1))) 0)).
  rewrite (Rmult_comm (sqrt ((px p0 - px p1) * (px p0 - px p1)
                             + (py p0 - py p1) * (py p0 - py p1)))).
  replace ((px p0 - px p1) * (px p2 - px p1)
           + (py p0 - py p1) * (py p2 - py p1))
    with ((px p2 - px p1) * (px p0 - px p1)
          + (py p2 - py p1) * (py p0 - py p1)) by ring.
  reflexivity.
Qed.

(** X13.  The angle at a vertex is between 0 and 180 degrees and does not
    depend on the order of its two neighbours. *)
Theorem angleBetween_range :
  forall p0 p1 p2,
    0 <= angleBetween p0 p1 p2 <= 180
    /\ angleBetween p0 p1 p2 = angleBetween p2 p1 p0.
Proof.
  intros. split; [apply angleBetween_bounds | apply angleBetween_sym].
Qed.

Lemma hasReasonableAngles_intro (points : list point) (minAngle maxAngle : R) :
  (3 <= length points)%nat ->
  (forall i, (i < length points)%nat ->
             minAngle <= angleAt points (length points) i <= maxAngle) ->
  hasReasonableAngles points minAngle maxAngle = true.
Proof.
  intros Hn Hall. unfold hasReasonableAngles. cbv zeta.
  apply Nat.ltb_ge in Hn. rewrite Hn.
  apply forallb_forall. intros i Hi. apply in_seq in Hi.
  specialize (Hall i ltac:(lia)).
  apply negb_true_iff, orb_false_iff.
  split; apply Rltb_false_iff; lra.
Qed.

(** X14.  Widening the admissible range never turns an accepted polygon
    into a rejected one; a range covering 0..180 accepts every polygon of
    three or more vertices, and an empty range accepts none. *)
Theorem angle_range_monotone :
  forall points minAngle maxAngle,
    (forall minAngle' maxAngle',
        hasReasonableAngles points minAngle maxAngle = true ->
        minAngle' <= minAngle -> maxAngle <= maxAngle' ->
        hasReasonableAngles points minAngle' maxAngle' = true)
    /\ ((3 <= length points)%nat -> minAngle <= 0 -> 180 <= maxAngle ->
        hasReasonableAngles points minAngle maxAngle = true)
    /\ (maxAngle < minAngle ->
        hasReasonableAngles points minAngle maxAngle = false).
Proof.
  intros points minAngle maxAngle. split; [|split].
  - intros min' max' Hok Hmin Hmax.
    apply AngleFacts.hasReasonableAngles_inv in Hok.
    destruct Hok as [Hn Hall].
    apply hasReasonableAngles_intro; [exact Hn|].
    intros i Hi. specialize (Hall i Hi). lra.
  - intros Hn Hmin Hmax. apply hasReasonableAngles_intro; [exact Hn|].
    intros i Hi. pose proof (angleBetween_bounds
                               (at_ points ((i + length points - 1)
                                            mod length points))
                               (at_ points i)
                               (at_ points ((i + 1) mod length points))).
    unfold angleAt. lra.
  - intro Hempty.
    destruct (hasReasonableAngles points minAngle maxAngle) eqn:Hok;
      [|reflexivity].
    apply AngleFacts.hasReasonableAngles_inv in Hok.
    destruct Hok as [Hn Hall]. specialize (Hall 0%nat ltac:(lia)). lra.
Qed.

Lemma angle_range_monotone_witness :
  hasReasonableAngles (Examples.rectangle 5 5) 60 120 = true.
Proof.
  refine (proj1 (angle_range_monotone (Examples.rectangle 5 5) 70 110)
                60 120 _ _ _).
  - apply RectangleFacts.rectangle_reasonable; lra.
  - lra.
  - lra.
Defined.

(** *** Degenerate polygons *)

Lemma isConvex_all_zero (points : list point) :
  (3 <= length points)%nat ->
  (forall i, (i < length points)%nat ->
             crossAt points (length points) i = 0) ->
  isConvex points = true.
Proof.
  intros Hn Hall. unfold isConvex. cbv zeta.
  apply Nat.ltb_ge in Hn. rewrite Hn.
  apply RectangleFacts.isConvexLoop_nonneg; [|now left].
  intros i Hi. apply in_seq in Hi. rewrite Hall by lia. lra.
Qed.

(** X15.  With fewer than three vertices the area and the angle score are
    0 and both shape tests fail; any list that is not four points long has
    aspect ratio 1.  A polygon of three or more vertices whose cross
    products all vanish (collinear or repeated points) counts as convex. *)
Theorem degenerate_polygons :
  forall points,
    ((length points < 3)%nat ->
     contourArea points = 0
     /\ isConvex points = false
     /\ (forall minAngle maxAngle,
            hasReasonableAngles points minAngle maxAngle = false)
     /\ computeAngleScore points = 0)
    /\ (length points <> 4%nat -> quadAspectRatio points = Fin 1)
    /\ ((3 <= length points)%nat ->
        (forall i, (i < length points)%nat ->
                   crossAt points (length points) i = 0) ->
        isConvex points = true).
Proof.
  intro points. split; [|split].
  - intro Hn. apply Nat.ltb_lt in Hn.
    unfold contourArea, isConvex, hasReasonableAngles, computeAngleScore.
    cbv zeta. rewrite Hn. repeat split; reflexivity.
  - intro Hn. unfold quadAspectRatio.
    apply Nat.eqb_neq in Hn. now rewrite Hn.
  - apply isConvex_all_zero.
Qed.

Lemma degenerate_polygons_witness :
  isConvex [mkPoint 0 0; mkPoint 1 1; mkPoint 2 2] = true
  /\ contourArea [mkPoint 0 0; mkPoint 1 1] = 0.
Proof.
  destruct (degenerate_polygons [mkPoint 0 0; mkPoint 1 1; mkPoint 2 2])
    as (_ & _ & Hcol).
  destruct (degenerate_polygons [mkPoint 0 0; mkPoint 1 1]) as (Hshort & _).
  split.
  - apply Hcol; [simpl; lia|].
    intros i Hi. simpl in Hi.
    assert (Hc : (i = 0 \/ i = 1 \/ i = 2)%nat) by lia.
    destruct Hc as [->|[->| ->]]; unfold crossAt; simpl; lra.
  - apply Hshort. simpl. lia.
Defined.


(** *** Rectangles anywhere in the image *)

Section RectangleAt.

Variables x0 y0 w h : R.
Hypothesis w_pos : 0 < w.
Hypothesis h_pos : 0 < h.

Lemma rectangleAt_area : contourArea (rectangleAt x0 y0 w h) = w * h.
Proof.
  unfold contourArea, rectangleAt. simpl.
  match goal with
  | |- Rabs ?e / 2 = _ => replace e with (2 * (w * h)) by ring
  end.
  rewrite Rabs_right by nra. field.
Qed.

Lemma rectangleAt_convex : isConvex (rectangleAt x0 y0 w h) = true.
Proof.
  unfold isConvex. simpl length. simpl Nat.ltb. cbv iota.
  apply RectangleFacts.isConvexLoop_nonneg; [|now left].
  intros i Hi. simpl in Hi.
  repeat (destruct Hi as [<-|Hi]; [unfold crossAt; simpl; nra|]).
  contradiction.
Qed.

Lemma rectangleAt_angle (i : nat) :
  (i < 4)%nat -> angleAt (rectangleAt x0 y0 w h) 4 i = 90.
Proof.
  intro Hi. assert (Hcases : (i = 0 \/ i = 1 \/ i = 2 \/ i = 3)%nat) by lia.
  destruct Hcases as [->|[->|[->| ->]]]; unfold angleAt; simpl;
    apply RectangleFacts.angleBetween_right; simpl; nra.
Qed.

Lemma rectangleAt_angleScore : computeAngleScore (rectangleAt x0 y0 w h) = 1.
Proof.
  unfold computeAngleScore. simpl length. simpl Nat.ltb. cbv iota zeta.
  simpl seq. simpl fold_left.
  rewrite !rectangleAt_angle by lia.
  replace (90 - 90) with 0 by ring. rewrite Rabs_R0.
  simpl INR.
  replace (1 - (0 + 0 + 0 + 0 + 0) / (1 + 1 + 1 + 1) / 30) with 1 by field.
  rewrite Rmin_left by lra. apply Rmax_right. lra.
Qed.

Lemma rectangleAt_aspect :
  quadAspectRatio (rectangleAt x0 y0 w h) = Fin (w / h).
Proof.
  unfold quadAspectRatio, quadWidth, quadHeight, edgeLength. simpl.
  replace ((x0 + w - x0) * (x0 + w - x0) + (y0 - y0) * (y0 - y0))
    with (w * w + 0) by ring.
  replace ((x0 - (x0 + w)) * (x0 - (x0 + w))
           + (y0 + h - (y0 + h)) * (y0 + h - (y0 + h)))
    with (w * w + 0) by ring.
  replace ((x0 + w - (x0 + w)) * (x0 + w - (x0 + w))
           + (y0 + h - y0) * (y0 + h - y0))
    with (h * h + 0) by ring.
  replace ((x0 - x0) * (x0 - x0) + (y0 - (y0 + h)) * (y0 - (y0 + h)))
    with (h * h + 0) by ring.
  rewrite !RectangleFacts.sqrt_axis by lra.
  assert (Hh : Reqb ((h + h) / 2) 0 = false) by (apply Reqb_false_iff; lra).
  rewrite Hh. f_equal. field. lra.
Qed.

Lemma bowtieAt_not_convex : isConvex (bowtieAt x0 y0 w h) = false.
Proof.
  unfold isConvex. simpl length. simpl Nat.ltb. cbv iota.
  simpl seq. cbn [isConvexLoop].
  assert (H0 : crossAt (bowtieAt x0 y0 w h) 4 0 = w * h)
    by (unfold crossAt; simpl; ring).
  assert (H1 : crossAt (bowtieAt x0 y0 w h) 4 1 = - (w * h))
    by (unfold crossAt; simpl; ring).
  rewrite H0, H1.
  assert (Hz0 : Reqb (w * h) 0 = false) by (apply Reqb_false_iff; nra).
  assert (Hz1 : Reqb (- (w * h)) 0 = false) by (apply Reqb_false_iff; nra).
  rewrite Hz0, Hz1. simpl negb. cbv iota.
  assert (Hs0 : signOf (w * h) = 1%Z).
  { unfold signOf.
    assert (Hp : Rltb 0 (w * h) = true) by (apply Rltb_true_iff; nra).
    now rewrite Hp. }
  assert (Hs1 : signOf (- (w * h)) = (-1)%Z).
  { unfold signOf.
    assert (Hp : Rltb 0 (- (w * h)) = false) by (apply Rltb_false_iff; nra).
    now rewrite Hp. }
  rewrite Hs0, Hs1. reflexivity.
Qed.

End RectangleAt.

(** X16.  An axis-aligned rectangle anywhere in the plane, listed around
    its boundary, has area [w * h], is convex, has four angles of 90
    degrees, angle score 1 and aspect ratio [w / h]. *)
Theorem axis_aligned_rectangle :
  forall x0 y0 w h,
    0 < w -> 0 < h ->
    contourArea (rectangleAt x0 y0 w h) = w * h
    /\ isConvex (rectangleAt x0 y0 w h) = true
    /\ (forall i, (i < 4)%nat -> angleAt (rectangleAt x0 y0 w h) 4 i = 90)
    /\ computeAngleScore (rectangleAt x0 y0 w h) = 1
    /\ quadAspectRatio (rectangleAt x0 y0 w h) = Fin (w / h).
Proof.
  intros x0 y0 w h Hw Hh.
  split; [now apply rectangleAt_area|].
  split; [now apply rectangleAt_convex|].
  split; [intros i Hi; now apply rectangleAt_angle|].
  split; [now apply rectangleAt_angleScore | now apply rectangleAt_aspect].
Qed.

Lemma axis_aligned_rectangle_witness :
  computeAngleScore (rectangleAt 3 4 20 10) = 1
  /\ quadAspectRatio (rectangleAt 3 4 20 10) = Fin (20 / 10).
Proof.
  destruct (axis_aligned_rectangle 3 4 20 10) as (_ & _ & _ & Hs & Ha).
  - lra.
  - lra.
  - exact (conj Hs Ha).
Defined.

(** X17.  The same four corners listed in crossing order fail the
    convexity test, so the filter pushes no candidate for such an
    approximation. *)
Theorem bowtie_rejected :
  forall x0 y0 w h approximatePolygon o imageArea c eps,
    0 < w -> 0 < h ->
    isConvex (bowtieAt x0 y0 w h) = false
    /\ (approximatePolygon (points c) eps = Some (bowtieAt x0 y0 w h) ->
        evalEpsilon approximatePolygon o imageArea c eps = None).
Proof.
  intros x0 y0 w h ap o imageArea c eps Hw Hh.
  pose proof (bowtieAt_not_convex x0 y0 w h Hw Hh) as Hnc.
  split; [exact Hnc|].
  intro Hap. unfold evalEpsilon. cbv zeta. rewrite Hap, Hnc.
  change (length (bowtieAt x0 y0 w h)) with 4%nat. simpl negb. cbv iota.
  destruct (Rltb _ _ || Rltb _ _); reflexivity.
Qed.

Lemma bowtie_rejected_witness :
  isConvex (bowtieAt 0 0 100 100) = false.
Proof.
  refine (proj1 (bowtie_rejected 0 0 100 100 Examples.alwaysSquare
                   noOptions 1 Examples.sheet 0.02 _ _)); lra.
Defined.

(** *** Aspect ratio and the starting vertex *)

Lemma edgeLength_nonneg points i : 0 <= edgeLength points i.
Proof. unfold edgeLength. apply sqrt_pos. Qed.

(** X18.  Starting the vertex list one vertex later swaps the roles of
    width and height: the aspect ratio becomes its reciprocal. *)
Theorem aspect_ratio_rotation :
  forall a b c d,
    quadWidth (rotateQuad [a; b; c; d]) = quadHeight [a; b; c; d]
    /\ quadHeight (rotateQuad [a; b; c; d]) = quadWidth [a; b; c; d]
    /\ (quadWidth [a; b; c; d] <> 0 -> quadHeight [a; b; c; d] <> 0 ->
        exists r,
          0 < r
          /\ quadAspectRatio [a; b; c; d] = Fin r
          /\ quadAspectRatio (rotateQuad [a; b; c; d]) = Fin (/ r)).
Proof.
  intros a b c d.
  assert (Hw : quadWidth (rotateQuad [a; b; c; d]) = quadHeight [a; b; c; d]).
  { unfold quadWidth, quadHeight, edgeLength. simpl. reflexivity. }
  assert (Hh : quadHeight (rotateQuad [a; b; c; d]) = quadWidth [a; b; c; d]).
  { unfold quadWidth, quadHeight, edgeLength. simpl.
    now rewrite Rplus_comm. }
  split; [exact Hw|]. split; [exact Hh|].
  intros Hwn Hhn.
  assert (Hwp : 0 < quadWidth [a; b; c; d]).
  { pose proof (edgeLength_nonneg [a; b; c; d] 0).
    pose proof (edgeLength_nonneg [a; b; c; d] 2).
    unfold quadWidth in *. lra. }
  assert (Hhp : 0 < quadHeight [a; b; c; d]).
  { pose proof (edgeLength_nonneg [a; b; c; d] 1).
    pose proof (edgeLength_nonneg [a; b; c; d] 3).
    unfold quadHeight in *. lra. }
  exists (quadWidth [a; b; c; d] / quadHeight [a; b; c; d]).
  split; [now apply Rdiv_lt_0_compat|]. split.
  - unfold quadAspectRatio. simpl length. simpl negb. cbv iota zeta.
    apply Reqb_false_iff in Hhn. now rewrite Hhn.
  - unfold quadAspectRatio.
    change (length (rotateQuad [a; b; c; d])) with 4%nat.
    simpl negb. cbv iota zeta. rewrite Hw, Hh.
    apply Reqb_false_iff in Hwn. rewrite Hwn. f_equal. field. lra.
Qed.

Lemma aspect_ratio_rotation_witness :
  exists r,
    0 < r
    /\ quadAspectRatio (Examples.rectangle 4 2) = Fin r
    /\ quadAspectRatio (rotateQuad (Examples.rectangle 4 2)) = Fin (/ r).
Proof.
  assert (Ha : quadAspectRatio (Examples.rectangle 4 2) = Fin (4 / 2))
    by (apply RectangleFacts.rectangle_aspect; lra).
  assert (Hh : quadHeight (Examples.rectangle 4 2) <> 0).
  { intro Hz. unfold quadAspectRatio in Ha. simpl length in Ha.
    simpl negb in Ha. cbv iota zeta in Ha.
    rewrite Hz, Reqb_refl in Ha. discriminate. }
  assert (Hw : quadWidth (Examples.rectangle 4 2) <> 0).
  { intro Hz. unfold quadAspectRatio in Ha. simpl length in Ha.
    simpl negb in Ha. cbv iota zeta in Ha.
    apply Reqb_false_iff in Hh. rewrite Hh, Hz in Ha.
    injection Ha as Ha. lra. }
  exact (proj2 (proj2 (aspect_ratio_rotation
                         (mkPoint 0 0) (mkPoint 4 0) (mkPoint 4 2)
                         (mkPoint 0 2))) Hw Hh).
Defined.

End GeometryFacts.

(** ** What the filter returns *)

Module FilterResults.

Import ContourFilter FilterFacts SortFacts.

Lemma computeAngleScore_bounds (points : list point) :
  0 <= computeAngleScore points <= 1.
Proof.
  unfold computeAngleScore. cbv zeta.
  destruct (length points <? 3)%nat; [lra|].
  split.
  - apply Rmax_l.
  - apply Rmax_lub; [lra | apply Rmin_l].
Qed.

Section Results.

Variable approximatePolygon : list point -> R -> option (list point).

(** A candidate of the epsilon loop comes from an epsilon of the list. *)
Lemma contourCandidates_In (o : options) (imageArea : R) (c : contour)
      (cand : candidate) :
  In cand (contourCandidates approximatePolygon o imageArea c) ->
  (4 <= length (points c))%nat
  /\ exists eps,
      In eps (epsilonsOf o)
      /\ admitted approximatePolygon o imageArea c eps cand.
Proof.
  unfold contourCandidates.
  destruct (Nat.ltb_spec (length (points c)) 4); [contradiction|].
  intro Hin. split; [assumption|].
  apply tryEpsilons_In in Hin. destruct Hin as (eps & Heps & Hev).
  exists eps. split; [exact Heps | now apply evalEpsilon_Some].
Qed.

Lemma collectCandidates_origin (o : options) (imageWidth imageHeight : R)
      (contours : list contour) (cand : candidate) :
  In cand (collectCandidates approximatePolygon o imageWidth imageHeight
                             contours) ->
  exists c eps,
    In c contours /\ (4 <= length (points c))%nat
    /\ In eps (epsilonsOf o)
    /\ admitted approximatePolygon o (imageWidth * imageHeight) c eps cand.
Proof.
  unfold collectCandidates. cbv zeta. rewrite in_flat_map.
  intros (c & Hc & Hin). apply contourCandidates_In in Hin.
  destruct Hin as (Hlen & eps & Heps & Hadm).
  exists c, eps. auto.
Qed.

Lemma findDocumentContour_None (contours : list contour)
      (imageWidth imageHeight : R) (o : options) :
  findDocumentContour approximatePolygon contours imageWidth imageHeight o
  = None
  <-> collectCandidates approximatePolygon o imageWidth imageHeight contours
      = [].
Proof.
  unfold findDocumentContour. split.
  - intro Hnone.
    destruct (collectCandidates approximatePolygon o imageWidth imageHeight
                                contours) as [|g l] eqn:Hc; [reflexivity|].
    destruct (sortByScore_nonempty cand_score (g :: l)) as (b & r & Hs);
      [discriminate|].
    rewrite Hs in Hnone. discriminate.
  - intros ->. reflexivity.
Qed.

Lemma findDocumentContour_Some (contours : list contour)
      (imageWidth imageHeight : R) (o : options) (best : candidate) :
  findDocumentContour approximatePolygon contours imageWidth imageHeight o
  = Some best ->
  In best (collectCandidates approximatePolygon o imageWidth imageHeight
                             contours)
  /\ forall g,
      In g (collectCandidates approximatePolygon o imageWidth imageHeight
                              contours) ->
      cand_score g <= cand_score best.
Proof.
  unfold findDocumentContour. intro Hhd.
  destruct (sortByScore cand_score
              (collectCandidates approximatePolygon o imageWidth imageHeight
                                 contours)) as [|b rest] eqn:Hsort;
    [discriminate|].
  simpl in Hhd. injection Hhd as ->.
  exact (sortByScore_head cand_score _ best rest Hsort).
Qed.

End Results.

(** X19.  The filter returns nothing exactly when no approximation passed
    the checks (in particular for an empty contour list).  What it returns
    comes from one of the given contours, which has at least four points,
    and from one of the epsilons of the list; it passed every check of the
    loop, and no other candidate scores higher. *)
Theorem findDocumentContour_sound :
  forall approximatePolygon contours imageWidth imageHeight o,
    (findDocumentContour approximatePolygon contours imageWidth imageHeight o
     = None
     <-> collectCandidates approximatePolygon o imageWidth imageHeight
                           contours = [])
    /\ findDocumentContour approximatePolygon [] imageWidth imageHeight o
       = None
    /\ (forall best,
           findDocumentContour approximatePolygon contours imageWidth
                               imageHeight o = Some best ->
           (exists c eps,
               In c contours /\ (4 <= length (points c))%nat
               /\ In eps (epsilonsOf o)
               /\ admitted approximatePolygon o (imageWidth * imageHeight)
                           c eps best)
           /\ forall g,
               In g (collectCandidates approximatePolygon o imageWidth
                                       imageHeight contours) ->
               cand_score g <= cand_score best).
Proof.
  intros ap contours W H o.
  split; [apply findDocumentContour_None|]. split; [reflexivity|].
  intros best Hbest.
  destruct (findDocumentContour_Some ap contours W H o best Hbest)
    as [Hin Hmax].
  split; [now apply collectCandidates_origin | exact Hmax].
Qed.

Lemma findDocumentContour_sound_witness :
  exists c eps,
    In c [Examples.sheet] /\ (4 <= length (points c))%nat
    /\ In eps (epsilonsOf Examples.areaHeavy)
    /\ admitted Examples.coarseThenFine Examples.areaHeavy (10 * 10) c eps
                (Examples.squareCandidate 9 0.02 0.9 0.1).
Proof.
  refine (proj1 (proj2 (proj2 (findDocumentContour_sound
                                 Examples.coarseThenFine [Examples.sheet]
                                 10 10 Examples.areaHeavy))
                       (Examples.squareCandidate 9 0.02 0.9 0.1) _)).
  unfold findDocumentContour.
  rewrite FilterClaims.collectCandidates_coarseThenFine.
  assert (Hlt : Rltb (cand_score (Examples.squareCandidate 5 0.01 0.9 0.1))
                     (cand_score (Examples.squareCandidate 9 0.02 0.9 0.1))
                = true) by (apply Rltb_true_iff; simpl; lra).
  unfold sortByScore. cbn [fold_right insertByScore].
  rewrite Hlt. reflexivity.
Defined.

(** X20.  Every candidate the filter pushes has an angle score between 0
    and 1 and an area fraction within the configured bounds.  With weights
    that are non-negative and sum to 1, area bounds within 0..1 and an
    image of positive area, its composite score lies between 0 and 1. *)
Theorem candidate_score_bounds :
  forall approximatePolygon o imageWidth imageHeight contours cand,
    0 < imageWidth * imageHeight ->
    In cand (collectCandidates approximatePolygon o imageWidth imageHeight
                               contours) ->
    0 <= cand_angleScore cand <= 1
    /\ orDefault (minAreaRatio o) 0.15
       <= cand_area cand / (imageWidth * imageHeight)
       <= orDefault (maxAreaRatio o) 0.98
    /\ (0 <= orDefault (areaWeight o) 0.4 ->
        0 <= orDefault (angleWeight o) 0.6 ->
        orDefault (areaWeight o) 0.4 + orDefault (angleWeight o) 0.6 = 1 ->
        0 <= orDefault (minAreaRatio o) 0.15 ->
        orDefault (maxAreaRatio o) 0.98 <= 1 ->
        0 <= cand_score cand <= 1).
Proof.
  intros ap o W H contours cand Harea Hin.
  apply collectCandidates_In in Hin. destruct Hin as (c & eps & _ & Hadm).
  remember (W * H) as A eqn:HA. clear HA W H.
  pose proof (adm_angleScore _ _ _ _ _ _ Hadm) as Hs.
  pose proof (adm_area_bounds _ _ _ _ _ _ Hadm) as Hb.
  pose proof (adm_score _ _ _ _ _ _ Hadm) as Hscore.
  pose proof (computeAngleScore_bounds (cand_approx cand)) as Hang.
  rewrite <- Hs in Hang.
  assert (Hratio : orDefault (minAreaRatio o) 0.15
                   <= cand_area cand / A
                   <= orDefault (maxAreaRatio o) 0.98).
  { assert (Hinv : 0 <= / A)
      by (left; apply Rinv_0_lt_compat; exact Harea).
    split.
    - replace (orDefault (minAreaRatio o) 0.15)
        with (A * orDefault (minAreaRatio o) 0.15 * / A)
        by (field; lra).
      apply Rmult_le_compat_r; [exact Hinv | apply Hb].
    - replace (orDefault (maxAreaRatio o) 0.98)
        with (A * orDefault (maxAreaRatio o) 0.98 * / A)
        by (field; lra).
      apply Rmult_le_compat_r; [exact Hinv | apply Hb]. }
  split; [exact Hang|]. split; [exact Hratio|].
  intros Haw Hgw Hsum Hmin Hmax. rewrite Hscore.
  set (a := cand_area cand / A) in *.
  set (s := cand_angleScore cand) in *.
  set (aw := orDefault (areaWeight o) 0.4) in *.
  set (gw := orDefault (angleWeight o) 0.6) in *.
  assert (Ha : 0 <= a <= 1) by lra.
  split; nra.
Qed.

Lemma candidate_score_bounds_witness :
  0 <= cand_score (Examples.squareCandidate 9 0.02 0.9 0.1) <= 1.
Proof.
  refine (proj2 (proj2 (candidate_score_bounds Examples.coarseThenFine
                          Examples.areaHeavy 10 10 [Examples.sheet]
                          (Examples.squareCandidate 9 0.02 0.9 0.1) _ _))
                _ _ _ _ _).
  - lra.
  - rewrite FilterClaims.collectCandidates_coarseThenFine. simpl. auto.
  - simpl. lra.
  - simpl. lra.
  - simpl. lra.
  - simpl. lra.
  - simpl. lra.
Defined.

End FilterResults.

(** ** Rounding to a double *)

Module DoubleFacts.

Import Doubles.

Lemma pow2_pos (e : Z) : (0 < pow2 e)%Q.
Proof. unfold pow2. apply Qpower_0_lt. reflexivity. Qed.

Lemma pow2_plus (a b : Z) : (pow2 (a + b) == pow2 a * pow2 b)%Q.
Proof. unfold pow2. apply Qpower_plus. discriminate. Qed.

Lemma pow2_inject (k : Z) : (0 <= k)%Z -> (pow2 k == inject_Z (2 ^ k))%Q.
Proof. intro Hk. unfold pow2. now rewrite Zpower_Qpower. Qed.

(** Rounding to the nearest integer moves a value by at most a half. *)
Lemma roundHalfEven_near (r : Q) :
  (inject_Z (roundHalfEven r) - (1 # 2) <= r)%Q
  /\ (r <= inject_Z (roundHalfEven r) + (1 # 2))%Q.
Proof.
  unfold roundHalfEven. cbv zeta.
  pose proof (Qfloor_le r) as Hlo. pose proof (Qlt_floor r) as Hhi.
  rewrite inject_Z_plus in Hhi. change (inject_Z 1) with 1%Q in Hhi.
  destruct (Qcompare (r - inject_Z (Qfloor r)) (1 # 2)) eqn:Hc.
  - apply Qeq_alt in Hc.
    destruct (Z.even (Qfloor r)).
    + split; Lqa.lra.
    + rewrite inject_Z_plus. change (inject_Z 1) with 1%Q. split; Lqa.lra.
  - apply Qlt_alt in Hc. split; Lqa.lra.
  - apply Qgt_alt in Hc. rewrite inject_Z_plus. change (inject_Z 1) with 1%Q.
    split; Lqa.lra.
Qed.

(** The scaled value has at least 53 bits before the point. *)
Lemma exponentOf_scaled (q : Q) :
  (0 < q)%Q -> (pow2 52 * pow2 (exponentOf q) <= q)%Q.
Proof.
  intro Hq. unfold exponentOf. cbv zeta.
  destruct q as [n d]. cbn [Qnum Qden].
  assert (Hn : (0 < n)%Z).
  { unfold Qlt in Hq. simpl in Hq. lia. }
  set (ln := Z.log2 n). set (ld := Z.log2 (Z.pos d)).
  pose proof (Z.log2_spec n Hn) as [Hn1 _]. fold ln in Hn1.
  pose proof (Z.log2_spec (Z.pos d) ltac:(lia)) as [_ Hd2]. fold ld in Hd2.
  pose proof (Z.log2_nonneg n) as Hln0. fold ln in Hln0.
  pose proof (Z.log2_nonneg (Z.pos d)) as Hld0. fold ld in Hld0.
  assert (Hlow : (pow2 ln <= (n # d) * pow2 (ld + 1))%Q).
  { rewrite (pow2_inject ln Hln0), (pow2_inject (ld + 1)) by lia.
    unfold Z.succ in Hd2.
    unfold Qle, Qmult, inject_Z. cbn [Qnum Qden].
    rewrite Z.mul_1_r, Pos.mul_1_r.
    assert (H2 : (0 < 2 ^ ln)%Z) by (apply Z.pow_pos_nonneg; lia).
    nia. }
  set (e0 := (ln - ld - 52)%Z).
  assert (He0 : (pow2 51 * pow2 e0 <= n # d)%Q).
  { assert (Hsplit : (pow2 ln == pow2 51 * pow2 e0 * pow2 (ld + 1))%Q).
    { rewrite <- !pow2_plus. unfold e0.
      replace (51 + (ln - ld - 52) + (ld + 1))%Z with ln by lia.
      reflexivity. }
    rewrite Hsplit in Hlow.
    pose proof (pow2_pos (ld + 1)) as Hp.
    apply (Qmult_le_r _ _ _ Hp). exact Hlow. }
  pose proof (pow2_pos e0) as Hpe.
  destruct (Qcompare ((n # d) / pow2 e0) (pow2 52)) eqn:Hc.
  - apply Qeq_alt in Hc.
    assert (Heq : (n # d == pow2 52 * pow2 e0)%Q).
    { rewrite <- Hc. field. intro Hz. rewrite Hz in Hpe.
      now apply Qlt_irrefl in Hpe. }
    rewrite Heq. apply Qle_refl.
  - replace (e0 - 1)%Z with (e0 + -1)%Z by lia.
    rewrite pow2_plus.
    assert (Hhalf : (pow2 52 * (pow2 e0 * pow2 (-1))
                     == pow2 51 * pow2 e0)%Q).
    { change (pow2 52) with (Qpower 2 52).
      change (pow2 51) with (Qpower 2 51).
      change (pow2 (-1)) with (Qpower 2 (-1)).
      setoid_replace (Qpower 2 52) with (2 * Qpower 2 51)%Q by reflexivity.
      setoid_replace (Qpower 2 (-1)) with (1 # 2)%Q by reflexivity.
      ring. }
    rewrite Hhalf. exact He0.
  - apply Qgt_alt in Hc.
    apply Qlt_le_weak in Hc.
    apply (Qmult_le_r _ _ _ Hpe) in Hc.
    assert (Heq : ((n # d) / pow2 e0 * pow2 e0 == n # d)%Q).
    { field. intro Hz. rewrite Hz in Hpe. now apply Qlt_irrefl in Hpe. }
    rewrite Heq in Hc. exact Hc.
Qed.

Lemma roundPositive_error (q : Q) :
  (0 < q)%Q ->
  (q * (1 - unitRoundoff) <= roundPositive q)%Q
  /\ (roundPositive q <= q * (1 + unitRoundoff))%Q.
Proof.
  intro Hq. unfold roundPositive. cbv zeta.
  rewrite Qred_correct.
  pose proof (exponentOf_scaled q Hq) as Hsc.
  set (P := pow2 (exponentOf q)) in *.
  assert (HP : (0 < P)%Q) by apply pow2_pos.
  destruct (roundHalfEven_near (q / P)) as [Hlo Hhi].
  set (m := inject_Z (roundHalfEven (q / P))) in *.
  assert (Hq' : (q / P * P == q)%Q).
  { field. intro Hz. rewrite Hz in HP. now apply Qlt_irrefl in HP. }
  apply (Qmult_le_r _ _ _ HP) in Hlo, Hhi.
  rewrite Hq' in Hlo, Hhi.
  assert (H52 : (pow2 52 == inject_Z (2 ^ 52))%Q)
    by (apply pow2_inject; lia).
  rewrite H52 in Hsc.
  assert (Hu : (unitRoundoff * inject_Z (2 ^ 52) == 1 # 2)%Q) by reflexivity.
  assert (Hhalf : ((1 # 2) * P <= q * unitRoundoff)%Q).
  { rewrite <- Hu.
    setoid_replace (unitRoundoff * inject_Z (2 ^ 52) * P)%Q
      with (inject_Z (2 ^ 52) * P * unitRoundoff)%Q by ring.
    apply Qmult_le_compat_r; [exact Hsc | discriminate]. }
  split; Lqa.lra.
Qed.

(** A double differs from the value it rounds by at most the fraction
    [2^-53] of that value. *)
Lemma roundDouble_error (q : Q) :
  (0 <= q)%Q ->
  (q * (1 - unitRoundoff) <= roundDouble q)%Q
  /\ (roundDouble q <= q * (1 + unitRoundoff))%Q.
Proof.
  intro Hq. unfold roundDouble.
  destruct (Qcompare q 0) eqn:Hc.
  - apply Qeq_alt in Hc. rewrite Hc. split; discriminate.
  - apply Qlt_alt in Hc. exfalso. Lqa.lra.
  - apply Qgt_alt in Hc. now apply roundPositive_error.
Qed.

Lemma inject_Z_positive (z : Z) : (0 < z)%Z -> (0 < inject_Z z)%Q.
Proof. intro Hz. unfold Qlt, inject_Z. simpl. lia. Qed.

Lemma inject_Z_nonneg (z : Z) : (0 <= z)%Z -> (0 <= inject_Z z)%Q.
Proof. intro Hz. unfold Qle, inject_Z. simpl. lia. Qed.

(** The scale [maxDimension / maxCurrentDimension] as a double. *)
Lemma scale_error (m M : Z) :
  (0 < m)%Z -> (0 < M)%Z ->
  let s := roundDouble (inject_Z m / inject_Z M) in
  (inject_Z m * (1 - unitRoundoff) <= s * inject_Z M)%Q
  /\ (s * inject_Z M <= inject_Z m * (1 + unitRoundoff))%Q.
Proof.
  intros Hm HM. cbv zeta.
  pose proof (inject_Z_positive m Hm) as Hqm.
  pose proof (inject_Z_positive M HM) as HqM.
  assert (Hx : (0 <= inject_Z m / inject_Z M)%Q).
  { apply Qle_shift_div_l; [exact HqM|]. Lqa.lra. }
  destruct (roundDouble_error _ Hx) as [Hlo Hhi].
  set (s := roundDouble (inject_Z m / inject_Z M)) in *.
  assert (Hxm : (inject_Z m / inject_Z M * inject_Z M == inject_Z m)%Q).
  { field. intro Hz. rewrite Hz in HqM. now apply Qlt_irrefl in HqM. }
  set (x := (inject_Z m / inject_Z M)%Q) in *.
  apply Qlt_le_weak in HqM.
  pose proof (Qmult_le_compat_r _ _ _ Hlo HqM) as Hlo'.
  pose proof (Qmult_le_compat_r _ _ _ Hhi HqM) as Hhi'.
  assert (E1 : (x * (1 - unitRoundoff) * inject_Z M
                == inject_Z m * (1 - unitRoundoff))%Q)
    by (rewrite <- Hxm; ring).
  assert (E2 : (x * (1 + unitRoundoff) * inject_Z M
                == inject_Z m * (1 + unitRoundoff))%Q)
    by (rewrite <- Hxm; ring).
  rewrite E1 in Hlo'. rewrite E2 in Hhi'. split; assumption.
Qed.


(** A side scaled in doubles and rounded: the nearest integer to the
    exact quotient [W * m / M], either neighbour at a tie. *)
Lemma scaled_side (W m M : Z) :
  (0 < m)%Z -> (m < M)%Z -> (0 <= W <= M)%Z -> (M <= 2 ^ 25)%Z ->
  let s := roundDouble (inject_Z m / inject_Z M) in
  let t := Driver.jsRound (roundDouble (inject_Z W * s)) in
  (2 * W * m - M <= 2 * M * t <= 2 * W * m + M)%Z.
Proof.
  intros Hm HmM HW HM. cbv zeta.
  assert (HM0 : (0 < M)%Z) by lia.
  destruct (scale_error m M Hm HM0) as [Hslo Hshi]. cbv zeta in Hslo, Hshi.
  set (s := roundDouble (inject_Z m / inject_Z M)) in *.
  pose proof (inject_Z_positive m Hm) as Hqm.
  pose proof (inject_Z_positive M HM0) as HqM.
  pose proof (inject_Z_nonneg W (proj1 HW)) as HqW.
  assert (Hu : (unitRoundoff == 1 # 9007199254740992)%Q) by reflexivity.
  assert (Hs0 : (0 <= s)%Q).
  { apply (Qmult_le_r _ _ _ HqM). rewrite Qmult_0_l.
    eapply Qle_trans; [|exact Hslo]. rewrite Hu.
    apply Qmult_le_0_compat; [Lqa.lra | discriminate]. }
  assert (Hy0 : (0 <= inject_Z W * s)%Q) by now apply Qmult_le_0_compat.
  destruct (roundDouble_error _ Hy0) as [Hplo Hphi].
  set (p := roundDouble (inject_Z W * s)) in *.
  unfold Driver.jsRound.
  pose proof (Qfloor_le (p + (1 # 2))) as Hfl.
  pose proof (Qlt_floor (p + (1 # 2))) as Hfu.
  set (t := Qfloor (p + (1 # 2))) in *.
  rewrite inject_Z_plus in Hfu. change (inject_Z 1) with 1%Q in Hfu.
  (* everything times [M] *)
  set (qM := inject_Z M) in *. set (qW := inject_Z W) in *.
  set (qm := inject_Z m) in *.
  assert (HqM' : (0 <= qM)%Q) by now apply Qlt_le_weak.
  assert (HK : (qW * qm <= inject_Z (2 ^ 50))%Q).
  { unfold qW, qm. rewrite <- inject_Z_mult, <- Zle_Qle.
    change (2 ^ 50)%Z with (2 ^ 25 * 2 ^ 25)%Z. nia. }
  assert (HK0 : (0 <= qW * qm)%Q)
    by (apply Qmult_le_0_compat; [exact HqW | now apply Qlt_le_weak]).
  assert (Ha_hi : (qW * (s * qM) <= qW * qm * (1 + unitRoundoff))%Q).
  { rewrite <- Qmult_assoc. rewrite !(Qmult_comm qW).
    apply Qmult_le_compat_r; assumption. }
  assert (Ha_lo : (qW * qm * (1 - unitRoundoff) <= qW * (s * qM))%Q).
  { rewrite <- Qmult_assoc. rewrite !(Qmult_comm qW).
    apply Qmult_le_compat_r; assumption. }
  assert (Hp_hi : (p * qM <= qW * (s * qM) * (1 + unitRoundoff))%Q).
  { setoid_replace (qW * (s * qM) * (1 + unitRoundoff))%Q
      with (qW * s * (1 + unitRoundoff) * qM)%Q by ring.
    apply Qmult_le_compat_r; assumption. }
  assert (Hp_lo : (qW * (s * qM) * (1 - unitRoundoff) <= p * qM)%Q).
  { setoid_replace (qW * (s * qM) * (1 - unitRoundoff))%Q
      with (qW * s * (1 - unitRoundoff) * qM)%Q by ring.
    apply Qmult_le_compat_r; assumption. }
  assert (Hu1 : (0 <= 1 + unitRoundoff)%Q) by (rewrite Hu; discriminate).
  assert (Hu2 : (0 <= 1 - unitRoundoff)%Q) by (rewrite Hu; discriminate).
  pose proof (Qmult_le_compat_r _ _ _ Ha_hi Hu1) as Hpp_hi.
  pose proof (Qmult_le_compat_r _ _ _ Ha_lo Hu2) as Hpp_lo.
  pose proof (Qmult_le_compat_r _ _ _ Hfl HqM') as Ht_hi.
  assert (Ht_lo : ((p + (1 # 2)) * qM <= (inject_Z t + 1) * qM)%Q).
  { apply Qmult_le_compat_r; [now apply Qlt_le_weak | exact HqM']. }
  set (K := (qW * qm)%Q) in *.
  set (A := (qW * (s * qM))%Q) in *.
  set (PM := (p * qM)%Q) in *.
  assert (Hexp_hi : ((p + (1 # 2)) * qM == PM + (1 # 2) * qM)%Q)
    by (unfold PM; ring).
  rewrite Hexp_hi in Ht_hi, Ht_lo.
  assert (HTM : (inject_Z t * qM == inject_Z (M * t))%Q)
    by (unfold qM; rewrite inject_Z_mult; ring).
  assert (HT1 : ((inject_Z t + 1) * qM == inject_Z (M * t) + qM)%Q)
    by (unfold qM; rewrite inject_Z_mult; ring).
  rewrite HTM in Ht_hi. rewrite HT1 in Ht_lo.
  assert (HKz : (K == inject_Z (W * m))%Q)
    by (unfold K, qW, qm; now rewrite inject_Z_mult).
  rewrite Hu in *.
  change (inject_Z (2 ^ 50)) with (1125899906842624 # 1)%Q in HK.
  assert (E2 : (inject_Z (2 * M * t) == 2 * inject_Z (M * t))%Q).
  { replace (2 * M * t)%Z with (2 * (M * t))%Z by ring.
    now rewrite inject_Z_mult. }
  assert (E3 : (inject_Z (2 * W * m + M + 1) == 2 * K + qM + 1)%Q).
  { replace (2 * W * m)%Z with (2 * (W * m))%Z by ring.
    rewrite !inject_Z_plus, inject_Z_mult, HKz. reflexivity. }
  assert (E4 : (inject_Z (2 * W * m - M - 1) == 2 * K - qM - 1)%Q).
  { replace (2 * W * m - M - 1)%Z with (2 * (W * m) + - M + - 1)%Z by ring.
    rewrite !inject_Z_plus, inject_Z_mult, !inject_Z_opp, HKz.
    unfold qM. change (inject_Z 1) with 1%Q. change (inject_Z 2) with 2%Q.
    ring. }
  assert (Hup : (inject_Z (2 * M * t) < inject_Z (2 * W * m + M + 1))%Q).
  { rewrite E2, E3. set (T := inject_Z (M * t)) in *.
    clearbody K A PM qM T. clear - HK HK0 Hp_hi Hpp_hi Ht_hi HqM'.
    Lqa.lra. }
  assert (Hdn : (inject_Z (2 * W * m - M - 1) < inject_Z (2 * M * t))%Q).
  { rewrite E2, E4. set (T := inject_Z (M * t)) in *.
    clearbody K A PM qM T. clear - HK HK0 Hp_lo Hpp_lo Ht_lo HqM'.
    Lqa.lra. }
  rewrite <- Zlt_Qlt in Hup, Hdn. lia.
Qed.


(** The scale factor [1 / scale] as a double: within the fraction
    [2^-51] of [M / m], and above 1. *)
Lemma scaleFactor_error (m M : Z) :
  (0 < m)%Z -> (m < M)%Z -> (M <= 2 ^ 25)%Z ->
  let s := roundDouble (inject_Z m / inject_Z M) in
  let f := roundDouble (1 / s) in
  (inject_Z M * (1 - (1 # 2 ^ 51)) <= f * inject_Z m)%Q
  /\ (f * inject_Z m <= inject_Z M * (1 + (1 # 2 ^ 51)))%Q
  /\ (1 < f)%Q.
Proof.
  intros Hm HmM HM. cbv zeta.
  assert (HM0 : (0 < M)%Z) by lia.
  destruct (scale_error m M Hm HM0) as [Hslo Hshi]. cbv zeta in Hslo, Hshi.
  set (s := roundDouble (inject_Z m / inject_Z M)) in *.
  pose proof (inject_Z_positive m Hm) as Hqm.
  pose proof (inject_Z_positive M HM0) as HqM.
  assert (Hu : (unitRoundoff == 1 # 9007199254740992)%Q) by reflexivity.
  assert (Hs0 : (0 < s)%Q).
  { apply (Qmult_lt_r _ _ _ HqM). rewrite Qmult_0_l.
    eapply Qlt_le_trans; [|exact Hslo]. rewrite Hu.
    apply Qmult_lt_0_compat; [exact Hqm | reflexivity]. }
  assert (Hr0 : (0 < 1 / s)%Q).
  { apply Qlt_shift_div_l; [exact Hs0|]. now rewrite Qmult_0_l. }
  assert (Hrs : (1 / s * s == 1)%Q).
  { field. intro Hz. rewrite Hz in Hs0. now apply Qlt_irrefl in Hs0. }
  destruct (roundDouble_error (1 / s) (Qlt_le_weak _ _ Hr0)) as [Hflo Hfhi].
  set (r := (1 / s)%Q) in *.
  set (f := roundDouble r) in *.
  set (qm := inject_Z m) in *. set (qM := inject_Z M) in *.
  assert (Hr0' : (0 <= r)%Q) by now apply Qlt_le_weak.
  assert (Hqm' : (0 <= qm)%Q) by now apply Qlt_le_weak.
  (* [B = r * qm] lies between [qM / (1 + u)] and [qM / (1 - u)] *)
  assert (HB_hi : (r * qm * (1 - unitRoundoff) <= qM)%Q).
  { setoid_replace qM with (r * (s * qM))%Q
      by (setoid_replace (r * (s * qM))%Q with (r * s * qM)%Q by ring;
          rewrite Hrs; ring).
    setoid_replace (r * qm * (1 - unitRoundoff))%Q
      with (r * (qm * (1 - unitRoundoff)))%Q by ring.
    rewrite !(Qmult_comm r).
    apply Qmult_le_compat_r; assumption. }
  assert (HB_lo : (qM <= r * qm * (1 + unitRoundoff))%Q).
  { setoid_replace qM with (r * (s * qM))%Q at 1
      by (setoid_replace (r * (s * qM))%Q with (r * s * qM)%Q by ring;
          rewrite Hrs; ring).
    setoid_replace (r * qm * (1 + unitRoundoff))%Q
      with (r * (qm * (1 + unitRoundoff)))%Q by ring.
    rewrite !(Qmult_comm r).
    apply Qmult_le_compat_r; assumption. }
  pose proof (Qmult_le_compat_r _ _ _ Hflo Hqm') as Hf_lo.
  pose proof (Qmult_le_compat_r _ _ _ Hfhi Hqm') as Hf_hi.
  assert (E1 : (r * (1 - unitRoundoff) * qm
                == r * qm * (1 - unitRoundoff))%Q) by ring.
  assert (E2 : (r * (1 + unitRoundoff) * qm
                == r * qm * (1 + unitRoundoff))%Q) by ring.
  rewrite E1 in Hf_lo. rewrite E2 in Hf_hi.
  assert (HqMb : (qm + 1 <= qM)%Q).
  { unfold qm, qM. change 1%Q with (inject_Z 1).
    rewrite <- inject_Z_plus, <- Zle_Qle. lia. }
  assert (Hqmb : (qm <= 33554432)%Q).
  { unfold qm. change 33554432%Q with (inject_Z (2 ^ 25)).
    rewrite <- Zle_Qle. lia. }
  rewrite Hu in *.
  change (1 # 2 ^ 51)%Q with (1 # 2251799813685248)%Q.
  set (B := (r * qm)%Q) in *. set (F := (f * qm)%Q) in *.
  assert (Hlo : (qM * (1 - (1 # 2251799813685248)) <= F)%Q).
  { clearbody B F qM qm. clear - HB_lo Hf_lo Hqm' HqMb. Lqa.lra. }
  assert (Hhi : (F <= qM * (1 + (1 # 2251799813685248)))%Q).
  { clearbody B F qM qm. clear - HB_hi Hf_hi Hqm' HqMb. Lqa.lra. }
  split; [exact Hlo|]. split; [exact Hhi|].
  apply (Qmult_lt_r _ _ _ Hqm). rewrite Qmult_1_l. fold F.
  clearbody B F qM qm. clear - Hlo HqMb Hqmb Hqm'. Lqa.lra.
Qed.

End DoubleFacts.

(** ** The driver beyond the selection stage *)

Module DriverFacts.

Import ContourFilter Driver DriverShapes SortFacts FilterFacts.
Import Examples ScanExamples HostExamples.

Lemma scalePoint_one (p : point) : scalePoint 1 p = p.
Proof. destruct p as [x y]. unfold scalePoint. simpl. f_equal; ring. Qed.

Lemma scaleCorners_one (cp : corners) : scaleCorners 1 cp = cp.
Proof.
  destruct cp. unfold scaleCorners. simpl.
  now rewrite !scalePoint_one.
Qed.

Section Run.

Variable approximatePolygon : list point -> R -> option (list point).
Variable preprocessForDocumentDetection :
  binary -> Z -> Z -> scanOptions -> option binary.
Variable detectDocumentContour : binary -> R -> Z -> Z -> list contour.
Variable cannyEdgeDetector : binary -> Z -> Z -> R -> R -> completion binary.
Variable findCornerPoints : contour -> option R -> option corners.

(** A pooled candidate carries one of the contours it was filtered
    from. *)
Lemma filterInto_contour (s : strategy) (contours : list contour)
      (width height : Z) (o : scanOptions) (p : pooled) :
  In p (filterInto approximatePolygon s contours width height o) ->
  In (cand_contour (filtered p)) contours.
Proof.
  unfold filterInto. destruct contours as [|c0 rest]; [contradiction|].
  destruct (findDocumentContour approximatePolygon (c0 :: rest) (IZR width)
              (IZR height) (filterOptions o)) as [f|] eqn:Hf;
    [|contradiction].
  intros [<-|[]]. simpl.
  unfold findDocumentContour in Hf.
  destruct (sortByScore cand_score _) as [|b r] eqn:Hs; [discriminate|].
  simpl in Hf. injection Hf as ->.
  destruct (sortByScore_head cand_score _ f r Hs) as [Hin _].
  apply collectCandidates_In in Hin.
  destruct Hin as (c & eps & Hc & Hadm).
  now rewrite (adm_contour _ _ _ _ _ _ Hadm).
Qed.

Lemma strategyEnhanced_traced (gray : binary) (width height : Z)
      (scaleFactor : R) (o : scanOptions) (st : state) :
  tracedState detectDocumentContour o scaleFactor width height st ->
  tracedState detectDocumentContour o scaleFactor width height
    (strategyEnhanced approximatePolygon preprocessForDocumentDetection
                      detectDocumentContour gray width height scaleFactor
                      o st).
Proof.
  intros [Hc Hf]. unfold strategyEnhanced.
  destruct (preprocessForDocumentDetection gray width height o) as [pre|];
    [|now split].
  split; simpl; [|exact Hf].
  intros p Hin. apply in_app_or in Hin. destruct Hin as [Hin|Hin].
  - now apply Hc.
  - exists pre. now apply filterInto_contour in Hin.
Qed.

Lemma strategyCanny_traced (s : strategy) (low high : R) (gray : binary)
      (width height : Z) (scaleFactor : R) (o : scanOptions)
      (st st' : state) :
  tracedState detectDocumentContour o scaleFactor width height st ->
  strategyCanny approximatePolygon detectDocumentContour cannyEdgeDetector
                s low high gray width height scaleFactor o st
  = Returned st' ->
  tracedState detectDocumentContour o scaleFactor width height st'.
Proof.
  intros [Hc Hf]. unfold strategyCanny.
  destruct (cannyEdgeDetector gray width height low high) as [edges|msg];
    [|discriminate].
  intro Heq. injection Heq as <-. split; simpl.
  - intros p Hin. apply in_app_or in Hin. destruct Hin as [Hin|Hin].
    + now apply Hc.
    + exists edges. now apply filterInto_contour in Hin.
  - intros c.
    destruct (detectDocumentContour edges (minAreaOf o scaleFactor) width
                height) as [|c0 rest] eqn:Hd; [apply Hf|].
    unfold keepFallback.
    destruct (fallbackContour st) as [c1|] eqn:Hfb.
    + intro Heq. injection Heq as <-. now apply Hf.
    + simpl. intro Heq. injection Heq as <-.
      exists edges. rewrite Hd. now left.
Qed.

Lemma runStrategies_traced (gray : binary) (width height : Z)
      (scaleFactor : R) (o : scanOptions) (ev : list event) (st : state) :
  runStrategies approximatePolygon preprocessForDocumentDetection
                detectDocumentContour cannyEdgeDetector
                gray width height scaleFactor o = (ev, Returned st) ->
  tracedState detectDocumentContour o scaleFactor width height st.
Proof.
  unfold runStrategies. cbv zeta.
  assert (H1 : tracedState detectDocumentContour o scaleFactor width height
                 (strategyEnhanced approximatePolygon
                    preprocessForDocumentDetection detectDocumentContour
                    gray width height scaleFactor o initialState)).
  { apply strategyEnhanced_traced. split; simpl.
    - contradiction.
    - discriminate. }
  destruct (useFallbackOf o).
  - destruct (strategyCanny approximatePolygon detectDocumentContour
                cannyEdgeDetector CannyFallback _ _ gray width height
                scaleFactor o _) as [st2|msg] eqn:H2; [|discriminate].
    intro Heq. injection Heq as _ H3.
    eapply strategyCanny_traced; [|exact H3].
    eapply strategyCanny_traced; [exact H1 | exact H2].
  - intro Heq. injection Heq as _ <-. exact H1.
Qed.

Lemma pickDocumentContour_traced (o : scanOptions) (scaleFactor : R)
      (width height : Z) (st : state) (c : contour) :
  tracedState detectDocumentContour o scaleFactor width height st ->
  pickDocumentContour st = Some c ->
  tracedBy detectDocumentContour (minAreaOf o scaleFactor) width height c.
Proof.
  intros [Hc Hf]. unfold pickDocumentContour.
  destruct (allCandidates st) as [|p0 rest] eqn:Hall; [apply Hf|].
  destruct (sortByScore pooledScore (p0 :: rest)) as [|best r] eqn:Hs;
    [discriminate|].
  intro Heq. injection Heq as <-. apply Hc.
  exact (proj1 (sortByScore_head pooledScore _ best r Hs)).
Qed.

Lemma finish_shape (dc : option contour) (scaleFactor : R)
      (o : scanOptions) :
  let d := finish findCornerPoints dc scaleFactor o in
  (success d = true ->
   message d = None
   /\ exists c cp,
       dc = Some c
       /\ findCornerPoints c (opt_epsilon o) = Some cp
       /\ det_contour d = Some c
       /\ det_corners d = Some (scaleCorners scaleFactor cp))
  /\ (success d = false ->
      det_contour d = None /\ det_corners d = None
      /\ ((dc = None /\ message d = Some noDocumentMessage)
          \/ (exists c, dc = Some c
                        /\ findCornerPoints c (opt_epsilon o) = None
                        /\ message d = message noCorners))).
Proof.
  cbv zeta. unfold finish.
  destruct dc as [c|].
  - destruct (findCornerPoints c (opt_epsilon o)) as [cp|] eqn:Hcp.
    + split; [|discriminate]. intros _. split; [reflexivity|].
      exists c, cp. split; [reflexivity|]. split; [exact Hcp|].
      split; [reflexivity|]. simpl.
      destruct (Reqb scaleFactor 1) eqn:Hone.
      * apply Reqb_true_iff in Hone. subst.
        now rewrite scaleCorners_one.
      * reflexivity.
    + split; [discriminate|]. intros _. repeat split.
      right. exists c. auto.
  - split; [discriminate|]. intros _. repeat split. left. auto.
Qed.

End Run.

(** X21.  A scan that returns reports success exactly with a contour and
    four corners, under the message "Document detected".  The contour is
    one the tracer produced on the target dimensions, and the corners are
    those [findCornerPoints] found on it, multiplied by the scale factor.
    A scan that returns without success carries neither contour nor
    corners. *)
Theorem scan_result_shape :
  forall approximatePolygon preprocessForDocumentDetection
         detectDocumentContour cannyEdgeDetector findCornerPoints rasterize
         image o ev d,
    scanDocument approximatePolygon preprocessForDocumentDetection
                 detectDocumentContour cannyEdgeDetector findCornerPoints
                 rasterize image o
    = (ev, Returned d) ->
    exists img,
      image = Some img
      /\ let dm := targetDimensions img (orZ (maxProcessingDimension o) 2000)
         in
         (success d = true ->
          message d = Some detectedMessage
          /\ exists c cp,
              det_contour d = Some c
              /\ tracedBy detectDocumentContour
                          (minAreaOf o (Q2R (scaleFactor dm)))
                          (targetWidth dm) (targetHeight dm) c
              /\ findCornerPoints c (opt_epsilon o) = Some cp
              /\ det_corners d
                 = Some (scaleCorners (Q2R (scaleFactor dm)) cp))
         /\ (success d = false ->
             det_contour d = None /\ det_corners d = None
             /\ (message d = Some noDocumentMessage
                 \/ message d = Some noCornersMessage)).
Proof.
  intros ap pre det canny fcp rasterize image o ev d.
  unfold scanDocument. cbv zeta. unfold prepareScaleAndGrayscale.
  destruct image as [img|]; [|discriminate].
  cbv zeta.
  destruct (rasterize img _ _) as [gray|msg]; [|discriminate].
  simpl grayscaleData. simpl dims.
  set (dm := targetDimensions img (orZ (maxProcessingDimension o) 2000)).
  unfold detectDocumentInternal.
  destruct (runStrategies ap pre det canny gray (targetWidth dm)
              (targetHeight dm) (Q2R (scaleFactor dm)) o)
    as [ev0 [st|msg]] eqn:Hrun; [|discriminate].
  pose proof (runStrategies_traced _ _ _ _ _ _ _ _ _ _ _ Hrun) as Htr.
  pose proof (finish_shape fcp (pickDocumentContour st)
                (Q2R (scaleFactor dm)) o) as Hshape.
  cbv zeta in Hshape. destruct Hshape as [Hok Hfail].
  destruct (success (finish fcp (pickDocumentContour st)
                       (Q2R (scaleFactor dm)) o)) eqn:Hs.
  - intro Heq. injection Heq as _ <-.
    exists img. split; [reflexivity|]. split; [|discriminate].
    intros _. simpl. split; [reflexivity|].
    destruct (Hok eq_refl) as (_ & c & cp & Hpick & Hcp & Hc & Hcorn).
    exists c, cp. repeat split; try assumption.
    eapply pickDocumentContour_traced; eassumption.
  - intro Heq. injection Heq as _ <-.
    exists img. split; [reflexivity|]. split; [discriminate|].
    intros _. simpl. split; [reflexivity|]. split; [reflexivity|].
    destruct (Hfail eq_refl) as (_ & _ & [[_ Hm]|(c & _ & _ & Hm)]);
      rewrite Hm; [left|right]; reflexivity.
Qed.


Lemma filterInto_enhancedOnly :
  filterInto alwaysSquare Enhanced [sheet] 10 10 enhancedOnly
  = [mkPooled (squareCandidate 5 (0.02 * 0.5) 0.4 0.6) Enhanced].
Proof. exact DriverClaims.filterInto_default_square. Qed.

Lemma scan_enhancedOnly :
  scanDocument alwaysSquare blankPreprocess sheetTracer blankCanny
               sheetCorners emptyRaster (Some tenByTen) enhancedOnly
  = ([Ran Enhanced 10 10],
     Returned (mkDetection true (Some detectedMessage)
                           (Some sheet) (sheetCorners sheet None))).
Proof.
  unfold scanDocument, prepareScaleAndGrayscale. cbv zeta.
  change (targetDimensions tenByTen (orZ (maxProcessingDimension enhancedOnly)
                                         2000))
    with (mkDimensions 10 10 1).
  unfold emptyRaster. cbn [grayscaleData dims targetWidth targetHeight
                           scaleFactor].
  unfold detectDocumentInternal, runStrategies. cbv zeta.
  change (useFallbackOf enhancedOnly) with false. cbv iota.
  unfold strategyEnhanced, blankPreprocess, sheetTracer.
  rewrite filterInto_enhancedOnly.
  unfold pickDocumentContour, initialState.
  cbn [allCandidates fallbackContour app sortByScore fold_right
       insertByScore filtered cand_contour squareCandidate].
  unfold finish. cbn [sheetCorners opt_epsilon enhancedOnly].
  rewrite RMicromega.Q2R_1, Reqb_refl. reflexivity.
Qed.

Lemma scan_result_shape_witness :
  exists c cp,
    Some sheet = Some c
    /\ tracedBy sheetTracer (minAreaOf enhancedOnly (Q2R 1)) 10 10 c
    /\ sheetCorners c (opt_epsilon enhancedOnly) = Some cp
    /\ sheetCorners sheet None = Some (scaleCorners (Q2R 1) cp).
Proof.
  destruct (scan_result_shape alwaysSquare blankPreprocess sheetTracer
              blankCanny sheetCorners emptyRaster (Some tenByTen)
              enhancedOnly _ _ scan_enhancedOnly)
    as (img & Himg & Hshape).
  injection Himg as <-.
  exact (proj2 (proj1 Hshape eq_refl)).
Defined.


(** *** Strategy 1 alone *)

Lemma runStrategies_no_fallback
      (approximatePolygon : list point -> R -> option (list point))
      (preprocessForDocumentDetection :
         binary -> Z -> Z -> scanOptions -> option binary)
      (detectDocumentContour : binary -> R -> Z -> Z -> list contour)
      (cannyEdgeDetector : binary -> Z -> Z -> R -> R -> completion binary)
      (gray : binary) (width height : Z) (scaleFactor : R) (o : scanOptions) :
  useFallback o = Some false ->
  runStrategies approximatePolygon preprocessForDocumentDetection
                detectDocumentContour cannyEdgeDetector
                gray width height scaleFactor o
  = ([Ran Enhanced width height],
     Returned (strategyEnhanced approximatePolygon
                 preprocessForDocumentDetection detectDocumentContour
                 gray width height scaleFactor o initialState)).
Proof.
  intro Hfb. unfold runStrategies, useFallbackOf. cbv zeta.
  now rewrite Hfb.
Qed.

(** X22.  With [useFallback: false] only the Enhanced strategy is started:
    the edge detector plays no part, so the detection returns whatever
    that detector would do.  No raw contour is kept as a last resort: when
    the filter accepts none of the traced contours, or the preprocessing
    throws, the result is "No document detected". *)
Theorem enhanced_only_detection :
  forall approximatePolygon preprocessForDocumentDetection
         detectDocumentContour cannyEdgeDetector findCornerPoints
         gray width height scaleFactor o,
    useFallback o = Some false ->
    (exists d,
        detectDocumentInternal approximatePolygon
          preprocessForDocumentDetection detectDocumentContour
          cannyEdgeDetector findCornerPoints gray width height scaleFactor o
        = ([Ran Enhanced width height], Returned d))
    /\ (forall otherDetector,
           detectDocumentInternal approximatePolygon
             preprocessForDocumentDetection detectDocumentContour
             otherDetector findCornerPoints gray width height scaleFactor o
           = detectDocumentInternal approximatePolygon
               preprocessForDocumentDetection detectDocumentContour
               cannyEdgeDetector findCornerPoints gray width height
               scaleFactor o)
    /\ (preprocessForDocumentDetection gray width height o = None ->
        detectDocumentInternal approximatePolygon
          preprocessForDocumentDetection detectDocumentContour
          cannyEdgeDetector findCornerPoints gray width height scaleFactor o
        = ([Ran Enhanced width height], Returned noDocument))
    /\ (forall preprocessed,
           preprocessForDocumentDetection gray width height o
           = Some preprocessed ->
           findDocumentContour approximatePolygon
             (detectDocumentContour preprocessed (minAreaOf o scaleFactor)
                                    width height)
             (IZR width) (IZR height) (filterOptions o) = None ->
           detectDocumentInternal approximatePolygon
             preprocessForDocumentDetection detectDocumentContour
             cannyEdgeDetector findCornerPoints gray width height
             scaleFactor o
           = ([Ran Enhanced width height], Returned noDocument)).
Proof.
  intros ap pre det canny fcp gray w h sf o Hfb.
  unfold detectDocumentInternal.
  split; [|split; [|split]].
  - rewrite (runStrategies_no_fallback ap pre det canny) by exact Hfb.
    eexists. reflexivity.
  - intro other.
    now rewrite !(runStrategies_no_fallback ap pre det) by exact Hfb.
  - intro Hpre.
    rewrite (runStrategies_no_fallback ap pre det canny) by exact Hfb.
    unfold strategyEnhanced. rewrite Hpre. reflexivity.
  - intros b Hpre Hnone.
    rewrite (runStrategies_no_fallback ap pre det canny) by exact Hfb.
    unfold strategyEnhanced. rewrite Hpre. cbv zeta.
    unfold filterInto. rewrite Hnone.
    destruct (det b (minAreaOf o sf) w h); reflexivity.
Qed.

Lemma enhanced_only_detection_witness :
  detectDocumentInternal alwaysFlat blankPreprocess sheetTracer failingCanny
                         sheetCorners [] 10 10 1 enhancedOnly
  = ([Ran Enhanced 10 10], Returned noDocument).
Proof.
  refine (proj2 (proj2 (proj2 (enhanced_only_detection alwaysFlat
            blankPreprocess sheetTracer failingCanny sheetCorners [] 10 10 1
            enhancedOnly eq_refl))) [] eq_refl _).
  unfold sheetTracer, findDocumentContour, collectCandidates. cbv zeta.
  simpl flat_map. unfold contourCandidates. simpl Nat.ltb. cbv iota.
  change (epsilonsOf (filterOptions enhancedOnly))
    with [0.02 * 0.5; 0.02 * 0.75; 0.02; 0.02 * 1.5; 0.02 * 2.0].
  assert (Hflat : forall eps,
             evalEpsilon alwaysFlat (filterOptions enhancedOnly)
                         (IZR 10 * IZR 10) sheet eps = None).
  { intro eps. unfold evalEpsilon, alwaysFlat. cbv zeta.
    change (length flatQuad) with 4%nat. simpl negb. cbv iota.
    rewrite FilterClaims.flatQuad_area.
    assert (Hsmall : Rltb 0 (IZR 10 * IZR 10
                             * orDefault (minAreaRatio
                                            (filterOptions enhancedOnly))
                                         0.15) = true).
    { apply Rltb_true_iff. simpl. unfold orNum. simpl. lra. }
    rewrite Hsmall. reflexivity. }
  simpl tryEpsilons. rewrite !Hflat. reflexivity.
Defined.

(** *** Failing strategies *)

(** X23.  The edge detector is called outside any [try]: when it throws in
    the Canny-Fallback strategy the scan throws with the same message
    after two strategies, whatever the Enhanced strategy had found, and
    when it throws in the Canny-Default strategy the scan throws after
    three.  A throw of the preprocessing is caught: the Canny strategies
    run and the pool is what they alone contribute. *)
Theorem strategy_failures :
  forall approximatePolygon preprocessForDocumentDetection
         detectDocumentContour cannyEdgeDetector findCornerPoints rasterize
         img o gray msg,
    useFallbackOf o = true ->
    rasterize img (targetDimensions img (orZ (maxProcessingDimension o) 2000))
              (match preEnhance o with Some m => m | None => Unsharp end)
    = Returned gray ->
    let dm := targetDimensions img (orZ (maxProcessingDimension o) 2000) in
    let width := targetWidth dm in
    let height := targetHeight dm in
    let scan :=
      scanDocument approximatePolygon preprocessForDocumentDetection
                   detectDocumentContour cannyEdgeDetector findCornerPoints
                   rasterize (Some img) o in
    (cannyEdgeDetector gray width height (fallbackLow o) (fallbackHigh o)
     = Threw msg ->
     scan = ([Ran Enhanced width height; Ran CannyFallback width height],
             Threw msg))
    /\ (forall edges,
           cannyEdgeDetector gray width height (fallbackLow o)
                             (fallbackHigh o) = Returned edges ->
           cannyEdgeDetector gray width height (orNum (lowThreshold o) 75)
                             (orNum (highThreshold o) 200) = Threw msg ->
           scan = ([Ran Enhanced width height; Ran CannyFallback width height;
                    Ran CannyDefault width height],
                   Threw msg))
    /\ (forall edges2 edges3,
           preprocessForDocumentDetection gray width height o = None ->
           cannyEdgeDetector gray width height (fallbackLow o)
                             (fallbackHigh o) = Returned edges2 ->
           cannyEdgeDetector gray width height (orNum (lowThreshold o) 75)
                             (orNum (highThreshold o) 200)
           = Returned edges3 ->
           exists st,
             runStrategies approximatePolygon preprocessForDocumentDetection
                           detectDocumentContour cannyEdgeDetector
                           gray width height (Q2R (scaleFactor dm)) o
             = ([Ran Enhanced width height; Ran CannyFallback width height;
                 Ran CannyDefault width height],
                Returned st)
             /\ allCandidates st
                = filterInto approximatePolygon CannyFallback
                    (detectDocumentContour edges2
                       (minAreaOf o (Q2R (scaleFactor dm))) width height)
                    width height o
                  ++ filterInto approximatePolygon CannyDefault
                       (detectDocumentContour edges3
                          (minAreaOf o (Q2R (scaleFactor dm))) width height)
                       width height o).
Proof.
  intros ap pre det canny fcp rasterize img o gray msg Hfb Hraster.
  cbv zeta.
  set (dm := targetDimensions img (orZ (maxProcessingDimension o) 2000))
    in *.
  assert (Hscan :
            forall ev,
              runStrategies ap pre det canny gray (targetWidth dm)
                            (targetHeight dm) (Q2R (scaleFactor dm)) o
              = (ev, Threw msg) ->
              scanDocument ap pre det canny fcp rasterize (Some img) o
              = (ev, Threw msg)).
  { intros ev Hrun. unfold scanDocument, prepareScaleAndGrayscale.
    cbv zeta. fold dm. rewrite Hraster.
    cbn [grayscaleData dims]. unfold detectDocumentInternal.
    rewrite Hrun. reflexivity. }
  split; [|split].
  - intro Hthrow. apply Hscan.
    unfold runStrategies. cbv zeta. rewrite Hfb.
    unfold strategyCanny. rewrite Hthrow. reflexivity.
  - intros edges Hret Hthrow. apply Hscan.
    unfold runStrategies. cbv zeta. rewrite Hfb.
    unfold strategyCanny at 1. rewrite Hret.
    unfold strategyCanny. rewrite Hthrow. reflexivity.
  - intros edges2 edges3 Hpre H2 H3.
    eexists. split.
    + unfold runStrategies. cbv zeta. rewrite Hfb.
      unfold strategyCanny at 1. rewrite H2.
      unfold strategyCanny. rewrite H3. reflexivity.
    + unfold strategyEnhanced. rewrite Hpre. reflexivity.
Qed.

Lemma strategy_failures_witness :
  scanDocument alwaysSquare blankPreprocess sheetTracer failingCanny
               sheetCorners emptyRaster (Some tenByTen) defaultScanOptions
  = ([Ran Enhanced 10 10; Ran CannyFallback 10 10],
     Threw failureMessage).
Proof.
  exact (proj1 (strategy_failures alwaysSquare blankPreprocess sheetTracer
                  failingCanny sheetCorners emptyRaster tenByTen
                  defaultScanOptions [] _ eq_refl eq_refl)
               eq_refl).
Defined.


(** *** Options that are zero *)

Lemma orNum_zero (d : R) : orNum (Some 0) d = d.
Proof. unfold orNum. now rewrite Reqb_refl. Qed.

Lemma orNum_nonzero (v d : R) : v <> 0 -> orNum (Some v) d = v.
Proof.
  intro Hv. unfold orNum.
  destruct (Reqb v 0) eqn:Hz; [|reflexivity].
  apply Reqb_true_iff in Hz. contradiction.
Qed.

(** What the scan pools was admitted by the filter under the driver's
    filter options. *)
Lemma filterInto_admitted
      (approximatePolygon : list point -> R -> option (list point))
      (s : strategy) (contours : list contour) (width height : Z)
      (o : scanOptions) (p : pooled) :
  In p (filterInto approximatePolygon s contours width height o) ->
  exists c eps,
    admitted approximatePolygon (filterOptions o) (IZR width * IZR height)
             c eps (filtered p).
Proof.
  intro Hin. apply DriverClaims.filterInto_In in Hin.
  destruct Hin as [_ Hfind].
  apply DriverClaims.findDocumentContour_In in Hfind.
  destruct Hfind as [Hin _].
  apply collectCandidates_In in Hin.
  destruct Hin as (c & eps & _ & Hadm). now exists c, eps.
Qed.

(** X24.  The driver reads its numeric filter options with [||], so a
    configured zero counts as unset.  A scan cannot switch off the lower
    area bound, the lower angle bound or the area weight: with
    [minAreaRatio: 0] every pooled candidate still covers 15% of the
    image, with [angleRange: [0, ...]] its angles are still at least 70
    degrees, and with [areaWeight: 0] its score still weighs the area by
    0.4.  A non-zero setting is passed on unchanged. *)
Theorem zero_option_is_default :
  forall approximatePolygon s contours width height o p,
    In p (filterInto approximatePolygon s contours width height o) ->
    let cand := filtered p in
    let imageArea := IZR width * IZR height in
    (cfField o cf_minAreaRatio = Some 0 ->
     imageArea * 0.15 <= cand_area cand)
    /\ (angleRangeAt o 0 = Some 0 ->
        forall i, (i < 4)%nat -> 70 <= angleAt (cand_approx cand) 4 i)
    /\ (cfField o cf_areaWeight = Some 0 ->
        cand_score cand
        = 0.4 * (cand_area cand / imageArea)
          + orNum (cfField o cf_angleWeight) 0.6 * cand_angleScore cand)
    /\ (forall v, v <> 0 -> cfField o cf_minAreaRatio = Some v ->
                  imageArea * v <= cand_area cand).
Proof.
  intros ap s contours w h o p Hin. cbv zeta.
  destruct (filterInto_admitted ap s contours w h o p Hin)
    as (c & eps & Hadm).
  pose proof (adm_area_bounds _ _ _ _ _ _ Hadm) as Hb.
  pose proof (adm_angles _ _ _ _ _ _ Hadm) as Hang.
  pose proof (adm_corners _ _ _ _ _ _ Hadm) as Hlen.
  pose proof (adm_score _ _ _ _ _ _ Hadm) as Hscore.
  simpl in Hb, Hang, Hscore.
  split; [|split; [|split]].
  - intro Hz. rewrite Hz, orNum_zero in Hb. apply Hb.
  - intros Hz i Hi. rewrite Hz, orNum_zero in Hang.
    apply AngleFacts.hasReasonableAngles_inv in Hang.
    destruct Hang as [_ Hall]. rewrite Hlen in Hall.
    apply (Hall i Hi).
  - intro Hz. rewrite Hz, orNum_zero in Hscore. exact Hscore.
  - intros v Hv Hset. rewrite Hset, orNum_nonzero in Hb by exact Hv.
    apply Hb.
Qed.

Lemma filterInto_zeroConfigured :
  filterInto alwaysSquare Enhanced [sheet] 10 10 zeroConfigured
  = [mkPooled (squareCandidate 5 (0.02 * 0.5) 0.4 0.6) Enhanced].
Proof.
  unfold filterInto, findDocumentContour, collectCandidates. cbv zeta.
  simpl flat_map. unfold contourCandidates. simpl Nat.ltb. cbv iota.
  change (epsilonsOf (filterOptions zeroConfigured))
    with [0.02 * 0.5; 0.02 * 0.75; 0.02; 0.02 * 1.5; 0.02 * 2.0].
  assert (Hev : evalEpsilon alwaysSquare (filterOptions zeroConfigured)
                            (IZR 10 * IZR 10) sheet (0.02 * 0.5)
                = Some (squareCandidate 5 (0.02 * 0.5) 0.4 0.6)).
  { rewrite (evalEpsilon_rectangle alwaysSquare
               (filterOptions zeroConfigured) (10 * 10) sheet
               (0.02 * 0.5) 5 5); simpl;
      rewrite ?Reqb_refl; try lra.
    - reflexivity.
    - reflexivity.
    - apply Rltb_false_iff. lra.
    - apply Rltb_false_iff. lra. }
  simpl tryEpsilons. rewrite Hev.
  assert (H : Rltb 0.5 (cand_score (squareCandidate 5 (0.02 * 0.5) 0.4 0.6))
              = true) by (apply Rltb_true_iff; simpl; lra).
  rewrite H. reflexivity.
Qed.

Lemma zero_option_is_default_witness :
  IZR 10 * IZR 10 * 0.15
  <= cand_area (squareCandidate 5 (0.02 * 0.5) 0.4 0.6).
Proof.
  refine (proj1 (zero_option_is_default alwaysSquare Enhanced [sheet] 10 10
                   zeroConfigured
                   (mkPooled (squareCandidate 5 (0.02 * 0.5) 0.4 0.6)
                             Enhanced) _) eq_refl).
  rewrite filterInto_zeroConfigured. simpl. auto.
Defined.


(** *** Target dimensions *)

(** X25.  For an image with sides between 0 and 2^25 and a positive
    processing limit: an image whose larger side is within the limit
    keeps its size, with scale factor 1 (nothing is scaled up).
    Otherwise the larger side becomes exactly the limit and the other
    side, computed in doubles, is the proportional length rounded to an
    integer nearest to it (at a tie of the exact quotient either
    neighbour), between 0 and the limit; the scale factor handed on for
    the corners is above 1 and within the fraction 2^-51 of larger side
    over limit. *)
Theorem target_dimensions :
  forall img maxDimension,
    (0 < maxDimension)%Z ->
    (0 <= originalWidth img)%Z -> (0 <= originalHeight img)%Z ->
    (Z.max (originalWidth img) (originalHeight img) <= 2 ^ 25)%Z ->
    let W := originalWidth img in
    let H := originalHeight img in
    let M := Z.max W H in
    let d := targetDimensions img maxDimension in
    ((M <= maxDimension)%Z ->
     targetWidth d = W /\ targetHeight d = H /\ scaleFactor d = 1%Q)
    /\ ((maxDimension < M)%Z ->
        Z.max (targetWidth d) (targetHeight d) = maxDimension
        /\ (0 <= targetWidth d <= maxDimension)%Z
        /\ (0 <= targetHeight d <= maxDimension)%Z
        /\ (2 * W * maxDimension - M <= 2 * M * targetWidth d
            <= 2 * W * maxDimension + M)%Z
        /\ (2 * H * maxDimension - M <= 2 * M * targetHeight d
            <= 2 * H * maxDimension + M)%Z
        /\ (inject_Z M * (1 - (1 # 2 ^ 51))
            <= scaleFactor d * inject_Z maxDimension)%Q
        /\ (scaleFactor d * inject_Z maxDimension
            <= inject_Z M * (1 + (1 # 2 ^ 51)))%Q
        /\ (1 < scaleFactor d)%Q).
Proof.
  intros img m Hm HW HH Hsize. cbv zeta.
  set (W := originalWidth img) in *. set (H := originalHeight img) in *.
  split.
  - intro Hle. unfold targetDimensions. cbv zeta. fold W H.
    apply Z.leb_le in Hle. rewrite Hle. repeat split.
  - intro Hlt. unfold targetDimensions. cbv zeta. fold W H.
    assert (Hb : (Z.max W H <=? m)%Z = false) by (apply Z.leb_gt; exact Hlt).
    rewrite Hb. cbn [targetWidth targetHeight scaleFactor].
    pose proof (DoubleFacts.scaled_side W m (Z.max W H) Hm Hlt
                  ltac:(lia) Hsize) as Hw.
    pose proof (DoubleFacts.scaled_side H m (Z.max W H) Hm Hlt
                  ltac:(lia) Hsize) as Hh.
    destruct (DoubleFacts.scaleFactor_error m (Z.max W H) Hm Hlt Hsize)
      as (Hf1 & Hf2 & Hf3).
    cbv zeta in Hw, Hh, Hf1, Hf2, Hf3.
    set (tw := jsRound _) in *. set (th := jsRound _) in *.
    assert (HM : (0 < Z.max W H)%Z) by lia.
    split; [|split; [|split; [|split; [exact Hw|split; [exact Hh|
            split; [exact Hf1|split; [exact Hf2|exact Hf3]]]]]]].
    + destruct (Z.max_spec W H) as [[Hwh Hmax]|[Hwh Hmax]];
        rewrite Hmax in *; nia.
    + nia.
    + nia.
Qed.

Lemma target_dimensions_witness :
  Z.max (targetWidth (targetDimensions portraitPhoto 2000))
        (targetHeight (targetDimensions portraitPhoto 2000)) = 2000%Z
  /\ (0 <= targetWidth (targetDimensions portraitPhoto 2000) <= 2000)%Z
  /\ (0 <= targetHeight (targetDimensions portraitPhoto 2000) <= 2000)%Z
  /\ (2 * 1140 * 2000 - 2432
      <= 2 * 2432 * targetWidth (targetDimensions portraitPhoto 2000)
      <= 2 * 1140 * 2000 + 2432)%Z.
Proof.
  assert (H0 : (0 < 2000)%Z) by lia.
  assert (HW : (0 <= originalWidth portraitPhoto)%Z) by (simpl; lia).
  assert (HH : (0 <= originalHeight portraitPhoto)%Z) by (simpl; lia).
  assert (Hs : (Z.max (originalWidth portraitPhoto)
                      (originalHeight portraitPhoto) <= 2 ^ 25)%Z)
    by (simpl; lia).
  assert (Hlt : (2000 < Z.max (originalWidth portraitPhoto)
                              (originalHeight portraitPhoto))%Z)
    by (simpl; lia).
  destruct (proj2 (target_dimensions portraitPhoto 2000 H0 HW HH Hs) Hlt)
    as (Hmax & Hw & Hh & Hwr & _).
  exact (conj Hmax (conj Hw (conj Hh Hwr))).
Defined.

(** The sides the code computes for a 1140x2432 image at the default
    limit: the exact quotient 937.5 is 937.4999999999999 in doubles. *)
Lemma portrait_photo_targets :
  targetWidth (targetDimensions portraitPhoto 2000) = 937%Z
  /\ targetHeight (targetDimensions portraitPhoto 2000) = 2000%Z.
Proof. split; vm_compute; reflexivity. Qed.

End DriverFacts.

(** ** The perspective warp *)

Module PerspectiveFacts.

Import ContourFilter Driver Perspective.

Lemma invert3x3_det (m : matrix3) :
  invert3x3 m
  = if Reqb (det3 m) 0 then Threw singularMessage
    else Returned
           (mkMatrix3
              ((m11 m * m22 m - m12 m * m21 m) / det3 m)
              (- (m01 m * m22 m - m02 m * m21 m) / det3 m)
              ((m01 m * m12 m - m02 m * m11 m) / det3 m)
              (- (m10 m * m22 m - m12 m * m20 m) / det3 m)
              ((m00 m * m22 m - m02 m * m20 m) / det3 m)
              (- (m00 m * m12 m - m02 m * m10 m) / det3 m)
              ((m10 m * m21 m - m11 m * m20 m) / det3 m)
              (- (m00 m * m21 m - m01 m * m20 m) / det3 m)
              ((m00 m * m11 m - m01 m * m10 m) / det3 m)).
Proof.
  unfold invert3x3. cbv zeta.
  assert (Hdet : m00 m * (m11 m * m22 m - m12 m * m21 m)
                 + m01 m * - (m10 m * m22 m - m12 m * m20 m)
                 + m02 m * (m10 m * m21 m - m11 m * m20 m)
                 = det3 m) by (unfold det3; ring).
  rewrite Hdet. reflexivity.
Qed.

Lemma invert3x3_Returned (m inv : matrix3) :
  invert3x3 m = Returned inv ->
  det3 m <> 0 /\ mmul m inv = identity3 /\ mmul inv m = identity3.
Proof.
  rewrite invert3x3_det.
  destruct (Reqb (det3 m) 0) eqn:Hz; [discriminate|].
  apply Reqb_false_iff in Hz. intro Heq. injection Heq as <-.
  split; [exact Hz|].
  unfold mmul, identity3. cbn [m00 m01 m02 m10 m11 m12 m20 m21 m22].
  split; f_equal; unfold det3 in *; field; exact Hz.
Qed.

(** X26.  [invert3x3] throws "Singular matrix" exactly for a matrix of
    determinant zero; what it returns otherwise is the inverse on both
    sides. *)
Theorem invert3x3_inverse :
  forall m,
    (invert3x3 m = Threw singularMessage <-> det3 m = 0)
    /\ (det3 m <> 0 -> exists inv, invert3x3 m = Returned inv)
    /\ (forall inv,
           invert3x3 m = Returned inv ->
           mmul m inv = identity3 /\ mmul inv m = identity3).
Proof.
  intro m. split; [|split].
  - rewrite invert3x3_det.
    destruct (Reqb (det3 m) 0) eqn:Hz.
    + apply Reqb_true_iff in Hz. split; auto.
    + apply Reqb_false_iff in Hz. split; [discriminate | contradiction].
  - intro Hnz. rewrite invert3x3_det.
    destruct (Reqb (det3 m) 0) eqn:Hz.
    + apply Reqb_true_iff in Hz. contradiction.
    + eexists. reflexivity.
  - intros inv Hinv. exact (proj2 (invert3x3_Returned m inv Hinv)).
Qed.

(** X27.  The map [warpTransform] uses to find the source point of an
    output point undoes the perspective transform: a point sent to the
    output by the matrix (its third homogeneous coordinate not zero) is
    sent back to itself by [mapPoint] on the inverted matrix. *)
Theorem mapPoint_round_trip :
  forall m inv x y,
    invert3x3 m = Returned inv ->
    m20 m * x + m21 m * y + m22 m <> 0 ->
    mapPoint inv (px (mapPoint m x y)) (py (mapPoint m x y)) = mkPoint x y.
Proof.
  intros m inv x y Hinv Hw.
  rewrite invert3x3_det in Hinv.
  destruct (Reqb (det3 m) 0) eqn:Hz; [discriminate|].
  apply Reqb_false_iff in Hz. injection Hinv as <-.
  unfold mapPoint. cbn [px py m00 m01 m02 m10 m11 m12 m20 m21 m22].
  set (w := m20 m * x + m21 m * y + m22 m) in *.
  set (u := m00 m * x + m01 m * y + m02 m).
  set (v := m10 m * x + m11 m * y + m12 m).
  set (dt := det3 m) in *.
  assert (Hden : (m10 m * m21 m - m11 m * m20 m) / dt * (u / w)
                 + - (m00 m * m21 m - m01 m * m20 m) / dt * (v / w)
                 + (m00 m * m11 m - m01 m * m10 m) / dt
                 = / w).
  { unfold u, v, w, dt, det3. field. split; first [exact Hw | exact Hz]. }
  assert (Hx : (m11 m * m22 m - m12 m * m21 m) / dt * (u / w)
               + - (m01 m * m22 m - m02 m * m21 m) / dt * (v / w)
               + (m01 m * m12 m - m02 m * m11 m) / dt
               = x / w).
  { unfold u, v, w, dt, det3. field. split; first [exact Hw | exact Hz]. }
  assert (Hy : - (m10 m * m22 m - m12 m * m20 m) / dt * (u / w)
               + (m00 m * m22 m - m02 m * m20 m) / dt * (v / w)
               + - (m00 m * m12 m - m02 m * m10 m) / dt
               = y / w).
  { unfold u, v, w, dt, det3. field. split; first [exact Hw | exact Hz]. }
  rewrite Hden, Hx, Hy. f_equal; field; exact Hw.
Qed.


Lemma invert3x3_nonsingular (m : matrix3) :
  det3 m <> 0 -> exists inv, invert3x3 m = Returned inv.
Proof.
  intro Hnz. rewrite invert3x3_det.
  destruct (Reqb (det3 m) 0) eqn:Hz.
  - apply Reqb_true_iff in Hz. contradiction.
  - eexists. reflexivity.
Qed.

Lemma mapPoint_round_trip_witness :
  exists inv,
    invert3x3 shiftScale = Returned inv
    /\ mapPoint inv (px (mapPoint shiftScale 3 4))
                (py (mapPoint shiftScale 3 4)) = mkPoint 3 4.
Proof.
  assert (Hdet : det3 shiftScale <> 0) by (unfold det3; simpl; lra).
  destruct (invert3x3_nonsingular shiftScale Hdet) as [inv Hinv].
  exists inv. split; [exact Hinv|].
  apply (mapPoint_round_trip shiftScale inv 3 4 Hinv).
  simpl. lra.
Defined.

(** *** Textured triangles *)

Lemma drawTexturedTriangle_None
      (sx0 sy0 sx1 sy1 sx2 sy2 dx0 dy0 dx1 dy1 dx2 dy2 : R) :
  drawTexturedTriangle sx0 sy0 sx1 sy1 sx2 sy2 dx0 dy0 dx1 dy1 dx2 dy2
  = None
  <-> Rabs ((sx0 - sx2) * (sy1 - sy2) - (sx1 - sx2) * (sy0 - sy2)) < 1e-10.
Proof.
  unfold drawTexturedTriangle. cbv zeta.
  destruct (Rltb (Rabs _) 1e-10) eqn:Hd.
  - apply Rltb_true_iff in Hd. split; auto.
  - apply Rltb_false_iff in Hd. split; [discriminate | lra].
Qed.

(** X28.  A triangle is skipped exactly when twice the signed area of its
    source triangle is below 1e-10 in absolute value, so also when the
    source points are collinear.  Otherwise the transform handed to the
    canvas draws each vertex of the source triangle at the matching vertex
    of the destination triangle. *)
Theorem textured_triangle_transform :
  forall sx0 sy0 sx1 sy1 sx2 sy2 dx0 dy0 dx1 dy1 dx2 dy2,
    let draw :=
      drawTexturedTriangle sx0 sy0 sx1 sy1 sx2 sy2
                           dx0 dy0 dx1 dy1 dx2 dy2 in
    let denom := (sx0 - sx2) * (sy1 - sy2) - (sx1 - sx2) * (sy0 - sy2) in
    (draw = None <-> Rabs denom < 1e-10)
    /\ (denom = 0 -> draw = None)
    /\ (forall cmd,
           draw = Some cmd ->
           drawnAt (transform cmd) (mkPoint sx0 sy0) = mkPoint dx0 dy0
           /\ drawnAt (transform cmd) (mkPoint sx1 sy1) = mkPoint dx1 dy1
           /\ drawnAt (transform cmd) (mkPoint sx2 sy2) = mkPoint dx2 dy2).
Proof.
  intros sx0 sy0 sx1 sy1 sx2 sy2 dx0 dy0 dx1 dy1 dx2 dy2. cbv zeta.
  split; [apply drawTexturedTriangle_None|]. split.
  - intro Hz. apply drawTexturedTriangle_None. rewrite Hz, Rabs_R0. lra.
  - intros cmd. unfold drawTexturedTriangle. cbv zeta.
    destruct (Rltb (Rabs _) 1e-10) eqn:Hd; [discriminate|].
    apply Rltb_false_iff in Hd.
    assert (Hnz : (sx0 - sx2) * (sy1 - sy2) - (sx1 - sx2) * (sy0 - sy2)
                  <> 0).
    { intro Hz. rewrite Hz, Rabs_R0 in Hd. lra. }
    intro Heq. injection Heq as <-.
    unfold drawnAt. cbn [transform af_a af_b af_c af_d af_e af_f px py].
    repeat split; f_equal; field; exact Hnz.
Qed.

Lemma textured_triangle_transform_witness :
  drawTexturedTriangle 0 0 1 1 2 2 0 0 8 0 0 8 = None.
Proof.
  apply (proj1 (proj2 (textured_triangle_transform 0 0 1 1 2 2
                         0 0 8 0 0 8))).
  lra.
Defined.

Lemma grow_distance (centerX centerY x y : R) :
  let center := mkPoint centerX centerY in
  let p := mkPoint x y in
  (distance p center < 1e-6 -> grow centerX centerY x y = p)
  /\ (1e-6 <= distance p center ->
      distance (grow centerX centerY x y) center = distance p center + 1
      /\ distance (grow centerX centerY x y) p = 1).
Proof.
  cbv zeta. unfold grow, distance. cbv zeta. cbn [px py].
  replace 1.0 with 1 by lra.
  set (vx := x - centerX). set (vy := y - centerY).
  remember (sqrt (vx * vx + vy * vy)) as len eqn:Hlen.
  split.
  - intro Hsmall. apply Rltb_true_iff in Hsmall. now rewrite Hsmall.
  - intro Hbig.
    assert (Hlt : Rltb len 1e-6 = false) by (apply Rltb_false_iff; lra).
    rewrite Hlt. cbn [px py].
    assert (Hpos : 0 < len) by lra.
    assert (Hsq : len * len = vx * vx + vy * vy).
    { rewrite Hlen. apply sqrt_sqrt. nra. }
    split.
    + replace ((x + vx / len * 1 - centerX)
               * (x + vx / len * 1 - centerX)
               + (y + vy / len * 1 - centerY)
                 * (y + vy / len * 1 - centerY))
        with ((len + 1) * (len + 1)).
      * apply sqrt_square. lra.
      * transitivity ((vx * vx + vy * vy) * ((1 + / len) * (1 + / len))).
        -- rewrite <- Hsq. field. lra.
        -- unfold vx, vy. field. lra.
    + replace ((x + vx / len * 1 - x) * (x + vx / len * 1 - x)
               + (y + vy / len * 1 - y) * (y + vy / len * 1 - y))
        with (1 * 1).
      * apply sqrt_square. lra.
      * transitivity ((vx * vx + vy * vy) * (/ len * / len)).
        -- rewrite <- Hsq. field. lra.
        -- unfold vx, vy. field. lra.
Qed.

(** X29.  The clip path of a drawn triangle has three vertices.  Each is
    the destination vertex pushed away from the centroid of the
    destination triangle by exactly one pixel, except a vertex closer than
    1e-6 to the centroid, which stays where it is. *)
Theorem clip_path_expansion :
  forall sx0 sy0 sx1 sy1 sx2 sy2 dx0 dy0 dx1 dy1 dx2 dy2 cmd,
    drawTexturedTriangle sx0 sy0 sx1 sy1 sx2 sy2 dx0 dy0 dx1 dy1 dx2 dy2
    = Some cmd ->
    let center := mkPoint ((dx0 + dx1 + dx2) / 3) ((dy0 + dy1 + dy2) / 3) in
    Forall2
      (fun p d =>
         (distance d center < 1e-6 /\ p = d)
         \/ (1e-6 <= distance d center
             /\ distance p center = distance d center + 1
             /\ distance p d = 1))
      (clipPath cmd)
      [mkPoint dx0 dy0; mkPoint dx1 dy1; mkPoint dx2 dy2].
Proof.
  intros until cmd. unfold drawTexturedTriangle. cbv zeta.
  destruct (Rltb (Rabs _) 1e-10); [discriminate|].
  intro Heq. injection Heq as <-. cbn [clipPath].
  assert (Hone : forall x y,
             let center :=
               mkPoint ((dx0 + dx1 + dx2) / 3) ((dy0 + dy1 + dy2) / 3) in
             (distance (mkPoint x y) center < 1e-6
              /\ grow ((dx0 + dx1 + dx2) / 3) ((dy0 + dy1 + dy2) / 3) x y
                 = mkPoint x y)
             \/ (1e-6 <= distance (mkPoint x y) center
                 /\ distance (grow ((dx0 + dx1 + dx2) / 3)
                                   ((dy0 + dy1 + dy2) / 3) x y) center
                    = distance (mkPoint x y) center + 1
                 /\ distance (grow ((dx0 + dx1 + dx2) / 3)
                                   ((dy0 + dy1 + dy2) / 3) x y)
                             (mkPoint x y) = 1)).
  { intros x y. cbv zeta.
    destruct (grow_distance ((dx0 + dx1 + dx2) / 3) ((dy0 + dy1 + dy2) / 3)
                            x y) as [Hs Hb].
    cbv zeta in Hs, Hb.
    destruct (Rlt_le_dec
                (distance (mkPoint x y)
                   (mkPoint ((dx0 + dx1 + dx2) / 3) ((dy0 + dy1 + dy2) / 3)))
                1e-6) as [Hlt|Hge].
    - left. split; [exact Hlt | exact (Hs Hlt)].
    - right. split; [exact Hge | exact (Hb Hge)]. }
  cbv zeta in Hone.
  do 3 (apply Forall2_cons; [apply Hone|]). apply Forall2_nil.
Qed.

Lemma clip_path_expansion_witness :
  Forall2
    (fun p d =>
       (distance d (mkPoint ((0 + 9 + 0) / 3) ((0 + 0 + 9) / 3)) < 1e-6
        /\ p = d)
       \/ (1e-6 <= distance d (mkPoint ((0 + 9 + 0) / 3) ((0 + 0 + 9) / 3))
           /\ distance p (mkPoint ((0 + 9 + 0) / 3) ((0 + 0 + 9) / 3))
              = distance d (mkPoint ((0 + 9 + 0) / 3) ((0 + 0 + 9) / 3)) + 1
           /\ distance p d = 1))
    [grow ((0 + 9 + 0) / 3) ((0 + 0 + 9) / 3) 0 0;
     grow ((0 + 9 + 0) / 3) ((0 + 0 + 9) / 3) 9 0;
     grow ((0 + 9 + 0) / 3) ((0 + 0 + 9) / 3) 0 9]
    [mkPoint 0 0; mkPoint 9 0; mkPoint 0 9].
Proof.
  refine (clip_path_expansion 0 0 1 0 0 1 0 0 9 0 0 9
            (mkTriangleDraw _ _) _).
  unfold drawTexturedTriangle. cbv zeta.
  assert (Hd : Rltb (Rabs ((0 - 0) * (0 - 1) - (1 - 0) * (0 - 1))) 1e-10
               = false).
  { apply Rltb_false_iff.
    replace ((0 - 0) * (0 - 1) - (1 - 0) * (0 - 1)) with 1 by ring.
    rewrite Rabs_R1. lra. }
  rewrite Hd. reflexivity.
Defined.

End PerspectiveFacts.

(* ------------------------------------------------------------------ *)
(** ** The composite score in doubles

    [findDocumentContour] computes [area / imageArea], the two products
    and their sum in doubles; each of the four operations rounds. *)

Module ScoreRounding.

Import Doubles DoubleFacts.

Lemma scoreDouble_near (areaWeight angleWeight area imageArea angleScore : Q) :
  (0 <= areaWeight)%Q -> (0 <= angleWeight)%Q ->
  (0 <= area)%Q -> (0 < imageArea)%Q -> (0 <= angleScore)%Q ->
  let exact :=
    (areaWeight * (area / imageArea) + angleWeight * angleScore)%Q in
  (exact * (1 - (1 # 2251799813685248))
   <= scoreDouble areaWeight angleWeight area imageArea angleScore)%Q
  /\ (scoreDouble areaWeight angleWeight area imageArea angleScore
      <= exact * (1 + (1 # 2251799813685248)))%Q.
Proof.
  intros Haw Hgw Ha HA Hg. cbv zeta. unfold scoreDouble. cbv zeta.
  assert (Hu : (unitRoundoff == 1 # 9007199254740992)%Q) by reflexivity.
  assert (Hx : (0 <= area / imageArea)%Q).
  { apply Qle_shift_div_l; [exact HA|]. now rewrite Qmult_0_l. }
  destruct (roundDouble_error _ Hx) as [Hn1 Hn2].
  set (x := (area / imageArea)%Q) in *.
  set (n := roundDouble x) in *.
  rewrite Hu in Hn1, Hn2.
  assert (Hn0 : (0 <= n)%Q).
  { eapply Qle_trans; [|exact Hn1].
    apply Qmult_le_0_compat; [exact Hx | discriminate]. }
  assert (Hp0 : (0 <= areaWeight * n)%Q) by now apply Qmult_le_0_compat.
  assert (Hq0 : (0 <= angleWeight * angleScore)%Q)
    by now apply Qmult_le_0_compat.
  destruct (roundDouble_error _ Hp0) as [Ht1 Ht2].
  destruct (roundDouble_error _ Hq0) as [Hv1 Hv2].
  rewrite Hu in Ht1, Ht2, Hv1, Hv2.
  assert (Hpl : (areaWeight * (x * (1 - (1 # 9007199254740992)))
                 <= areaWeight * n)%Q).
  { rewrite !(Qmult_comm areaWeight).
    apply Qmult_le_compat_r; assumption. }
  assert (Hph : (areaWeight * n
                 <= areaWeight * (x * (1 + (1 # 9007199254740992))))%Q).
  { rewrite !(Qmult_comm areaWeight).
    apply Qmult_le_compat_r; assumption. }
  assert (E1 : (areaWeight * (x * (1 - (1 # 9007199254740992)))
                == areaWeight * x * (1 - (1 # 9007199254740992)))%Q) by ring.
  assert (E2 : (areaWeight * (x * (1 + (1 # 9007199254740992)))
                == areaWeight * x * (1 + (1 # 9007199254740992)))%Q) by ring.
  rewrite E1 in Hpl. rewrite E2 in Hph.
  assert (HP0 : (0 <= areaWeight * x)%Q) by now apply Qmult_le_0_compat.
  set (P := (areaWeight * x)%Q) in *.
  set (G := (angleWeight * angleScore)%Q) in *.
  set (a := (areaWeight * n)%Q) in *.
  set (t := roundDouble a) in *. set (v := roundDouble G) in *.
  assert (Hs0 : (0 <= t + v)%Q).
  { clearbody P G a t v. clear - Ht1 Hv1 Hp0 Hq0. Lqa.lra. }
  destruct (roundDouble_error _ Hs0) as [Hs1 Hs2].
  rewrite Hu in Hs1, Hs2.
  set (s := roundDouble (t + v)) in *.
  clearbody P G a t v s.
  clear - HP0 Hq0 Hp0 Hpl Hph Ht1 Ht2 Hv1 Hv2 Hs1 Hs2.
  split; Lqa.lra.
Qed.



End ScoreRounding.
